(** * juissy: the lazy pagination and consumption engine of [DrupalClient]

    A shallow embedding of [src/lib/index.js].  The closure variables of
    [paginate] become the fields of a record, promises become entries of a
    promise table that the transport settles through explicit events, and
    the generator [cursor] becomes a function from engine states to engine
    states together with the value it yields.

    JavaScript numbers are modelled by [Z]: the counters of the engine are
    element counts, far below the range where doubles lose integers. *)

From Stdlib Require Import Ascii.
From stdpp Require Import gmap strings list pretty.

Set Warnings "-register-all".

Open Scope string_scope.
Open Scope list_scope.

(** ** JavaScript values used by the client *)

(** Errors a promise is rejected with, or that a call throws. *)
Inductive jserror :=
| TypeError (msg : string)
| ReferenceError (msg : string)
| DocError (msg : string)
| Rejection (reason : string).

(** A settled promise. *)
Inductive settled (A : Type) :=
| Fulfilled (a : A)
| Rejected (e : jserror).
Arguments Fulfilled {A} & a.
Arguments Rejected {A} e.

(** A resource: its identity and, for every relationship it carries, the
    URL under [relationships.<name>.links.related]. *)
Record Resource := {
  res_id : string;
  res_related : gmap string string
}.

(** An element of a [data] array: a resource, or [null]. *)
Abbreviation jsres := (option Resource).

(** The [data] member: one resource or an array of them. *)
Inductive DocData :=
| DataOne (r : jsres)
| DataMany (rs : list jsres).

(** A parsed document.  A member that is absent is [None]; [doc_links]
    holds the [next] entry of the [links] member when that member exists. *)
Record Doc := {
  doc_data : option DocData;
  doc_errors : option (list string);
  doc_links : option (option string)
}.

(** What the transport answers to one [fetch]. *)
Inductive response :=
| RespOk (d : Doc)
| RespNotOk (statusText : string)
| RespNetErr (reason : string).

(** A string is truthy unless it is empty. *)
Definition truthy (s : string) : bool :=
  match s with EmptyString => false | _ => true end.

(** [link] is a string or [false]; [None] stands for [false]. *)
Definition link_truthy (l : option string) : bool :=
  match l with Some s => truthy s | None => false end.

(** [x || false] for a string or [undefined]. *)
Definition or_false (x : option string) : option string :=
  match x with
  | Some s => if truthy s then Some s else None
  | None => None
  end.

(** ** Relationship specs *)

(** A node of the caller's relationship spec: a bare field name, or an
    object with optional [field], [limit] and nested [relationships]. *)
Inductive relnode :=
| RelName (name : string)
| RelObj (field : option string) (rlimit : option Z)
         (rels : option (list (string * relnode))).

Abbreviation relspec := (list (string * relnode)).

(** [expander]: a string becomes [{field: node}], anything else is kept. *)
Definition expander (node : relnode) : relnode :=
  match node with
  | RelName s => RelObj (Some s) None None
  | RelObj f l r => RelObj f l r
  end.

(** [objectMapper] on one property value: map it, then map its own
    [relationships] when it has some. *)
Fixpoint objectMapper_node (node : relnode) : relnode :=
  match node with
  | RelName s => expander (RelName s)
  | RelObj f l None => expander (RelObj f l None)
  | RelObj f l (Some rs) =>
      RelObj f l (Some (map (fun pc => (fst pc, objectMapper_node (snd pc))) rs))
  end.

(** [objectMapper(node, expander, {})] on an object. *)
Definition objectMapper (node : relspec) : relspec :=
  map (fun pc => (fst pc, objectMapper_node (snd pc))) node.

(** [expandRelationships]: [Object.getOwnPropertyNames] throws on [null]. *)
Definition expandRelationships (relationships : option relspec)
  : jserror + relspec :=
  match relationships with
  | None => inl (TypeError "Cannot convert undefined or null to object")
  | Some node => inr (objectMapper node)
  end.

(** The field name as the template literal prints it. *)
Definition field_text (node : relnode) : string :=
  match node with
  | RelName _ => "undefined"
  | RelObj (Some f) _ _ => f
  | RelObj None _ _ => "undefined"
  end.

(** [target.limit || -1]. *)
Definition target_limit (node : relnode) : Z :=
  match node with
  | RelObj _ (Some l) _ => if (l =? 0)%Z then (-1)%Z else l
  | _ => (-1)%Z
  end.

(** [target.relationships || null]. *)
Definition target_relationships (node : relnode) : option relspec :=
  match node with
  | RelObj _ _ r => r
  | RelName _ => None
  end.

(** The values [extractValue] meets on its way through a resource:
    objects, strings, the numbers that strings own as [length], and
    [false]. *)
Inductive jsval :=
| JFalse
| JNum (n : nat)
| JStr (s : string)
| JObj (members : gmap string jsval).

Definition js_truthy (x : jsval) : bool :=
  match x with
  | JFalse => false
  | JNum n => negb (n =? 0)%nat
  | JStr s => truthy s
  | JObj _ => true
  end.

(** How a value prints when it is used as a URL. *)
Definition js_text (x : jsval) : string :=
  match x with
  | JFalse => "false"
  | JNum n => pretty n
  | JStr s => s
  | JObj _ => "[object Object]"
  end.

Definition digit_of (c : Ascii.ascii) : option nat :=
  let n := Ascii.nat_of_ascii c in
  if (48 <=? n)%nat && (n <=? 57)%nat then Some (n - 48)%nat else None.

Fixpoint digits (s : string) (acc : nat) : option nat :=
  match s with
  | EmptyString => Some acc
  | String c s' =>
      match digit_of c with
      | Some d => digits s' (10 * acc + d)%nat
      | None => None
      end
  end.

(** The array index a property name denotes: decimal digits without a
    leading zero. *)
Definition index_of (name : string) : option nat :=
  match name with
  | EmptyString => None
  | String "0"%char EmptyString => Some 0%nat
  | String "0"%char _ => None
  | _ => digits name 0
  end.

(** [x.hasOwnProperty(part) ? x[part] : undefined].  An object owns its
    members; a string owns [length] and its characters, by index. *)
Definition js_own (x : jsval) (part : string) : option jsval :=
  match x with
  | JObj members => members !! part
  | JStr s =>
      if bool_decide (part = "length") then Some (JNum (String.length s))
      else match index_of part with
           | Some i =>
               match String.get i s with
               | Some c => Some (JStr (String c EmptyString))
               | None => None
               end
           | None => None
           end
  | JNum _ | JFalse => None
  end.

(** [path.split('.')]. *)
Fixpoint split_dots (path : string) : list string :=
  match path with
  | EmptyString => [EmptyString]
  | String c rest =>
      if bool_decide (c = "."%char) then EmptyString :: split_dots rest
      else match split_dots rest with
           | part :: parts => String c part :: parts
           | [] => [String c EmptyString]
           end
  end.

(** The reducer of [extractValue]:
    [exists && exists.hasOwnProperty(part) ? exists[part] : false]. *)
Definition extract_step (found : jsval) (part : string) : jsval :=
  if js_truthy found
  then match js_own found part with
       | Some x => x
       | None => JFalse
       end
  else JFalse.

(** [extractValue(path, obj)]: walk the parts of the path through own
    properties; a part that is missing, or that is asked of a falsy
    value, gives [false] from there on. *)
Definition extractValue (path : string) (obj : jsval) : jsval :=
  fold_left extract_step (split_dots path) obj.

(** The object a [Resource] stands for, as far as [extractValue] looks:
    [{id, relationships: {<name>: {links: {related: <url>}}, ...}}].  A
    relationship named [hasOwnProperty] would shadow the method that
    [extractValue] calls on the [relationships] object; the record holds
    no such relationship, and an entry under that name is not part of
    the resource. *)
Definition relationship_object (url : string) : jsval :=
  JObj {[ "links" := JObj {[ "related" := JStr url ]} ]}.

Definition resource_object (resource : Resource) : jsval :=
  JObj (<[ "id" := JStr (res_id resource) ]>
        {[ "relationships" :=
             JObj (relationship_object
                     <$> delete "hasOwnProperty" (res_related resource)) ]}).

(** One entry of the [mirror] handed to the visitor: the nested sequence
    built by [paginate(link, limit, relationships)], named by the arguments
    of that call, or the rejected placeholder. *)
Inductive mirror_entry :=
| MSeq (mlink : string) (mlimit : Z) (mrels : option relspec)
| MRejected.

Abbreviation mirror := (list (string * mirror_entry)).

Definition mirror_of (relationships : relspec) (resource : Resource) : mirror :=
  map (fun pc =>
         let target := snd pc in
         let link :=
           extractValue ("relationships." +:+ field_text target +:+ ".links.related")
             (resource_object resource) in
         (fst pc,
          if js_truthy link
          then MSeq (js_text link) (target_limit target) (target_relationships target)
          else MRejected)) relationships.

(** ** Documents *)

(** [documentData]: the [data] member when the document owns one,
    otherwise an exception. *)
Definition documentData (doc : Doc) : jserror + DocData :=
  match doc_data doc with
  | Some d => inr d
  | None =>
      match doc_errors doc with
      | Some _ => inl (DocError "[object Object]")
      | None => inl (DocError
          "The server returned an unprocessable document with no data or errors.")
      end
  end.

(** [fetchDocument] once the transport has answered: the non-ok branch
    calls an undefined [reject], which throws inside the [then]. *)
Definition fetchDocument (r : response) : settled Doc :=
  match r with
  | RespOk d => Fulfilled d
  | RespNotOk _ => Rejected (ReferenceError "reject is not defined")
  | RespNetErr reason => Rejected (Rejection reason)
  end.

(** [Array.isArray(data) ? data : [data]]. *)
Definition resources_of (data : DocData) : list jsres :=
  match data with
  | DataMany rs => rs
  | DataOne r => [r]
  end.

(** ** The pagination engine *)

(** State of a promise returned by [doRequest]. *)
Inductive reqstate :=
| Pending
| Done
| Failed (e : jserror).

(** The closure of one [paginate] call, with the promises it created and
    the fetches the transport still owes it.  [finished] records that the
    generator has run off its loop; [issued] lists every URL handed to
    [fetchDocument], oldest first. *)
Record Engine := {
  buffer : list jsres;
  total : Z;
  inFlight : gset string;
  link : option string;
  limit : Z;
  count : Z;
  collectionRequests : list nat;
  finished : bool;
  promises : list reqstate;
  outstanding : list (nat * string);
  issued : list string
}.

Definition set_buffer (b : list jsres) (e : Engine) : Engine :=
  {| buffer := b; total := total e; inFlight := inFlight e; link := link e;
     limit := limit e; count := count e;
     collectionRequests := collectionRequests e; finished := finished e;
     promises := promises e; outstanding := outstanding e; issued := issued e |}.

Definition set_total (t : Z) (e : Engine) : Engine :=
  {| buffer := buffer e; total := t; inFlight := inFlight e; link := link e;
     limit := limit e; count := count e;
     collectionRequests := collectionRequests e; finished := finished e;
     promises := promises e; outstanding := outstanding e; issued := issued e |}.

Definition set_inFlight (s : gset string) (e : Engine) : Engine :=
  {| buffer := buffer e; total := total e; inFlight := s; link := link e;
     limit := limit e; count := count e;
     collectionRequests := collectionRequests e; finished := finished e;
     promises := promises e; outstanding := outstanding e; issued := issued e |}.

Definition set_link (l : option string) (e : Engine) : Engine :=
  {| buffer := buffer e; total := total e; inFlight := inFlight e; link := l;
     limit := limit e; count := count e;
     collectionRequests := collectionRequests e; finished := finished e;
     promises := promises e; outstanding := outstanding e; issued := issued e |}.

Definition set_limit (l : Z) (e : Engine) : Engine :=
  {| buffer := buffer e; total := total e; inFlight := inFlight e; link := link e;
     limit := l; count := count e;
     collectionRequests := collectionRequests e; finished := finished e;
     promises := promises e; outstanding := outstanding e; issued := issued e |}.

Definition set_count (c : Z) (e : Engine) : Engine :=
  {| buffer := buffer e; total := total e; inFlight := inFlight e; link := link e;
     limit := limit e; count := c;
     collectionRequests := collectionRequests e; finished := finished e;
     promises := promises e; outstanding := outstanding e; issued := issued e |}.

Definition set_collectionRequests (q : list nat) (e : Engine) : Engine :=
  {| buffer := buffer e; total := total e; inFlight := inFlight e; link := link e;
     limit := limit e; count := count e;
     collectionRequests := q; finished := finished e;
     promises := promises e; outstanding := outstanding e; issued := issued e |}.

Definition set_finished (f : bool) (e : Engine) : Engine :=
  {| buffer := buffer e; total := total e; inFlight := inFlight e; link := link e;
     limit := limit e; count := count e;
     collectionRequests := collectionRequests e; finished := f;
     promises := promises e; outstanding := outstanding e; issued := issued e |}.

Definition set_promises (p : list reqstate) (e : Engine) : Engine :=
  {| buffer := buffer e; total := total e; inFlight := inFlight e; link := link e;
     limit := limit e; count := count e;
     collectionRequests := collectionRequests e; finished := finished e;
     promises := p; outstanding := outstanding e; issued := issued e |}.

Definition set_outstanding (o : list (nat * string)) (e : Engine) : Engine :=
  {| buffer := buffer e; total := total e; inFlight := inFlight e; link := link e;
     limit := limit e; count := count e;
     collectionRequests := collectionRequests e; finished := finished e;
     promises := promises e; outstanding := o; issued := issued e |}.

Definition set_issued (i : list string) (e : Engine) : Engine :=
  {| buffer := buffer e; total := total e; inFlight := inFlight e; link := link e;
     limit := limit e; count := count e;
     collectionRequests := collectionRequests e; finished := finished e;
     promises := promises e; outstanding := outstanding e; issued := i |}.

(** [limit === -1 || x < limit]. *)
Definition under_limit (x : Z) (e : Engine) : bool :=
  (limit e =? -1)%Z || (x <? limit e)%Z.

(** [link && !inFlight.has(link) && (limit === -1 || total < limit)]. *)
Definition may_request (e : Engine) : bool :=
  match link e with
  | Some l => truthy l && negb (bool_decide (l ∈ inFlight e)) && under_limit (total e) e
  | None => false
  end.

(** [doRequest], up to the call of [fetchDocument]: the URL is marked in
    flight, the transport is asked, and a pending promise is returned. *)
Definition doRequest (nextLink : string) (e : Engine) : Engine * nat :=
  let rid := length (promises e) in
  (set_issued (issued e ++ [nextLink])
     (set_outstanding (outstanding e ++ [(rid, nextLink)])
        (set_promises (promises e ++ [Pending])
           (set_inFlight ({[nextLink]} ∪ inFlight e) e))),
   rid).

(** The [then] callback of [doRequest], run when the transport answers. *)
Definition doRequest_then (rid : nat) (nextLink : string) (r : response)
    (e : Engine) : Engine :=
  match fetchDocument r with
  | Rejected err => set_promises (<[rid := Failed err]> (promises e)) e
  | Fulfilled doc =>
      let e1 := set_inFlight (inFlight e ∖ {[nextLink]}) e in
      match doc_links doc with
      | None =>
          set_promises
            (<[rid := Failed (TypeError "Cannot read property 'next' of undefined")]>
               (promises e1)) e1
      | Some next =>
          let e2 := set_link (or_false next) e1 in
          match documentData doc with
          | inl err => set_promises (<[rid := Failed err]> (promises e2)) e2
          | inr data =>
              let resources := resources_of data in
              set_promises (<[rid := Done]> (promises e2))
                (set_buffer (buffer e2 ++ resources)
                   (set_total (total e2 + Z.of_nat (length resources))%Z e2))
          end
      end
  end.

(** What [advance] returns: a promise that waits for a collection request,
    or one that is already resolved with the buffer. *)
Inductive advanced :=
| AwaitRequest (rid : nat)
| Immediate.

Definition advance (e : Engine) : Engine * advanced :=
  let e1 :=
    match link e with
    | Some l =>
        if may_request e
        then let '(e', rid) := doRequest l e in
             set_collectionRequests (collectionRequests e' ++ [rid]) e'
        else e
    | None => e
    end in
  match buffer e1, collectionRequests e1 with
  | [], rid :: rest => (set_collectionRequests rest e1, AwaitRequest rid)
  | _, _ => (e1, Immediate)
  end.

(** [buffer.length || inFlight.size || link]. *)
Definition canContinue (e : Engine) : bool :=
  negb (bool_decide (buffer e = [])) || negb (bool_decide (size (inFlight e) = 0))
  || link_truthy (link e).

(** What [cursor.next().value] is. *)
Inductive yielded :=
| YPromise (a : advanced)
| YFalse
| YUndefined.

(** One [cursor.next()]. *)
Definition cursor_next (e : Engine) : Engine * yielded :=
  if finished e then (e, YUndefined)
  else if canContinue e then
    if under_limit (count e) e
    then let '(e', a) := advance e in (e', YPromise a)
    else (e, YFalse)
  else (set_finished true e, YUndefined).

(** The [then] callback of the yielded promise:
    [count++; resource = buffer.shift(); return resource || null]. *)
Definition cursor_then (e : Engine) : Engine * jsres :=
  let e1 := set_count (count e + 1)%Z e in
  match buffer e1 with
  | [] => (e1, None)
  | r :: rest => (set_buffer rest e1, r)
  end.

(** [cursor.addMore]. *)
Definition addMore (many : Z) (e : Engine) : Engine :=
  if (many =? -1)%Z then set_limit (-1)%Z e
  else set_limit (limit e + many)%Z e.

(** The transport answers the fetch behind promise [rid]. *)
Definition arrive (rid : nat) (r : response) (e : Engine) : Engine :=
  match list_find (fun p => bool_decide (fst p = rid)) (outstanding e) with
  | Some (i, (_, url)) =>
      doRequest_then rid url r (set_outstanding (delete i (outstanding e)) e)
  | None => e
  end.

(** [paginate], up to the call of [toConsumer]. *)
Definition paginate (link0 : string) (limit0 : Z) : Engine :=
  let e := {| buffer := []; total := 0%Z; inFlight := ∅; link := Some link0;
              limit := limit0; count := 0%Z; collectionRequests := [];
              finished := false; promises := []; outstanding := [];
              issued := [] |} in
  if may_request e
  then let '(e', rid) := doRequest link0 e in
       set_collectionRequests (collectionRequests e' ++ [rid]) e'
  else e.

(** ** The consumption driver *)

(** What the caller's visitor does when it is called: it returns a value
    that is not a promise, returns a promise (which later fulfils or
    rejects), or throws. *)
Inductive vret :=
| VReturn
| VPromise (ok : bool)
| VThrow.

Definition visitor := Resource -> option mirror -> vret.

(** What an observer of the visitor sees. *)
Inductive vevent :=
| EvQueued (r : Resource)
| EvStart (r : Resource) (m : option mirror)
| EvEnd (r : Resource).

(** What [consume] resolves to: [cursor.addMore] or [false]. *)
Inductive cont :=
| AddMore
| NoMore.

(** Where one [consume] call stands. *)
Inductive dphase :=
| DWaiting (rid : nat)
| DDraining (next : cont)
| DResolved (next : cont)
| DRejected (e : jserror)
| DHung
| DSpinning.

(** The locals of one [consume] call.  [queue] holds the thunks of the
    ordered mode ([preserveOrder]); in the other mode the queue only
    collects return values that nothing reads, and is left out.
    [running] lists the promises returned by the visitor that have not
    settled yet: the resource, whether the promise will fulfil, and,
    when the drain loop is suspended at its [await] on that promise, the
    [next] the loop will resolve with.  [rejection] is the first error
    [reject] was called with, and [phase] the state of the promise that
    [consume] returned. *)
Record Driver := {
  preserveOrder : bool;
  queue : list (Resource * option mirror);
  running : list (Resource * bool * option cont);
  rejection : option jserror;
  vlog : list vevent;
  phase : dphase
}.

Definition set_queue (q : list (Resource * option mirror)) (d : Driver) : Driver :=
  {| preserveOrder := preserveOrder d; queue := q; running := running d;
     rejection := rejection d; vlog := vlog d; phase := phase d |}.

Definition set_running (r : list (Resource * bool * option cont)) (d : Driver)
  : Driver :=
  {| preserveOrder := preserveOrder d; queue := queue d; running := r;
     rejection := rejection d; vlog := vlog d; phase := phase d |}.

Definition set_rejection (x : option jserror) (d : Driver) : Driver :=
  {| preserveOrder := preserveOrder d; queue := queue d; running := running d;
     rejection := x; vlog := vlog d; phase := phase d |}.

Definition set_phase (p : dphase) (d : Driver) : Driver :=
  {| preserveOrder := preserveOrder d; queue := queue d; running := running d;
     rejection := rejection d; vlog := vlog d; phase := p |}.

Definition log (ev : vevent) (d : Driver) : Driver :=
  {| preserveOrder := preserveOrder d; queue := queue d; running := running d;
     rejection := rejection d; vlog := vlog d ++ [ev]; phase := phase d |}.

(** [reject(err)]: only the first call counts. *)
Definition reject (err : jserror) (d : Driver) : Driver :=
  match rejection d with
  | Some _ => d
  | None => set_rejection (Some err) d
  end.

Definition visitor_error : jserror := Rejection "visitor".

(** [queuedConsumer]: push a thunk, or call the visitor at once.  The
    second component is the exception that escapes, if any. *)
Definition queuedConsumer (v : visitor) (resource : Resource)
    (relationships : option mirror) (d : Driver) : Driver * option jserror :=
  if preserveOrder d
  then (log (EvQueued resource) (set_queue (queue d ++ [(resource, relationships)]) d),
        None)
  else
    let d1 := log (EvStart resource relationships) d in
    match v resource relationships with
    | VReturn => (log (EvEnd resource) d1, None)
    | VPromise ok => (set_running (running d1 ++ [(resource, ok, None)]) d1, None)
    | VThrow => (log (EvEnd resource) d1, Some visitor_error)
    end.

(** [decorateWithRelationships]: the consumer itself when there are no
    relationships, otherwise a wrapper that builds the [mirror]. *)
Definition decorateWithRelationships
    (consumer : Resource -> option mirror -> Driver -> Driver * option jserror)
    (relationships : option relspec)
  : Resource -> Driver -> Driver * option jserror :=
  match relationships with
  | None => fun resource => consumer resource None
  | Some rels => fun resource => consumer resource (Some (mirror_of rels resource))
  end.

(** [filteringConsumer]: [null] never reaches the visitor. *)
Definition filteringConsumer (v : visitor) (relationships : option relspec)
    (resource : jsres) (d : Driver) : Driver * option jserror :=
  match resource with
  | Some r => decorateWithRelationships (queuedConsumer v) relationships r d
  | None => (d, None)
  end.

(** The [async] executor that runs the queued thunks: each one is called,
    and a returned promise is awaited before the loop goes on.  A thunk
    that throws ends the executor without settling its promise, and the
    [resolve(next)] after the loop has no effect once [reject] has been
    called: wherever the executor stops, a promise that was rejected
    before stays rejected. *)
Fixpoint drain (v : visitor) (next : cont) (q : list (Resource * option mirror))
    (d : Driver) : Driver :=
  match q with
  | [] =>
      set_phase (match rejection d with
                 | Some err => DRejected err
                 | None => DResolved next
                 end) (set_queue [] d)
  | (r, m) :: rest =>
      let d1 := log (EvStart r m) (set_queue rest d) in
      match v r m with
      | VReturn => drain v next rest (log (EvEnd r) d1)
      | VPromise ok =>
          set_phase (match rejection d with
                     | Some err => DRejected err
                     | None => DDraining next
                     end) (set_running [(r, ok, Some next)] d1)
      | VThrow =>
          set_phase (match rejection d with
                     | Some err => DRejected err
                     | None => DHung
                     end) (log (EvEnd r) d1)
      end
  end.

(** The end of the pull phase: [resolve(cursor.canContinue() ? cursor.addMore
    : false)], followed by the [then] that drains the queue. *)
Definition finish (v : visitor) (e : Engine) (d : Driver) : Driver :=
  let next := if canContinue e then AddMore else NoMore in
  if preserveOrder d then drain v next (queue d) d
  else set_phase (DResolved next) d.

(** The function [f] of [consume], from one [cursor.next()] until the
    call suspends or ends.  [fuel] bounds the number of pulls. *)
Fixpoint pull (fuel : nat) (v : visitor) (relationships : option relspec)
    (e : Engine) (d : Driver) : Engine * Driver :=
  match fuel with
  | O => (e, set_phase DSpinning d)
  | S k =>
      let '(e1, y) := cursor_next e in
      let resume :=
        let '(e2, r) := cursor_then e1 in
        match filteringConsumer v relationships r d with
        | (d', Some err) => (e2, set_phase (DRejected err) (reject err d'))
        | (d', None) => pull k v relationships e2 d'
        end in
      match y with
      | YPromise Immediate => resume
      | YPromise (AwaitRequest rid) =>
          match promises e1 !! rid with
          | Some Done => resume
          | Some (Failed err) => (e1, set_phase (DRejected err) (reject err d))
          | _ => (e1, set_phase (DWaiting rid) d)
          end
      | YFalse | YUndefined => (e1, finish v e1 d)
      end
  end.

(** [consume(consumer, preserveOrder)] on the object [toConsumer] returns. *)
Definition consume (fuel : nat) (v : visitor) (po : bool)
    (relationships : option relspec) (e : Engine) : Engine * Driver :=
  pull fuel v relationships e
    {| preserveOrder := po; queue := []; running := []; rejection := None;
       vlog := []; phase := DSpinning |}.

(** What happens around a running [consume]. *)
Inductive event :=
| Arrives (rid : nat) (r : response)
| Settles (k : nat).

(** One event.  An answer of the transport settles its request and, when
    the driver waits for that request, resumes it; a settling visitor
    promise resumes the drain when the drain awaits it, after
    [ret.catch(reject)] has called [reject] for a rejection: the call is
    rejected at that moment, and the loop goes on. *)
Definition sys_step (fuel : nat) (v : visitor) (relationships : option relspec)
    (ev : event) (s : Engine * Driver) : Engine * Driver :=
  let '(e, d) := s in
  match ev with
  | Arrives rid r =>
      let e1 := arrive rid r e in
      match phase d with
      | DWaiting rid' =>
          if bool_decide (rid' = rid) then
            match promises e1 !! rid with
            | Some Done =>
                let '(e2, x) := cursor_then e1 in
                match filteringConsumer v relationships x d with
                | (d', Some err) => (e2, set_phase (DRejected err) (reject err d'))
                | (d', None) => pull fuel v relationships e2 d'
                end
            | Some (Failed err) => (e1, set_phase (DRejected err) (reject err d))
            | _ => (e1, d)
            end
          else (e1, d)
      | _ => (e1, d)
      end
  | Settles k =>
      match (running d !! k : option (Resource * bool * option cont)) with
      | Some (r, ok, awaited) =>
          let d1 := log (EvEnd r) (set_running (delete k (running d)) d) in
          match awaited with
          | Some next =>
              let d2 := if ok then d1 else reject visitor_error d1 in
              (e, drain v next (queue d2) d2)
          | None => (e, d1)
          end
      | None => (e, d)
      end
  end.

Definition sys_run (fuel : nat) (v : visitor) (relationships : option relspec)
    (evs : list event) (s : Engine * Driver) : Engine * Driver :=
  fold_left (fun s ev => sys_step fuel v relationships ev s) evs s.

(** ** The client *)

Record Client := {
  baseUrl : string;
  links : settled (gmap string string)
}.

(** How a template literal prints a string or [undefined]. *)
Definition text_of (x : option string) : string :=
  match x with Some s => s | None => "undefined" end.

(** What [links[type]] can be: an entry of the table, or a member that
    every object inherits from [Object.prototype], which is a function
    or, under [__proto__], the prototype itself. *)
Inductive linkval :=
| LOwn (url : string)
| LFunction (name : string)
| LPrototype.
Coercion LOwn : string >-> linkval.
#[local] Arguments Some {A} & a.

(** The functions of [Object.prototype], by property name. *)
Definition prototype_functions : list string :=
  ["constructor"; "hasOwnProperty"; "isPrototypeOf"; "propertyIsEnumerable";
   "toLocaleString"; "toString"; "valueOf"; "__defineGetter__";
   "__defineSetter__"; "__lookupGetter__"; "__lookupSetter__"].

Definition inherited (name : string) : option linkval :=
  if bool_decide (name ∈ prototype_functions) then Some (LFunction name)
  else if bool_decide (name = "__proto__") then Some LPrototype
  else None.

(** [links[type]]: own entries first, then the prototype; [None] is
    [undefined]. *)
Definition read_link (ls : gmap string string) (type : string) : option linkval :=
  match ls !! type with
  | Some url => Some (LOwn url)
  | None => inherited type
  end.

(** How a template literal prints [links[type]]; a built-in function
    prints as its source text. *)
Definition link_text (x : option linkval) : string :=
  match x with
  | None => "undefined"
  | Some (LOwn url) => url
  | Some (LFunction name) =>
      "function "
      +:+ (if bool_decide (name = "constructor") then "Object" else name)
      +:+ "() { [native code] }"
  | Some LPrototype => "[object Object]"
  end.

(** [getLink]: the promise it returns, and the reasons of the rejected
    promises it creates and drops.  The callback calls
    [links.hasOwnProperty], which is the inherited method unless the
    table has an entry of that name; calling the entry throws. *)
Definition getLink (c : Client) (type : string)
  : settled (option linkval) * list string :=
  match links c with
  | Rejected err => (Rejected err, [])
  | Fulfilled ls =>
      match ls !! "hasOwnProperty" with
      | Some _ => (Rejected (TypeError "links.hasOwnProperty is not a function"), [])
      | None =>
          (Fulfilled (read_link ls type),
           match ls !! type with
           | Some _ => []
           | None =>
               ["'" +:+ type +:+ "' is not a valid type for " +:+ baseUrl c +:+ "."]
           end)
      end
  end.

(** [collectionLink]. *)
Definition collectionLink (c : Client) (type sort filter page : string)
  : settled string * list string :=
  let query := if truthy filter then "?" +:+ filter else "" in
  let query := query +:+
    (if truthy sort
     then (if truthy query then "&" else "?") +:+ "sort=" +:+ sort else "") in
  let query := query +:+
    (if truthy page
     then (if truthy query then "&" else "?") +:+ page else "") in
  match getLink c type with
  | (Fulfilled l, dropped) => (Fulfilled (link_text l +:+ query), dropped)
  | (Rejected err, dropped) => (Rejected err, dropped)
  end.

(** [all]: the engine and the relationships of the consumer it resolves
    to, with the dropped rejections. *)
Definition all (c : Client) (type : string) (limit0 : Z) (sort filter : string)
    (relationships : option relspec)
  : settled (Engine * option relspec) * list string :=
  match collectionLink c type sort filter "page[limit]=50" with
  | (Fulfilled l, dropped) =>
      match expandRelationships relationships with
      | inl err => (Rejected err, dropped)
      | inr expanded => (Fulfilled (paginate l limit0, Some expanded), dropped)
      end
  | (Rejected err, dropped) => (Rejected err, dropped)
  end.

(** ** Executions *)

(** What can happen to an engine, one primitive at a time: a
    [cursor.next()], the callback of a yielded promise, a call of
    [addMore], an answer of the transport. *)
Inductive op :=
| OpNext
| OpThen
| OpAddMore (many : Z)
| OpArrive (rid : nat) (r : response).

Definition op_step (e : Engine) (o : op) : Engine :=
  match o with
  | OpNext => fst (cursor_next e)
  | OpThen => fst (cursor_then e)
  | OpAddMore many => addMore many e
  | OpArrive rid r => arrive rid r e
  end.

Definition op_run (ops : list op) (e : Engine) : Engine :=
  fold_left op_step ops e.

Definition is_next (o : op) : bool :=
  match o with OpNext => true | _ => false end.

(** A server: the documents it holds, by URL. *)
Definition serve (docs : gmap string Doc) (url : string) : response :=
  match docs !! url with
  | Some d => RespOk d
  | None => RespNotOk "Not Found"
  end.

(** The URL behind an outstanding request. *)
Definition url_of (rid : nat) (e : Engine) : option string :=
  match list_find (fun p => bool_decide (fst p = rid)) (outstanding e) with
  | Some (_, (_, url)) => Some url
  | None => None
  end.

(** The drain loop is suspended at its [await]. *)
Definition drain_awaits (d : Driver) : bool :=
  match running d with
  | (_, _, Some _) :: _ => true
  | _ => false
  end.

(** The schedule of a transport that answers a request when the driver
    waits for it, and of visitor promises that settle when awaited. *)
Fixpoint run_lazy (steps fuel : nat) (v : visitor) (relationships : option relspec)
    (docs : gmap string Doc) (s : Engine * Driver) : Engine * Driver :=
  match steps with
  | O => s
  | S k =>
      match phase (snd s) with
      | DWaiting rid =>
          match url_of rid (fst s) with
          | Some url =>
              run_lazy k fuel v relationships docs
                (sys_step fuel v relationships (Arrives rid (serve docs url)) s)
          | None => s
          end
      | DDraining _ =>
          run_lazy k fuel v relationships docs
            (sys_step fuel v relationships (Settles 0) s)
      | DRejected _ =>
          if drain_awaits (snd s)
          then run_lazy k fuel v relationships docs
                 (sys_step fuel v relationships (Settles 0) s)
          else s
      | _ => s
      end
  end.

(** [chain docs url pages]: following [next] from [url] visits exactly the
    documents whose resources are [pages], and then stops. *)
Inductive chain (docs : gmap string Doc) : string -> list (list jsres) -> Prop :=
| chain_last url doc data nxt :
    truthy url = true ->
    docs !! url = Some doc ->
    doc_data doc = Some data ->
    doc_links doc = Some nxt ->
    or_false nxt = None ->
    chain docs url [resources_of data]
| chain_next url doc data url' rest :
    truthy url = true ->
    docs !! url = Some doc ->
    doc_data doc = Some data ->
    doc_links doc = Some (Some url') ->
    truthy url' = true ->
    chain docs url' rest ->
    chain docs url (resources_of data :: rest).

(** The resources the visitor was called with, in call order. *)
Fixpoint visited (l : list vevent) : list Resource :=
  match l with
  | [] => []
  | EvStart r _ :: rest => r :: visited rest
  | _ :: rest => visited rest
  end.

(** The resources of a page chain, in page order. *)
Definition available (pages : list (list jsres)) : list jsres := concat pages.

Definition totalAvailable (pages : list (list jsres)) : Z :=
  Z.of_nat (length (available pages)).

(** The elements of a list of [jsres] that are resources. *)
Definition resources (l : list jsres) : list Resource := omap id l.

(** ** Read-ahead *)

(** Resources shifted out of the buffer so far. *)
Definition delivered (e : Engine) : Z :=
  (total e - Z.of_nat (length (buffer e)))%Z.

(** The page (counted from 1) that holds resource number [k] (counted
    from 0) of a chain with the given page sizes. *)
Fixpoint page_of (sizes : list nat) (k : nat) : nat :=
  match sizes with
  | [] => 1
  | s :: rest => if (k <? s)%nat then 1 else S (page_of rest (k - s))
  end.

(** Pages handed to the transport beyond the page being drained. *)
Definition read_ahead (sizes : list nat) (e : Engine) : nat :=
  length (issued e) - page_of sizes (Z.to_nat (delivered e)).

(** A visitor that returns at once. *)
Definition plain_visitor : visitor := fun _ _ => VReturn.

(** A visitor that returns a promise, which later fulfils. *)
Definition promise_visitor : visitor := fun _ _ => VPromise true.

(** ** The log of an ordered [consume] *)

(** One complete invocation of the visitor. *)
Definition invocation (x : Resource * option mirror) : list vevent :=
  [EvStart (fst x) (snd x); EvEnd (fst x)].

(** The log that queues [arrived], then runs [ran] to completion one
    after the other, then has started [cur]. *)
Definition ordered_log (arrived ran cur : list (Resource * option mirror))
  : list vevent :=
  map (fun x => EvQueued (fst x)) arrived
  ++ flat_map invocation ran
  ++ map (fun x => EvStart (fst x) (snd x)) cur.
Arguments ordered_log : simpl never.

(** ** Invariants *)

(** Either nothing is in flight, or the only URL in flight is the current
    link and the transport owes at most the one fetch of that URL. *)
Definition single_flight (e : Engine) : Prop :=
  (inFlight e = ∅ /\ outstanding e = [])
  \/ (exists u, link e = Some u /\ inFlight e = {[u]}
                /\ (outstanding e = [] \/ exists rid, outstanding e = [(rid, u)])).

(** An engine that waits on nothing and still holds its own link in
    flight: every pull resolves at once with an empty buffer. *)
Definition stuck (e : Engine) : Prop :=
  buffer e = [] /\ collectionRequests e = [] /\ finished e = false
  /\ limit e = (-1)%Z
  /\ exists u, link e = Some u /\ u ∈ inFlight e.

(** The thunk [queuedConsumer] pushes for a resource: the arguments
    [decorateWithRelationships] passes on. *)
Definition decorated (relationships : option relspec) (r : Resource)
  : Resource * option mirror :=
  (r, match relationships with
      | Some rels => Some (mirror_of rels r)
      | None => None
      end).

(** While an ordered [consume] pulls: every element that arrived is in
    the queue, and the visitor has not been called. *)
Definition pulling (relationships : option relspec) (d : Driver) : Prop :=
  preserveOrder d = true
  /\ running d = []
  /\ vlog d = ordered_log (queue d) [] []
  /\ Forall (fun x => x = decorated relationships (fst x)) (queue d)
  /\ match phase d with
     | DWaiting _ | DSpinning | DRejected _ => True
     | _ => False
     end.

(** Once the pull phase is over: the thunks [ran] have run to completion,
    and either the loop has stopped, or it awaits the promise of the one
    thunk [cur]. *)
Definition draining (relationships : option relspec) (d : Driver) : Prop :=
  exists ran cur,
    vlog d = ordered_log (ran ++ cur ++ queue d) ran cur
    /\ Forall (fun x => x = decorated relationships (fst x)) (ran ++ cur ++ queue d)
    /\ ((cur = [] /\ running d = []
         /\ match phase d with
            | DResolved _ => queue d = []
            | DRejected _ | DHung => True
            | _ => False
            end)
        \/ (exists r m ok next,
              cur = [(r, m)] /\ running d = [(r, ok, Some next)]
              /\ match phase d with
                 | DDraining _ | DRejected _ => True
                 | _ => False
                 end)).

(** What the cursor hands over for one page when each page arrives
    while the driver waits for it: the elements of the page, or, for an
    empty page, the one [null] that the waiting pull resolves to. *)
Definition page_pulls (p : list jsres) : list jsres :=
  match p with
  | [] => [None]
  | _ => p
  end.

(** What the cursor hands over, in all, for a chain of pages and a cap. *)
Definition pulled (n : Z) (pages : list (list jsres)) : list jsres :=
  if (n =? -1)%Z then flat_map page_pulls pages
  else firstn (Z.to_nat n) (flat_map page_pulls pages).

(** [limit === -1 || c < limit] for the cap [n]. *)
Definition room (n c : Z) : bool := (n =? -1)%Z || (c <? n)%Z.

(** What the cursor still hands over when [c] pulls are counted, [b] is
    buffered and the pages [rest] are to come. *)
Definition owed_pulls (n c : Z) (b : list jsres) (rest : list (list jsres))
  : list jsres :=
  if (n =? -1)%Z then b ++ flat_map page_pulls rest
  else firstn (Z.to_nat (n - c)) (b ++ flat_map page_pulls rest).

(** The engine between two pulls of a lazily served [consume] with cap
    [n], for pages of any content, while the pages [rest] of the chain
    have not arrived. *)
Definition lazy_any (docs : gmap string Doc) (n : Z) (rest : list (list jsres))
    (e : Engine) : Prop :=
  limit e = n /\ finished e = false
  /\ (total e <= count e + Z.of_nat (length (buffer e)))%Z
  /\ ((inFlight e = ∅ /\ collectionRequests e = [] /\ outstanding e = []
       /\ ((link e = None /\ rest = [])
           \/ exists u, link e = Some u /\ chain docs u rest))
      \/ (exists u rid,
            link e = Some u /\ chain docs u rest /\ inFlight e = {[u]}
            /\ collectionRequests e = [rid] /\ outstanding e = [(rid, u)]
            /\ promises e !! rid = Some Pending)).

(** The engine while the driver waits for the first page of [rest]. *)
Definition waiting_any (docs : gmap string Doc) (n : Z) (rest : list (list jsres))
    (e : Engine) (rid : nat) (u : string) : Prop :=
  limit e = n /\ finished e = false /\ buffer e = []
  /\ (total e <= count e)%Z /\ room n (count e) = true
  /\ link e = Some u /\ chain docs u rest /\ inFlight e = {[u]}
  /\ collectionRequests e = [] /\ outstanding e = [(rid, u)]
  /\ promises e !! rid = Some Pending.

(** An ordered driver [d'] that has queued the resources among [l] since
    it was [d], and has done nothing else. *)
Definition queued (relationships : option relspec) (l : list jsres)
    (d d' : Driver) : Prop :=
  preserveOrder d' = true /\ running d' = running d
  /\ rejection d' = rejection d
  /\ queue d' = queue d ++ map (decorated relationships) (resources l)
  /\ vlog d' = vlog d ++ map EvQueued (resources l).

Definition throws (v : visitor) (x : Resource * option mirror) : bool :=
  match v (fst x) (snd x) with VThrow => true | _ => false end.

(** The thunks of a queue that the drain runs: all of them, up to and
    including the first one that throws. *)
Fixpoint thunks_run (v : visitor) (q : list (Resource * option mirror))
  : list (Resource * option mirror) :=
  match q with
  | [] => []
  | x :: rest => if throws v x then [x] else x :: thunks_run v rest
  end.

(** A page that holds at least one resource and no [null]. *)
Definition full_page (p : list jsres) : Prop := p <> [] /\ Forall is_Some p.

(** The engine between two pulls of a lazily served [consume] with cap
    [n], while the pages [rest] of the chain have not arrived: the
    counters agree with the buffer, and either nothing is in flight and
    the link heads [rest], or the first page of [rest] is in flight and
    its request is the only one queued. *)
Definition lazy_inv (docs : gmap string Doc) (n : Z) (rest : list (list jsres))
    (e : Engine) : Prop :=
  limit e = n /\ finished e = false /\ Forall is_Some (buffer e)
  /\ total e = (count e + Z.of_nat (length (buffer e)))%Z
  /\ (count e <= n)%Z
  /\ Forall full_page rest
  /\ ((inFlight e = ∅ /\ collectionRequests e = [] /\ outstanding e = []
       /\ ((link e = None /\ rest = [])
           \/ exists u, link e = Some u /\ chain docs u rest))
      \/ (exists u rid,
            link e = Some u /\ chain docs u rest /\ inFlight e = {[u]}
            /\ collectionRequests e = [rid] /\ outstanding e = [(rid, u)]
            /\ promises e !! rid = Some Pending)).

(** The engine while the driver waits for the first page of [rest]. *)
Definition awaiting (docs : gmap string Doc) (n : Z) (rest : list (list jsres))
    (e : Engine) (rid : nat) (u : string) : Prop :=
  limit e = n /\ finished e = false /\ buffer e = []
  /\ total e = count e /\ (count e < n)%Z
  /\ Forall full_page rest
  /\ link e = Some u /\ chain docs u rest /\ inFlight e = {[u]}
  /\ collectionRequests e = [] /\ outstanding e = [(rid, u)]
  /\ promises e !! rid = Some Pending.

(** What a [consume] with cap [n] still owes when [c] pulls are counted,
    [b] is buffered and the pages [rest] are to come: the resources it
    hands to the visitor, and what it resolves to. *)
Definition owed_visits (n c : Z) (b : list jsres) (rest : list (list jsres))
  : list Resource :=
  resources (firstn (Z.to_nat (n - c)) (b ++ available rest)).

Definition owed_verdict (n c : Z) (b : list jsres) (rest : list (list jsres))
  : cont :=
  if (c + Z.of_nat (length (b ++ available rest)) <=? n)%Z then NoMore else AddMore.

(** The resources a driver has handed to the visitor or queued for it. *)
Definition seen (d : Driver) : list Resource :=
  visited (vlog d) ++ map fst (queue d).

(** A driver in mode [po] that has called [reject] for nothing yet; in the
    unordered mode its queue of thunks stays empty. *)
Definition tidy (po : bool) (d : Driver) : Prop :=
  preserveOrder d = po /\ if po then rejection d = None else queue d = [].

(** ** Sample data *)

Definition res (name : string) : Resource :=
  {| res_id := name; res_related := ∅ |}.

(** A page document: an array of resources and its [next] link. *)
Definition page (rs : list Resource) (nxt : option string) : Doc :=
  {| doc_data := Some (DataMany (map Some rs)); doc_errors := None;
     doc_links := Some nxt |}.

(** A client whose root document lists no type at all. *)
Definition bare_client : Client :=
  {| baseUrl := "https://example.org"; links := Fulfilled ∅ |}.

(** A client that knows one type. *)
Definition article_client : Client :=
  {| baseUrl := "https://example.org";
     links := Fulfilled {[ "node--article" := "https://example.org/jsonapi/node/article" ]} |}.




(** One page of six resources. *)
Definition docs_six : gmap string Doc :=
  {[ "p1" := page [res "a"; res "b"; res "c"; res "d"; res "e"; res "f"] None ]}.

(** Three pages of two resources each. *)
Definition docs_three : gmap string Doc :=
  <[ "p1" := page [res "a"; res "b"] (Some "p2") ]>
  (<[ "p2" := page [res "c"; res "d"] (Some "p3") ]>
  {[ "p3" := page [res "e"; res "f"] None ]}).

(** Two resources on the first page, then an empty last page. *)
Definition docs_trailing_empty : gmap string Doc :=
  <[ "p1" := page [res "a"; res "b"] (Some "p2") ]> {[ "p2" := page [] None ]}.

(** Two empty pages, then pages of three resources. *)
Definition docs_sparse : gmap string Doc :=
  <[ "p1" := page [] (Some "p2") ]>
  (<[ "p2" := page [] (Some "p3") ]>
  (<[ "p3" := page [res "a"; res "b"; res "c"] (Some "p4") ]>
  (<[ "p4" := page [res "d"; res "e"; res "f"] (Some "p5") ]>
  {[ "p5" := page [res "g"; res "h"; res "i"] None ]}))).

(** A capped [consume] on the sparse chain, up to its resolution; then
    the page still in flight arrives, the caller lifts the cap, and the
    next [consume] makes its first [cursor.next()]. *)
Definition sparse_capped : Engine * Driver :=
  run_lazy 8 16 plain_visitor None docs_sparse
    (consume 16 plain_visitor false None (paginate "p1" 4)).

Definition sparse_resumed : Engine :=
  fst (cursor_next
         (addMore (-1) (arrive 3 (serve docs_sparse "p4") (fst sparse_capped)))).

(** ** The rest of the client *)

(** What the transport answers for the root document: a body with or
    without a [links] member, the body [null], or a failure. *)
Inductive root_response :=
| RootOk (root_links : option (gmap string string))
| RootNull
| RootNotOk (statusText : string)
| RootNetErr (reason : string).

(** The URL the constructor fetches. *)
Definition root_url (base : string) : string := base +:+ "/jsonapi".

Definition links_failure : string := "Unable to resolve resource links.".

(** The constructor, once the transport has answered for the root
    document: the client, and the lines handed to [logger.log]. *)
Definition constructor (base : string) (r : root_response) : Client * list string :=
  match r with
  | RootOk ls =>
      ({| baseUrl := base;
          links := Fulfilled (match ls with Some m => m | None => ∅ end) |}, [])
  | RootNull =>
      ({| baseUrl := base;
          links := Rejected (TypeError "Cannot read property 'links' of null") |},
       [links_failure])
  | RootNotOk _ =>
      ({| baseUrl := base;
          links := Rejected (ReferenceError "reject is not defined") |},
       [links_failure])
  | RootNetErr reason =>
      ({| baseUrl := base; links := Rejected (Rejection reason) |},
       [links_failure])
  end.

(** [get]: the promise it returns, the dropped rejections of [getLink],
    and the URLs handed to the transport. *)
Definition get (c : Client) (type id : string) (transport : string -> response)
  : settled DocData * list string * list string :=
  match getLink c type with
  | (Rejected err, dropped) => (Rejected err, dropped, [])
  | (Fulfilled l, dropped) =>
      let url := link_text l +:+ "/" +:+ id in
      match fetchDocument (transport url) with
      | Rejected err => (Rejected err, dropped, [url])
      | Fulfilled doc =>
          match documentData doc with
          | inl err => (Rejected err, dropped, [url])
          | inr data => (Fulfilled data, dropped, [url])
          end
      end
  end.

(** An entry of an [errors] array: [title], [detail], and the [info]
    entry of its [links] member when it has that member. *)
Record ErrorObject := {
  err_title : option string;
  err_detail : option string;
  err_links : option (option string)
}.

(** [errors.forEach(logError)]: the calls of [logger.info] (format and
    argument), and the exception that ends the loop, if any. *)
Fixpoint logErrors (errors : list ErrorObject)
  : list (string * option string) * option jserror :=
  match errors with
  | [] => ([], None)
  | er :: rest =>
      match err_links er with
      | None => ([], Some (TypeError "Cannot read property 'info' of undefined"))
      | Some info =>
          let '(lines, x) := logErrors rest in
          ((text_of (err_title er) +:+ ": " +:+ text_of (err_detail er) +:+ ". %s",
            info) :: lines, x)
      end
  end.

(** The function [debugger()] returns, applied to an object whose
    [errors] member is the given array, or is absent. *)
Definition debugger (errors : option (list ErrorObject))
  : list (string * option string) * option jserror :=
  match errors with
  | Some es => logErrors es
  | None => ([], None)
  end.

(** ** Notions used by the further properties *)

(** A node in the shape [expandRelationships] produces: an object, with
    objects below. *)
Fixpoint is_expanded (node : relnode) : bool :=
  match node with
  | RelName _ => false
  | RelObj _ _ None => true
  | RelObj _ _ (Some rs) => forallb (fun pc => is_expanded (snd pc)) rs
  end.

(** The parts of a query string, joined: ["?"] before the first, ["&"]
    before the others. *)
Definition join_query (parts : list string) : string :=
  match parts with
  | [] => ""
  | p :: ps => "?" +:+ p +:+ fold_right (fun q acc => "&" +:+ q +:+ acc) "" ps
  end.

(** The non-empty parts of a collection query. *)
Definition query_parts (sort filter page : string) : list string :=
  (if truthy filter then [filter] else [])
  ++ (if truthy sort then ["sort=" +:+ sort] else [])
  ++ (if truthy page then [page] else []).

(** The visitor answers this invocation with a promise that rejects. *)
Definition rejects (v : visitor) (x : Resource * option mirror) : bool :=
  match v (fst x) (snd x) with VPromise false => true | _ => false end.

(** No drain loop is suspended on a promise of the visitor. *)
Definition no_await (d : Driver) : Prop :=
  Forall (fun p => snd p = None) (running d).

(** [reject] has been called exactly when the call is rejected, and with
    the error the call is rejected with. *)
Definition coherent (d : Driver) : Prop :=
  match rejection d with
  | Some err => phase d = DRejected err
  | None => forall err, phase d <> DRejected err
  end.

(** A [consume] call that has settled, or never will. *)
Definition settled_phase (p : dphase) : bool :=
  match p with
  | DResolved _ | DRejected _ | DHung => true
  | _ => false
  end.

(** The counters of an engine agree with its buffer and its tables. *)
Definition counted (e : Engine) : Prop :=
  (0 <= count e)%Z
  /\ (Z.of_nat (length (buffer e)) <= total e)%Z
  /\ (delivered e <= count e)%Z
  /\ length (promises e) = length (issued e)
  /\ Forall (fun rid => (rid < length (promises e))%nat) (collectionRequests e)
  /\ Forall (fun p => (fst p < length (promises e))%nat) (outstanding e).

(** A [consume] with cap [n] in progress: the pulls counted stay within
    the cap, a waiting pull has room left, and every element handed or
    queued was counted. *)
Definition capped (n : Z) (s : Engine * Driver) : Prop :=
  limit (fst s) = n
  /\ (count (fst s) <= n)%Z
  /\ (forall rid, phase (snd s) = DWaiting rid -> (count (fst s) < n)%Z)
  /\ (Z.of_nat (length (visited (vlog (snd s))) + length (queue (snd s)))
      <= count (fst s))%Z.

(** A [consume] in the unordered mode: nothing is queued, and the call
    never waits for a visitor. *)
Definition unordered (d : Driver) : Prop :=
  preserveOrder d = false /\ queue d = []
  /\ no_await d
  /\ forall next, phase d <> DDraining next.

(** * Properties *)

(** ** The link table *)

Lemma getLink_missing c ls type :
  links c = Fulfilled ls -> ls !! "hasOwnProperty" = None ->
  ls !! type = None -> inherited type = None ->
  fst (getLink c type) = Fulfilled None.
Proof.
  intros Hl Hh Hn Hi. unfold getLink, read_link. rewrite Hl, Hh, Hn, Hi.
  reflexivity.
Qed.

Lemma paginate_truthy_unlimited l :
  truthy l = true ->
  issued (paginate l (-1)) = [l] /\ outstanding (paginate l (-1)) = [(0, l)].
Proof.
  intros Hl. unfold paginate, may_request. cbn.
  rewrite Hl. rewrite bool_decide_eq_false_2 by set_solver. cbn. done.
Qed.

Lemma all_unknown_type c ls type lim rs :
  links c = Fulfilled ls -> ls !! "hasOwnProperty" = None ->
  ls !! type = None -> inherited type = None ->
  exists e,
    fst (all c type lim "" "" (Some rs)) = Fulfilled (e, Some (objectMapper rs))
    /\ link e = Some "undefined?page[limit]=50".
Proof.
  intros Hl Hh Hn Hi. unfold all, collectionLink, getLink, read_link.
  rewrite Hl, Hh, Hn, Hi. cbn.
  eexists. split; [reflexivity|].
  unfold paginate. destruct (may_request _); reflexivity.
Qed.

(** C1: requesting a type that the link table lacks does not fail.
    [getLink] resolves to [undefined] (its rejected promise is dropped),
    and [all] goes on to build an engine over the URL
    ["undefined?page[limit]=50"], whose first page it fetches at once. *)
Theorem unknown_type_is_fetched :
  getLink bare_client "node--article"
  = (Fulfilled None,
     ["'node--article' is not a valid type for https://example.org."])
  /\ exists e,
      fst (all bare_client "node--article" (-1) "" "" (Some []))
      = Fulfilled (e, Some [])
      /\ issued e = ["undefined?page[limit]=50"]
      /\ outstanding e = [(0, "undefined?page[limit]=50")].
Proof.
  split; [reflexivity|].
  eexists. split; [reflexivity|].
  apply paginate_truthy_unlimited. reflexivity.
Qed.

(** ** Relationship expansion *)

Lemma decorateWithRelationships_null consumer r d :
  decorateWithRelationships consumer None r d = consumer r None d.
Proof. reflexivity. Qed.

Lemma all_null_relationships c type lim sort filter :
  (exists err, fst (all c type lim sort filter None) = Rejected err).
Proof.
  unfold all. destruct (collectionLink c type sort filter _) as [[l|err] dropped].
  - cbn. eauto.
  - cbn. eauto.
Qed.

(** C5: a collection request without a relationship spec does not
    succeed.  [all] passes [null] to [expandRelationships], whose
    [Object.getOwnPropertyNames] throws, so the request is rejected with a
    [TypeError] and no engine is ever built, although the type
    resolves. *)
Theorem all_without_relationships_is_rejected :
  fst (getLink article_client "node--article")
  = Fulfilled (Some "https://example.org/jsonapi/node/article")
  /\ all article_client "node--article" (-1) "" "" None
     = (Rejected (TypeError "Cannot convert undefined or null to object"), []).
Proof. split; reflexivity. Qed.

(** ** Documents *)



Lemma arrive_found rid r e url :
  url_of rid e = Some url ->
  exists i, arrive rid r e
            = doRequest_then rid url r (set_outstanding (delete i (outstanding e)) e).
Proof.
  unfold url_of, arrive.
  destruct (list_find _ (outstanding e)) as [[i [rid' u]]|]; [|discriminate].
  intros [= ->]. eauto.
Qed.




(** ** [addMore] *)

Lemma addMore_finite many e :
  many <> (-1)%Z -> limit (addMore many e) = (limit e + many)%Z.
Proof.
  intros Hm. unfold addMore. destruct (Z.eqb_spec many (-1)); [done|reflexivity].
Qed.

Lemma addMore_unlimited e : limit (addMore (-1) e) = (-1)%Z.
Proof. reflexivity. Qed.

Lemma addMore_only_limit many e :
  buffer (addMore many e) = buffer e
  /\ issued (addMore many e) = issued e
  /\ outstanding (addMore many e) = outstanding e
  /\ inFlight (addMore many e) = inFlight e
  /\ link (addMore many e) = link e
  /\ count (addMore many e) = count e.
Proof. unfold addMore. destruct (many =? -1)%Z; cbn; done. Qed.

(** C3: on an engine whose cap is unlimited, [addMore(5)] does not leave
    the cap unlimited: it adds 5 to the marker [-1] and caps the sequence
    at 4 elements.  Of a page of six resources only four are then
    delivered, and [consume] reports that more could be pulled. *)
Theorem addMore_on_unlimited_sets_a_cap :
  limit (paginate "p1" (-1)) = (-1)%Z
  /\ limit (addMore 5 (paginate "p1" (-1))) = 4%Z
  /\ (let s := run_lazy 4 16 plain_visitor None docs_six
                 (consume 16 plain_visitor false None (paginate "p1" (-1))) in
      map res_id (visited (vlog (snd s))) = ["a"; "b"; "c"; "d"; "e"; "f"]
      /\ phase (snd s) = DResolved NoMore)
  /\ (let s := run_lazy 4 16 plain_visitor None docs_six
                 (consume 16 plain_visitor false None
                    (addMore 5 (paginate "p1" (-1)))) in
      map res_id (visited (vlog (snd s))) = ["a"; "b"; "c"; "d"]
      /\ phase (snd s) = DResolved AddMore).
Proof. vm_compute. repeat split; reflexivity. Qed.

(** ** Fetches are issued by construction and by pulls only *)

Lemma issued_cursor_then e : issued (fst (cursor_then e)) = issued e.
Proof. unfold cursor_then. cbn. destruct (buffer e); reflexivity. Qed.

Lemma issued_doRequest_then rid url r e :
  issued (doRequest_then rid url r e) = issued e.
Proof.
  unfold doRequest_then.
  destruct (fetchDocument r) as [doc|err]; [|reflexivity].
  destruct (doc_links doc); [|reflexivity]. cbn.
  destruct (documentData doc); reflexivity.
Qed.

Lemma issued_arrive rid r e : issued (arrive rid r e) = issued e.
Proof.
  unfold arrive.
  destruct (list_find _ (outstanding e)) as [[i [rid' u]]|]; [|reflexivity].
  rewrite issued_doRequest_then. reflexivity.
Qed.

Lemma issued_without_next ops e :
  forallb (fun o => negb (is_next o)) ops = true ->
  issued (op_run ops e) = issued e.
Proof.
  revert e. induction ops as [|o ops IH]; intros e H; [reflexivity|].
  cbn in H. apply andb_prop in H as [Ho Hops].
  cbn. unfold op_run in IH. rewrite (IH _ Hops).
  destruct o; cbn in *; [discriminate|apply issued_cursor_then| |apply issued_arrive].
  apply addMore_only_limit.
Qed.

Lemma paginate_requests link0 limit0 :
  truthy link0 = true -> (limit0 = -1 \/ 0 < limit0)%Z ->
  paginate link0 limit0
  = {| buffer := []; total := 0%Z; inFlight := {[link0]} ∪ ∅; link := Some link0;
       limit := limit0; count := 0%Z; collectionRequests := [0%nat];
       finished := false; promises := [Pending];
       outstanding := [(0%nat, link0)]; issued := [link0] |}.
Proof.
  intros Hl Hc. unfold paginate, may_request, under_limit. cbn.
  rewrite Hl. rewrite bool_decide_eq_false_2 by set_solver.
  replace ((limit0 =? -1)%Z || (0 <? limit0)%Z) with true; [reflexivity|].
  symmetry. apply orb_true_iff. destruct Hc; [left|right]; lia.
Qed.

(** C10: [paginate] over a non-empty link, with a cap that is unlimited
    or positive, hands that link to the transport during construction,
    before anything has been pulled; and whatever happens afterwards
    short of a pull (answers of the transport, [addMore], callbacks of
    earlier pulls) issues no further fetch. *)
Theorem paginate_fetches_first_page_eagerly link0 limit0 :
  truthy link0 = true -> (limit0 = -1 \/ 0 < limit0)%Z ->
  issued (paginate link0 limit0) = [link0]
  /\ outstanding (paginate link0 limit0) = [(0%nat, link0)]
  /\ count (paginate link0 limit0) = 0%Z
  /\ forall ops,
      forallb (fun o => negb (is_next o)) ops = true ->
      issued (op_run ops (paginate link0 limit0)) = [link0].
Proof.
  intros Hl Hc. rewrite (paginate_requests _ _ Hl Hc). cbn.
  repeat split. intros ops Hops. rewrite (issued_without_next _ _ Hops).
  reflexivity.
Qed.

Lemma paginate_fetches_first_page_eagerly_witness :
  issued (paginate "p1" 4) = ["p1"]
  /\ issued (op_run [OpArrive 0 (serve docs_six "p1"); OpAddMore 2; OpThen]
               (paginate "p1" 4)) = ["p1"].
Proof.
  destruct (paginate_fetches_first_page_eagerly "p1" 4) as (Hi & _ & _ & Hops).
  - reflexivity.
  - right. lia.
  - split; [exact Hi|]. apply Hops. reflexivity.
Defined.

(** ** Failed fetches *)

Lemma doRequest_then_rejected rid url r err e :
  fetchDocument r = Rejected err ->
  inFlight (doRequest_then rid url r e) = inFlight e
  /\ link (doRequest_then rid url r e) = link e.
Proof. intros Hr. unfold doRequest_then. rewrite Hr. done. Qed.

Lemma doRequest_then_fulfilled rid url doc e :
  url ∉ inFlight (doRequest_then rid url (RespOk doc) e).
Proof.
  unfold doRequest_then. cbn.
  destruct (doc_links doc); [|cbn; apply not_elem_of_difference; right; set_solver].
  cbn.
  destruct (documentData doc); cbn; apply not_elem_of_difference; right;
    set_solver.
Qed.

Lemma stuck_pull fuel v rels e d :
  stuck e ->
  issued (fst (pull fuel v rels e d)) = issued e
  /\ phase (snd (pull fuel v rels e d)) = DSpinning.
Proof.
  revert e d. induction fuel as [|k IH]; intros e d Hs; [done|].
  pose proof Hs as (Hb & Hq & Hf & Hl & u & Hu & Hin).
  assert (Hcan : canContinue e = true).
  { unfold canContinue. rewrite Hb. cbn.
    rewrite bool_decide_eq_false_2; [done|].
    intros Hz. apply size_empty_iff in Hz. rewrite Hz in Hin.
    by apply not_elem_of_empty in Hin. }
  assert (Hmay : may_request e = false).
  { unfold may_request. rewrite Hu.
    rewrite (bool_decide_eq_true_2 _ Hin). cbn.
    rewrite andb_false_r. reflexivity. }
  cbn [pull]. unfold cursor_next, under_limit, advance.
  rewrite Hf, Hcan, Hl, Hu, Hmay, Hb, Hq. cbn.
  unfold cursor_then. cbn. rewrite Hb. cbn.
  destruct (IH (set_count (count e + 1) e) d) as [Hi Hp].
  { unfold stuck. cbn. eauto 10. }
  split; [rewrite Hi; reflexivity|exact Hp].
Qed.

(** C2: the URL of a failed fetch stays in the in-flight set.  The pull
    that waits for the fetch fails, but only the fulfilment callback of
    [doRequest] removes the URL, so the guard of [advance] rejects the
    link from then on: a further [consume] on the unlimited engine pulls
    empty results without end and fetches nothing, and on a capped engine
    every [addMore] buys pulls that deliver nothing. *)
Theorem failed_fetch_stays_in_flight :
  let s0 := consume 8 plain_visitor false None (paginate "p1" (-1)) in
  let s1 := sys_step 8 plain_visitor None (Arrives 0 (RespNetErr "down")) s0 in
  phase (snd s0) = DWaiting 0
  /\ phase (snd s1) = DRejected (Rejection "down")
  /\ "p1" ∈ inFlight (fst s1)
  /\ outstanding (fst s1) = []
  /\ (forall fuel,
        let s2 := consume fuel plain_visitor false None (fst s1) in
        issued (fst s2) = ["p1"] /\ phase (snd s2) = DSpinning)
  /\ (let s2 := consume 8 plain_visitor false None (addMore 3 (fst s1)) in
      issued (fst s2) = ["p1"] /\ visited (vlog (snd s2)) = []
      /\ phase (snd s2) = DResolved AddMore).
Proof.
  cbn zeta.
  split; [reflexivity|]. split; [reflexivity|].
  assert (Hin : "p1" ∈ inFlight
            (fst (sys_step 8 plain_visitor None (Arrives 0 (RespNetErr "down"))
                    (consume 8 plain_visitor false None (paginate "p1" (-1)))))).
  { apply (bool_decide_unpack _). vm_compute. exact I. }
  split; [exact Hin|]. split; [reflexivity|]. split.
  - intros fuel. unfold consume.
    match goal with
    | |- context [pull fuel ?v ?r ?e ?d] =>
        destruct (stuck_pull fuel v r e d) as [Hi Hp]
    end.
    + unfold stuck. repeat split; try reflexivity.
      exists "p1". split; [reflexivity|exact Hin].
    + split; [rewrite Hi; reflexivity|exact Hp].
  - vm_compute. repeat split; reflexivity.
Qed.

(** ** One fetch at a time *)

Lemma single_flight_paginate link0 limit0 : single_flight (paginate link0 limit0).
Proof.
  unfold paginate. destruct (may_request _); [|left; done].
  right. exists link0. cbn. split; [done|]. split; [|eauto].
  apply union_empty_r_L.
Qed.

Lemma may_request_not_in_flight e l :
  may_request e = true -> link e = Some l -> l ∉ inFlight e.
Proof.
  unfold may_request. intros Hm Hl. rewrite Hl in Hm.
  apply andb_prop in Hm as [Hm _]. apply andb_prop in Hm as [_ Hm].
  apply negb_true_iff in Hm. by apply bool_decide_eq_false_1 in Hm.
Qed.

Lemma single_flight_may_request e l :
  single_flight e -> may_request e = true -> link e = Some l ->
  inFlight e = ∅ /\ outstanding e = [].
Proof.
  intros [H|(u & Hu & Hin & _)] Hm Hl; [done|].
  apply (may_request_not_in_flight _ _ Hm) in Hl as Hn.
  rewrite Hl in Hu. injection Hu as <-. rewrite Hin in Hn.
  exfalso. apply Hn. by apply elem_of_singleton.
Qed.

Lemma single_flight_ext e e' :
  inFlight e' = inFlight e -> outstanding e' = outstanding e -> link e' = link e ->
  single_flight e -> single_flight e'.
Proof. unfold single_flight. intros -> -> ->. done. Qed.

Lemma single_flight_doRequest e l :
  single_flight e -> may_request e = true -> link e = Some l ->
  single_flight (fst (doRequest l e)).
Proof.
  intros Hs Hm Hl.
  destruct (single_flight_may_request _ _ Hs Hm Hl) as [Hin Ho].
  right. exists l. cbn. rewrite Hin, Ho. split; [done|].
  split; [apply union_empty_r_L|]. right. eauto.
Qed.

Lemma single_flight_advance e : single_flight e -> single_flight (fst (advance e)).
Proof.
  intros Hs. unfold advance.
  destruct (link e) as [l|] eqn:Hl.
  - destruct (may_request e) eqn:Hm.
    + pose proof (single_flight_doRequest e l Hs Hm Hl) as Hs'.
      cbn in Hs'. cbn.
      destruct (buffer e), (collectionRequests e); cbn;
        (eapply single_flight_ext; [| | |exact Hs']; reflexivity).
    + destruct (buffer e), (collectionRequests e); exact Hs.
  - destruct (buffer e), (collectionRequests e); exact Hs.
Qed.

Lemma single_flight_cursor_next e :
  single_flight e -> single_flight (fst (cursor_next e)).
Proof.
  intros Hs. unfold cursor_next.
  destruct (finished e); [exact Hs|].
  destruct (canContinue e); [|exact Hs].
  destruct (under_limit (count e) e); [|exact Hs].
  pose proof (single_flight_advance e Hs) as Ha.
  destruct (advance e). exact Ha.
Qed.

Lemma single_flight_cursor_then e : single_flight e -> single_flight (fst (cursor_then e)).
Proof. intros Hs. unfold cursor_then. cbn. destruct (buffer e); exact Hs. Qed.

Lemma single_flight_addMore many e :
  single_flight e -> single_flight (addMore many e).
Proof. intros Hs. unfold addMore. destruct (many =? -1)%Z; exact Hs. Qed.

Lemma single_flight_doRequest_then rid u r e :
  link e = Some u -> inFlight e = {[u]} -> outstanding e = [] ->
  single_flight (doRequest_then rid u r e).
Proof.
  intros Hl Hin Ho. unfold doRequest_then.
  destruct (fetchDocument r) as [doc|err].
  - left.
    assert (He : inFlight e ∖ {[u]} = ∅) by (rewrite Hin; apply difference_diag_L).
    destruct (doc_links doc); [|cbn; done]. cbn.
    destruct (documentData doc); cbn; done.
  - right. exists u. cbn. eauto.
Qed.

Lemma single_flight_arrive rid r e : single_flight e -> single_flight (arrive rid r e).
Proof.
  intros Hs. unfold arrive.
  destruct (list_find _ (outstanding e)) as [[i [rid' u']]|] eqn:Hf; [|exact Hs].
  apply list_find_Some in Hf as (Hi & _ & _).
  destruct Hs as [[_ Ho]|(u & Hl & Hin & [Ho|[rid0 Ho]])];
    try (rewrite Ho in Hi; discriminate).
  rewrite Ho in Hi. destruct i; [|discriminate]. injection Hi as -> ->.
  apply single_flight_doRequest_then; cbn; [done..|by rewrite Ho].
Qed.

Lemma single_flight_op_run ops e : single_flight e -> single_flight (op_run ops e).
Proof.
  revert e. induction ops as [|o ops IH]; intros e Hs; [exact Hs|].
  cbn. apply IH. destruct o; cbn.
  - by apply single_flight_cursor_next.
  - by apply single_flight_cursor_then.
  - by apply single_flight_addMore.
  - by apply single_flight_arrive.
Qed.

Lemma issued_cursor_next e u :
  issued (fst (cursor_next e)) = issued e ++ [u] ->
  may_request e = true /\ link e = Some u.
Proof.
  assert (Hne : forall l : list string, l <> l ++ [u]).
  { intros l H. apply (f_equal length) in H. rewrite length_app in H.
    cbn in H. lia. }
  unfold cursor_next.
  destruct (finished e); [intros H; by apply Hne in H|].
  destruct (canContinue e); [|intros H; by apply Hne in H].
  destruct (under_limit (count e) e); [|intros H; by apply Hne in H].
  unfold advance. destruct (link e) as [l|].
  - destruct (may_request e).
    + cbn. destruct (buffer e), (collectionRequests e); cbn;
        intros H; apply app_inv_head in H; injection H as ->; done.
    + destruct (buffer e), (collectionRequests e); cbn;
        intros H; by apply Hne in H.
  - destruct (buffer e), (collectionRequests e); cbn; intros H; by apply Hne in H.
Qed.

(** C7: in every state an engine reaches, whatever the order of pulls,
    callbacks, [addMore] calls and transport answers, the URLs of the
    outstanding fetches are pairwise distinct, each of them is in the
    in-flight set, the in-flight set lists no URL twice, and a pull that
    issues a fetch issues it for a URL no outstanding fetch has. *)
Theorem one_fetch_per_url link0 limit0 ops :
  let e := op_run ops (paginate link0 limit0) in
  NoDup (snd <$> outstanding e)
  /\ NoDup (elements (inFlight e))
  /\ (forall rid u, (rid, u) ∈ outstanding e -> u ∈ inFlight e)
  /\ (forall u, issued (fst (cursor_next e)) = issued e ++ [u] ->
                u ∉ (snd <$> outstanding e)).
Proof.
  cbn zeta.
  pose proof (single_flight_op_run ops _ (single_flight_paginate link0 limit0)) as Hs.
  set (e := op_run ops (paginate link0 limit0)) in *.
  split; [|split; [apply NoDup_elements|split]].
  - destruct Hs as [[_ Ho]|(u & _ & _ & [Ho|[rid Ho]])]; rewrite Ho; cbn;
      [apply NoDup_nil_2..|apply NoDup_singleton].
  - intros rid u Hin.
    destruct Hs as [[_ Ho]|(u' & _ & Hf & [Ho|[rid' Ho]])]; rewrite Ho in Hin;
      try by apply elem_of_nil in Hin.
    apply list_elem_of_singleton in Hin. injection Hin as -> ->.
    rewrite Hf. by apply elem_of_singleton.
  - intros u Hi. apply issued_cursor_next in Hi as [Hm Hl].
    destruct (single_flight_may_request _ _ Hs Hm Hl) as [_ Ho].
    rewrite Ho. cbn. apply not_elem_of_nil.
Qed.

(** C8, amended: in every state an engine reaches, at most one fetch is
    outstanding, and a pull issues a fetch only when none is: the fetch
    of a page is never issued before the answer for the page before it
    has arrived. *)
Theorem one_fetch_outstanding link0 limit0 ops :
  let e := op_run ops (paginate link0 limit0) in
  (length (outstanding e) <= 1)%nat
  /\ (forall u, issued (fst (cursor_next e)) = issued e ++ [u] ->
                outstanding e = []).
Proof.
  cbn zeta.
  pose proof (single_flight_op_run ops _ (single_flight_paginate link0 limit0)) as Hs.
  split.
  - destruct Hs as [[_ Ho]|(u & _ & _ & [Ho|[rid Ho]])]; rewrite Ho; cbn; lia.
  - intros u Hi. apply issued_cursor_next in Hi as [Hm Hl].
    by destruct (single_flight_may_request _ _ Hs Hm Hl).
Qed.

Lemma one_fetch_outstanding_witness :
  let e := op_run [OpNext; OpArrive 0 (serve docs_three "p1"); OpThen]
             (paginate "p1" (-1)) in
  issued (fst (cursor_next e)) = issued e ++ ["p2"] /\ outstanding e = [].
Proof.
  split; [reflexivity|].
  apply (one_fetch_outstanding "p1" (-1)
           [OpNext; OpArrive 0 (serve docs_three "p1"); OpThen]) with "p2".
  reflexivity.
Defined.

(** C8, as stated, fails.  On the sparse chain with cap 4 the first
    [consume] stops with ["c"] of page 3 in the buffer and page 4 in
    flight.  Page 4 arrives, the cap is lifted, and the first pull of the
    next [consume] asks for page 5 while ["c"] is still undelivered: two
    pages beyond the one being drained have been handed to the
    transport. *)
Lemma two_pages_ahead :
  phase (snd sparse_capped) = DResolved AddMore
  /\ buffer (fst sparse_capped) = [Some (res "c")]
  /\ outstanding (fst sparse_capped) = [(3%nat, "p4")]
  /\ buffer sparse_resumed = map Some [res "c"; res "d"; res "e"; res "f"]
  /\ issued sparse_resumed = ["p1"; "p2"; "p3"; "p4"; "p5"]
  /\ outstanding sparse_resumed = [(4%nat, "p5")]
  /\ page_of [0; 0; 3; 3; 3]%nat (Z.to_nat (delivered sparse_resumed)) = 3%nat
  /\ ~ (read_ahead [0; 0; 3; 3; 3]%nat sparse_resumed <= 1)%nat.
Proof.
  vm_compute. repeat split; try reflexivity. intros H. lia.
Qed.

(** ** The cap *)

Lemma cursor_next_end e :
  finished e = false -> canContinue e = false ->
  cursor_next e = (set_finished true e, YUndefined).
Proof. intros Hf Hc. unfold cursor_next. rewrite Hf, Hc. reflexivity. Qed.

Lemma cursor_next_cap e :
  finished e = false -> canContinue e = true -> under_limit (count e) e = false ->
  cursor_next e = (e, YFalse).
Proof. intros Hf Hc Hu. unfold cursor_next. rewrite Hf, Hc, Hu. reflexivity. Qed.

Lemma cursor_next_advance e :
  finished e = false -> canContinue e = true -> under_limit (count e) e = true ->
  cursor_next e = (fst (advance e), YPromise (snd (advance e))).
Proof.
  intros Hf Hc Hu. unfold cursor_next. rewrite Hf, Hc, Hu.
  destruct (advance e). reflexivity.
Qed.

Lemma advance_quiet e :
  may_request e = false ->
  advance e = match buffer e, collectionRequests e with
              | [], rid :: rest => (set_collectionRequests rest e, AwaitRequest rid)
              | _, _ => (e, Immediate)
              end.
Proof.
  intros Hm. unfold advance. rewrite Hm. destruct (link e); reflexivity.
Qed.

Lemma advance_request e u :
  link e = Some u -> may_request e = true -> collectionRequests e = [] ->
  advance e
  = match buffer e with
    | [] => (set_collectionRequests [] (fst (doRequest u e)),
             AwaitRequest (length (promises e)))
    | _ => (set_collectionRequests [length (promises e)] (fst (doRequest u e)),
            Immediate)
    end.
Proof.
  intros Hl Hm Hq. unfold advance. rewrite Hl, Hm. cbn. rewrite Hq. cbn.
  destruct (buffer e); reflexivity.
Qed.

Lemma visited_app l l' : visited (l ++ l') = visited l ++ visited l'.
Proof.
  induction l as [|ev l IH]; [reflexivity|].
  destruct ev; cbn; rewrite IH; reflexivity.
Qed.

Lemma canContinue_buffer e : buffer e <> [] -> canContinue e = true.
Proof.
  intros Hb. unfold canContinue.
  rewrite (bool_decide_eq_false_2 _ Hb). reflexivity.
Qed.

Lemma canContinue_link e u : link e = Some u -> truthy u = true -> canContinue e = true.
Proof.
  intros Hl Hu. unfold canContinue. rewrite Hl. cbn. rewrite Hu.
  apply orb_true_r.
Qed.

Lemma canContinue_nothing e :
  buffer e = [] -> inFlight e = ∅ -> link e = None -> canContinue e = false.
Proof.
  intros Hb Hi Hl. unfold canContinue. rewrite Hb, Hi, Hl. reflexivity.
Qed.

Lemma chain_truthy docs u rest : chain docs u rest -> truthy u = true.
Proof. intros H. destruct H; assumption. Qed.

Lemma chain_nonempty docs u rest : chain docs u rest -> rest <> [].
Proof. intros H. destruct H; discriminate. Qed.

Lemma available_full rest :
  rest <> [] -> Forall full_page rest -> (0 < length (available rest))%nat.
Proof.
  intros Hne Hf. destruct rest as [|p rest]; [done|].
  apply Forall_cons in Hf as [[Hp _] _]. unfold available. cbn.
  rewrite length_app. destruct p; [done|]. cbn. lia.
Qed.

Lemma may_request_nolink e : link e = None -> may_request e = false.
Proof. intros Hl. unfold may_request. rewrite Hl. reflexivity. Qed.

Lemma may_request_flying e u :
  link e = Some u -> inFlight e = {[u]} -> may_request e = false.
Proof.
  intros Hl Hi. unfold may_request. rewrite Hl, Hi.
  rewrite bool_decide_eq_true_2 by (by apply elem_of_singleton).
  cbn. rewrite andb_false_r. reflexivity.
Qed.

Lemma may_request_idle e u :
  link e = Some u -> truthy u = true -> inFlight e = ∅ ->
  may_request e = under_limit (total e) e.
Proof.
  intros Hl Hu Hi. unfold may_request. rewrite Hl, Hu, Hi.
  rewrite bool_decide_eq_false_2 by apply not_elem_of_empty. reflexivity.
Qed.

Lemma under_limit_cap e x :
  (0 <= limit e)%Z -> under_limit x e = (x <? limit e)%Z.
Proof.
  intros Hn. unfold under_limit.
  destruct (Z.eqb_spec (limit e) (-1)); [lia|reflexivity].
Qed.

Lemma resources_length l : (length (resources l) <= length l)%nat.
Proof.
  induction l as [|[x|] l IH]; cbn; [lia| |]; unfold resources in IH; lia.
Qed.

Lemma resources_full l : Forall is_Some l -> length (resources l) = length l.
Proof.
  induction 1 as [|r l [x ->] _ IH]; [reflexivity|]. cbn. by rewrite <- IH.
Qed.

Section Cap.
Variable docs : gmap string Doc.
Variable v : visitor.
Variable rels : option relspec.
Variable n : Z.
Variable po : bool.
Hypothesis cap_nonneg : (0 <= n)%Z.
Hypothesis no_throw : forall r m, v r m <> VThrow.
Hypothesis no_reject : po = true -> forall r m, v r m <> VPromise false.

Lemma visit_any x d :
  tidy po d ->
  exists d', filteringConsumer v rels (Some x) d = (d', None)
             /\ tidy po d' /\ seen d' = seen d ++ [x].
Proof.
  intros [Hpo Ht]. unfold filteringConsumer, decorateWithRelationships, queuedConsumer.
  destruct po.
  - destruct rels as [rs|]; rewrite Hpo;
      (eexists; split; [reflexivity|]); (split; [split; [exact Hpo|exact Ht]|]);
      unfold seen; cbn; rewrite visited_app, map_app; cbn;
      rewrite app_nil_r, app_assoc; reflexivity.
  - destruct rels as [rs|]; rewrite Hpo.
    + destruct (v x (Some (mirror_of rs x))) as [|ok|] eqn:Hv;
        [| |by apply no_throw in Hv];
        (eexists; split; [reflexivity|]); (split; [split; [exact Hpo|exact Ht]|]);
        unfold seen; cbn; rewrite Ht, ?visited_app; cbn;
        rewrite ?app_nil_r; reflexivity.
    + destruct (v x None) as [|ok|] eqn:Hv; [| |by apply no_throw in Hv];
        (eexists; split; [reflexivity|]); (split; [split; [exact Hpo|exact Ht]|]);
        unfold seen; cbn; rewrite Ht, ?visited_app; cbn;
        rewrite ?app_nil_r; reflexivity.
Qed.

Lemma run_lazy_resolved steps F next s :
  phase (snd s) = DResolved next -> run_lazy steps F v rels docs s = s.
Proof. intros Hp. destruct steps; [reflexivity|]. cbn. rewrite Hp. reflexivity. Qed.

(** The drain of an ordered [consume], with every promise settling when
    it is awaited: every queued thunk runs, and the call resolves. *)
Lemma drain_run F e next : forall q d steps,
  po = true -> rejection d = None -> (length q <= steps)%nat ->
  visited (vlog (snd (run_lazy steps F v rels docs (e, drain v next q d))))
  = visited (vlog d) ++ map fst q
  /\ phase (snd (run_lazy steps F v rels docs (e, drain v next q d)))
     = DResolved next.
Proof.
  induction q as [|[r m] q IH]; intros d steps Hpo Hrej Hlen.
  - cbn [drain]. rewrite Hrej.
    rewrite (run_lazy_resolved _ _ next) by reflexivity.
    cbn. rewrite app_nil_r. done.
  - cbn [drain]. cbn [length] in Hlen. destruct (v r m) as [|ok|] eqn:Hv.
    + destruct (IH (log (EvEnd r) (log (EvStart r m) (set_queue q d))) steps)
        as [Hvis Hph]; [done|done|lia|].
      rewrite Hvis, Hph. cbn. rewrite !visited_app. cbn.
      rewrite <- !app_assoc. done.
    + destruct ok; [|by apply (no_reject Hpo) in Hv].
      destruct steps as [|steps]; [lia|].
      rewrite Hrej.
      cbn [run_lazy snd phase set_phase].
      cbn [sys_step running set_running set_phase phase].
      cbn [lookup list_lookup].
      destruct (IH (log (EvEnd r)
                      (set_running (delete 0%nat [(r, true, Some next)])
                         (set_phase (DDraining next)
                            (set_running [(r, true, Some next)]
                               (log (EvStart r m) (set_queue q d)))))) steps)
        as [Hvis Hph]; [done|done|lia|].
      cbn in Hvis, Hph. cbn. rewrite Hvis, Hph. rewrite !visited_app. cbn.
      rewrite <- !app_assoc. done.
    + by apply no_throw in Hv.
Qed.

(** The end of the pull phase, up to the resolution of the call. *)
Lemma finish_run F e d steps :
  tidy po d -> (length (seen d) <= steps)%nat ->
  visited (vlog (snd (run_lazy steps F v rels docs (e, finish v e d)))) = seen d
  /\ phase (snd (run_lazy steps F v rels docs (e, finish v e d)))
     = DResolved (if canContinue e then AddMore else NoMore).
Proof.
  intros [Hpo Ht] Hlen. unfold finish. rewrite <- Hpo in Ht.
  destruct (preserveOrder d) eqn:Hd.
  - apply drain_run; [by symmetry|done|].
    unfold seen in Hlen. rewrite length_app, length_map in Hlen. lia.
  - rewrite (run_lazy_resolved _ _ (if canContinue e then AddMore else NoMore))
      by reflexivity.
    unfold seen. cbn. rewrite Ht. cbn. rewrite app_nil_r. done.
Qed.

Lemma seen_phase p d : seen (set_phase p d) = seen d.
Proof. reflexivity. Qed.

(** A pull that finds the buffer filled resolves at once; it may start
    the fetch of the next page on its way. *)
Lemma advance_filled rest e :
  lazy_inv docs n rest e -> buffer e <> [] -> (count e < n)%Z ->
  exists e1, advance e = (e1, Immediate)
             /\ lazy_inv docs n rest e1
             /\ buffer e1 = buffer e /\ count e1 = count e.
Proof.
  intros (Hlim & Hfin & Hsome & Htot & Hcnt & Hfull & Hst) Hb Hc.
  destruct Hst as [(Hi & Hq & Ho & [[Hl Hr]|(u & Hl & Hch)])|(u & rid & Hl & Hch & Hi & Hq & Ho & Hp)].
  - exists e. rewrite (advance_quiet e (may_request_nolink e Hl)).
    split; [destruct (buffer e); [done|reflexivity]|].
    split; [|done]. unfold lazy_inv. repeat (split; [done|]). left. eauto 10.
  - pose proof (chain_truthy _ _ _ Hch) as Hu.
    destruct (under_limit (total e) e) eqn:Hul.
    + rewrite (advance_request e u Hl) by
        (try done; by rewrite (may_request_idle e u Hl Hu Hi)).
      eexists. split; [destruct (buffer e); [done|reflexivity]|].
      split; [|done]. unfold lazy_inv. cbn. repeat (split; [done|]).
      right. exists u, (length (promises e)). rewrite Hi, Ho.
      repeat split; try done.
      * apply union_empty_r_L.
      * apply list_lookup_middle. reflexivity.
    + exists e. rewrite (advance_quiet e) by
        (by rewrite (may_request_idle e u Hl Hu Hi)).
      split; [destruct (buffer e); [done|reflexivity]|].
      split; [|done]. unfold lazy_inv. repeat (split; [done|]). left. eauto 10.
  - exists e. rewrite (advance_quiet e (may_request_flying e u Hl Hi)).
    split; [destruct (buffer e); [done|reflexivity]|].
    split; [|done]. unfold lazy_inv. repeat (split; [done|]). right. eauto 10.
Qed.

Lemma lazy_inv_then rest e x b' :
  lazy_inv docs n rest e -> buffer e = Some x :: b' -> (count e < n)%Z ->
  cursor_then e = (set_buffer b' (set_count (count e + 1) e), Some x)
  /\ lazy_inv docs n rest (set_buffer b' (set_count (count e + 1) e)).
Proof.
  intros (Hlim & Hfin & Hsome & Htot & Hcnt & Hfull & Hst) Hb Hc.
  split; [unfold cursor_then; cbn; rewrite Hb; reflexivity|].
  unfold lazy_inv. cbn. rewrite Hb in Hsome, Htot.
  apply Forall_cons in Hsome as [_ Hsome]. cbn in Htot.
  repeat (split; [first [done|lia]|]). exact Hst.
Qed.

Lemma owed_visits_cons c x b rest :
  (c < n)%Z -> owed_visits n c (Some x :: b) rest = x :: owed_visits n (c + 1) b rest.
Proof.
  intros Hc. unfold owed_visits.
  replace (Z.to_nat (n - c)) with (S (Z.to_nat (n - (c + 1)))) by lia.
  reflexivity.
Qed.

Lemma owed_verdict_cons c x b rest :
  owed_verdict n c (x :: b) rest = owed_verdict n (c + 1) b rest.
Proof.
  unfold owed_verdict.
  replace (c + Z.of_nat (length ((x :: b) ++ available rest)))%Z
    with (c + 1 + Z.of_nat (length (b ++ available rest)))%Z by (cbn; lia).
  reflexivity.
Qed.

Lemma owed_visits_cap b rest : owed_visits n n b rest = [].
Proof. unfold owed_visits. rewrite Z.sub_diag. reflexivity. Qed.

Lemma owed_verdict_cap b rest :
  (0 < length (b ++ available rest))%nat -> owed_verdict n n b rest = AddMore.
Proof.
  intros Hl. unfold owed_verdict.
  destruct (Z.leb_spec (n + Z.of_nat (length (b ++ available rest))) n); [lia|done].
Qed.

Lemma owed_visits_length c b rest :
  (length (owed_visits n c b rest) <= length b + length (available rest))%nat.
Proof.
  unfold owed_visits.
  etransitivity; [apply resources_length|].
  rewrite length_firstn, length_app. lia.
Qed.

(** One run of [pull], from the state between two pulls up to the end of
    the pull phase or to the wait for the next page. *)
Lemma pull_segment k : forall e d rest,
  lazy_inv docs n rest e -> tidy po d ->
  (length (buffer e) + 2 <= k)%nat ->
  (exists e' d',
      pull k v rels e d = (e', finish v e' d')
      /\ tidy po d'
      /\ seen d' = seen d ++ owed_visits n (count e) (buffer e) rest
      /\ (if canContinue e' then AddMore else NoMore)
         = owed_verdict n (count e) (buffer e) rest)
  \/ (exists rid u,
        awaiting docs n rest (fst (pull k v rels e d)) rid u
        /\ phase (snd (pull k v rels e d)) = DWaiting rid
        /\ tidy po (snd (pull k v rels e d))
        /\ seen (snd (pull k v rels e d)) = seen d ++ resources (buffer e)
        /\ count (fst (pull k v rels e d))
           = (count e + Z.of_nat (length (buffer e)))%Z).
Proof.
  induction k as [|k IH]; intros e d rest Hinv Hpo Hk; [lia|].
  pose proof Hinv as (Hlim & Hfin & Hsome & Htot & Hcnt & Hfull & Hst).
  assert (Hul : forall x, under_limit x e = (x <? n)%Z).
  { intros x. rewrite under_limit_cap; rewrite Hlim; done. }
  assert (Hcap : canContinue e = true -> count e = n ->
            (0 < length (buffer e ++ available rest))%nat ->
            exists e' d',
              pull (S k) v rels e d = (e', finish v e' d')
              /\ tidy po d'
              /\ seen d' = seen d ++ owed_visits n (count e) (buffer e) rest
              /\ (if canContinue e' then AddMore else NoMore)
                 = owed_verdict n (count e) (buffer e) rest).
  { intros Hcan Hc Hav. exists e, d. cbn [pull].
    rewrite (cursor_next_cap e Hfin Hcan) by (rewrite Hul; lia).
    rewrite Hcan, Hc, owed_visits_cap, owed_verdict_cap, app_nil_r; done. }
  destruct (buffer e) as [|r b'] eqn:Hb.
  - cbn in Htot.
    assert (Hwait : forall u rid e1,
              cursor_next e = (e1, YPromise (AwaitRequest rid)) ->
              promises e1 !! rid = Some Pending ->
              awaiting docs n rest e1 rid u -> count e1 = count e ->
              exists rid u,
                awaiting docs n rest (fst (pull (S k) v rels e d)) rid u
                /\ phase (snd (pull (S k) v rels e d)) = DWaiting rid
                /\ tidy po (snd (pull (S k) v rels e d))
                /\ seen (snd (pull (S k) v rels e d)) = seen d ++ resources []
                /\ count (fst (pull (S k) v rels e d))
                   = (count e + Z.of_nat (length (@nil jsres)))%Z).
    { intros u rid e1 Hn Hp Ha Hc. cbn [pull]. rewrite Hn, Hp. cbn [fst snd].
      exists rid, u. split; [exact Ha|]. split; [reflexivity|].
      split; [exact Hpo|]. split; [|cbn; lia].
      rewrite seen_phase. cbn. by rewrite app_nil_r. }
    destruct Hst as [(Hi & Hq & Ho & [[Hl Hr]|(u & Hl & Hch)])|(u & rid & Hl & Hch & Hi & Hq & Ho & Hp)].
    + left. exists (set_finished true e), d. cbn [pull].
      rewrite (cursor_next_end e Hfin (canContinue_nothing e Hb Hi Hl)).
      split; [reflexivity|]. split; [exact Hpo|]. subst rest.
      replace (canContinue (set_finished true e)) with false
        by (symmetry; by apply canContinue_nothing).
      unfold owed_visits, owed_verdict, available. cbn.
      rewrite firstn_nil, app_nil_r. split; [done|].
      match goal with
      | |- context [Z.leb ?a ?b] => destruct (Z.leb_spec a b)
      end; [done|cbn in *; lia].
    + pose proof (chain_truthy _ _ _ Hch) as Hu.
      pose proof (available_full rest (chain_nonempty _ _ _ Hch) Hfull) as Hav.
      destruct (Z.ltb_spec (count e) n) as [Hc|Hc].
      * right. apply (Hwait u (length (promises e))
                        (set_collectionRequests [] (fst (doRequest u e)))).
        -- rewrite (cursor_next_advance e Hfin (canContinue_link e u Hl Hu))
             by (rewrite Hul; lia).
           rewrite (advance_request e u Hl) by
             (try done; rewrite (may_request_idle e u Hl Hu Hi), Hul; lia).
           rewrite Hb. reflexivity.
        -- cbn. apply list_lookup_middle. reflexivity.
        -- unfold awaiting. cbn. rewrite Hi, Ho, Hb in *.
           repeat split; try done; try lia.
           ++ apply union_empty_r_L.
           ++ apply list_lookup_middle. reflexivity.
        -- reflexivity.
      * left. apply Hcap; [by apply (canContinue_link e u)|lia|done].
    + pose proof (chain_truthy _ _ _ Hch) as Hu.
      pose proof (available_full rest (chain_nonempty _ _ _ Hch) Hfull) as Hav.
      destruct (Z.ltb_spec (count e) n) as [Hc|Hc].
      * right. apply (Hwait u rid (set_collectionRequests [] e)).
        -- rewrite (cursor_next_advance e Hfin (canContinue_link e u Hl Hu))
             by (rewrite Hul; lia).
           rewrite (advance_quiet e (may_request_flying e u Hl Hi)), Hb, Hq.
           reflexivity.
        -- exact Hp.
        -- unfold awaiting. cbn. rewrite Hb in *.
           repeat split; try done; try lia.
        -- reflexivity.
      * left. apply Hcap; [by apply (canContinue_link e u)|lia|done].
  - assert (Hcan : canContinue e = true) by (apply canContinue_buffer; by rewrite Hb).
    destruct (Z.ltb_spec (count e) n) as [Hc|Hc].
    + destruct (advance_filled rest e Hinv) as (e1 & Ha & Hinv1 & Hb1 & Hc1);
        [by rewrite Hb|done|].
      cbn [pull].
      rewrite (cursor_next_advance e Hfin Hcan) by (rewrite Hul; lia).
      rewrite Ha. cbn [fst snd].
      apply Forall_cons in Hsome as [[x ->] Hsome].
      rewrite Hb in Hb1.
      destruct (lazy_inv_then rest e1 x b' Hinv1 Hb1) as [Ht Hinv2]; [lia|].
      rewrite Ht.
      destruct (visit_any x d Hpo) as (d' & Hv & Hpo' & Hvis). rewrite Hv.
      specialize (IH (set_buffer b' (set_count (count e1 + 1) e1)) d' rest Hinv2 Hpo').
      cbn in IH. cbn in Hk.
      destruct IH as [(e' & d'' & Hpull & Ht' & Hseen & Hver)
                     |(rid & u & Haw & Hph & Hpo2 & Hvis2 & Hcnt2)]; [lia| |].
      * left. exists e', d''. split; [exact Hpull|]. split; [exact Ht'|].
        rewrite Hseen, Hver, Hvis, Hc1, owed_visits_cons, owed_verdict_cons,
          <- app_assoc by done. done.
      * right. exists rid, u. split; [exact Haw|]. split; [exact Hph|].
        split; [exact Hpo2|]. split.
        -- rewrite Hvis2, Hvis, <- app_assoc. reflexivity.
        -- rewrite Hcnt2, Hc1. cbn [length]. lia.
    + left. apply Hcap; [done|lia|cbn; lia].
Qed.

Lemma owed_visits_through c b rest :
  Forall is_Some b -> (c + Z.of_nat (length b) <= n)%Z ->
  owed_visits n c b rest
  = resources b ++ owed_visits n (c + Z.of_nat (length b)) [] rest.
Proof.
  revert c. induction b as [|r b IH]; intros c Hs Hc.
  - cbn. rewrite Z.add_0_r. reflexivity.
  - apply Forall_cons in Hs as [[x ->] Hs]. cbn [length] in *.
    rewrite owed_visits_cons by lia. rewrite IH by (done || lia).
    replace (c + Z.of_nat (S (length b)))%Z
      with (c + 1 + Z.of_nat (length b))%Z by lia.
    reflexivity.
Qed.

Lemma owed_verdict_through c b rest :
  owed_verdict n c b rest = owed_verdict n (c + Z.of_nat (length b)) [] rest.
Proof.
  revert c. induction b as [|r b IH]; intros c.
  - cbn. rewrite Z.add_0_r. reflexivity.
  - rewrite owed_verdict_cons, IH. cbn [length].
    replace (c + Z.of_nat (S (length b)))%Z
      with (c + 1 + Z.of_nat (length b))%Z by lia.
    reflexivity.
Qed.

Lemma owed_visits_page c p rest :
  owed_visits n c [] (p :: rest) = owed_visits n c p rest.
Proof. reflexivity. Qed.

Lemma owed_verdict_page c p rest :
  owed_verdict n c [] (p :: rest) = owed_verdict n c p rest.
Proof. reflexivity. Qed.

Lemma arrive_single rid u r e :
  outstanding e = [(rid, u)] ->
  arrive rid r e = doRequest_then rid u r (set_outstanding [] e).
Proof.
  intros Ho. unfold arrive. rewrite Ho. cbn.
  rewrite bool_decide_eq_true_2 by reflexivity. reflexivity.
Qed.

Lemma url_of_single rid u e : outstanding e = [(rid, u)] -> url_of rid e = Some u.
Proof.
  intros Ho. unfold url_of. rewrite Ho. cbn.
  rewrite bool_decide_eq_true_2 by reflexivity. reflexivity.
Qed.

Lemma doRequest_then_page rid u doc data nxt e :
  doc_data doc = Some data -> doc_links doc = Some nxt ->
  doRequest_then rid u (RespOk doc) e
  = set_promises (<[rid := Done]> (promises e))
      (set_buffer (buffer e ++ resources_of data)
         (set_total (total e + Z.of_nat (length (resources_of data)))%Z
            (set_link (or_false nxt) (set_inFlight (inFlight e ∖ {[u]}) e)))).
Proof.
  intros Hd Hl. unfold doRequest_then, documentData. cbn. rewrite Hl, Hd.
  reflexivity.
Qed.

#[local] Arguments filteringConsumer : simpl never.

(** The answer for the awaited page: its resources enter the buffer, the
    first of them goes to the visitor, and the pull loop starts again. *)
Lemma arrival_resumes F p rest e d rid u :
  awaiting docs n (p :: rest) e rid u ->
  phase d = DWaiting rid -> tidy po d ->
  exists x b' e2 d2,
    p = Some x :: b'
    /\ sys_step F v rels (Arrives rid (serve docs u)) (e, d) = pull F v rels e2 d2
    /\ lazy_inv docs n rest e2 /\ buffer e2 = b'
    /\ count e2 = (count e + 1)%Z
    /\ tidy po d2
    /\ seen d2 = seen d ++ [x].
Proof.
  intros (Hlim & Hfin & Hb & Htot & Hcnt & Hfull & Hl & Hch & Hi & Hq & Ho & Hp)
    Hph Hpo.
  apply Forall_cons in Hfull as [[Hne Hsome] Hfull].
  destruct p as [|r b']; [done|].
  apply Forall_cons in Hsome as [[x ->] Hsome].
  destruct (visit_any x d Hpo) as (d2 & Hv & Hpo2 & Hvis).
  assert (Hrid : (rid < length (promises e))%nat) by (by eapply lookup_lt_Some).
  assert (Hstep : forall doc data nxt,
            docs !! u = Some doc -> doc_data doc = Some data ->
            doc_links doc = Some nxt -> resources_of data = Some x :: b' ->
            sys_step F v rels (Arrives rid (serve docs u)) (e, d)
            = pull F v rels
                (set_buffer b'
                   (set_count (count e + 1)
                      (doRequest_then rid u (RespOk doc) (set_outstanding [] e))))
                d2
            /\ doRequest_then rid u (RespOk doc) (set_outstanding [] e)
               = set_promises (<[rid := Done]> (promises e))
                   (set_buffer (Some x :: b')
                      (set_total (total e + Z.of_nat (S (length b')))%Z
                         (set_link (or_false nxt)
                            (set_inFlight (inFlight e ∖ {[u]})
                               (set_outstanding [] e)))))).
  { intros doc data nxt Hdoc Hdata Hlinks Hres.
    assert (Hthen : doRequest_then rid u (RespOk doc) (set_outstanding [] e)
               = set_promises (<[rid := Done]> (promises e))
                   (set_buffer (Some x :: b')
                      (set_total (total e + Z.of_nat (S (length b')))%Z
                         (set_link (or_false nxt)
                            (set_inFlight (inFlight e ∖ {[u]})
                               (set_outstanding [] e)))))).
    { rewrite (doRequest_then_page rid u doc data nxt _ Hdata Hlinks).
      cbn. rewrite Hb, Hres. reflexivity. }
    split; [|exact Hthen].
    unfold sys_step, serve. rewrite Hdoc, Hph, (arrive_single rid u _ e Ho).
    rewrite bool_decide_eq_true_2 by reflexivity.
    rewrite Hthen. cbn. rewrite list_lookup_insert_eq by done.
    unfold cursor_then. cbn. rewrite Hv. reflexivity. }
  exists x, b'.
  inversion Hch as [u0 doc data nxt Hu Hdoc Hdata Hlinks Hnxt Heq
                   |u0 doc data u' rest0 Hu Hdoc Hdata Hlinks Hu' Hrest Heq];
    subst.
  - destruct (Hstep doc data nxt Hdoc Hdata Hlinks) as [Hs Hthen]; [done|].
    eexists _, d2. split; [done|]. split; [exact Hs|].
    rewrite Hthen. cbn. split; [|done].
    unfold lazy_inv. cbn. rewrite Hnxt, Hi.
    repeat (split; [first [done|lia]|]). left.
    split; [apply difference_diag_L|]. eauto.
  - destruct (Hstep doc data (Some u') Hdoc Hdata Hlinks) as [Hs Hthen]; [done|].
    eexists _, d2. split; [done|]. split; [exact Hs|].
    rewrite Hthen. cbn. split; [|done].
    unfold lazy_inv. cbn. rewrite Hu', Hi.
    repeat (split; [first [done|lia]|]). left.
    split; [apply difference_diag_L|]. eauto 10.
Qed.

(** A lazily served [consume], from any state between two pulls. *)
Lemma lazy_run F : forall rest steps k e d,
  lazy_inv docs n rest e -> tidy po d ->
  (length (buffer e) + 2 <= k)%nat ->
  (length (available rest) + 2 <= F)%nat ->
  (length rest + length (seen d) + length (buffer e) + length (available rest)
   <= steps)%nat ->
  visited (vlog (snd (run_lazy steps F v rels docs (pull k v rels e d))))
  = seen d ++ owed_visits n (count e) (buffer e) rest
  /\ phase (snd (run_lazy steps F v rels docs (pull k v rels e d)))
     = DResolved (owed_verdict n (count e) (buffer e) rest).
Proof.
  assert (Hdone : forall rest steps k e d,
            tidy po d ->
            (length (seen d) + length (buffer e) + length (available rest)
             <= steps)%nat ->
            (exists e' d',
                pull k v rels e d = (e', finish v e' d')
                /\ tidy po d'
                /\ seen d' = seen d ++ owed_visits n (count e) (buffer e) rest
                /\ (if canContinue e' then AddMore else NoMore)
                   = owed_verdict n (count e) (buffer e) rest) ->
            visited (vlog (snd (run_lazy steps F v rels docs (pull k v rels e d))))
            = seen d ++ owed_visits n (count e) (buffer e) rest
            /\ phase (snd (run_lazy steps F v rels docs (pull k v rels e d)))
               = DResolved (owed_verdict n (count e) (buffer e) rest)).
  { intros rest steps k e d Hpo Hsteps (e' & d' & Hpull & Ht & Hseen & Hver).
    rewrite Hpull, <- Hseen, <- Hver. apply finish_run; [exact Ht|].
    rewrite Hseen, length_app.
    pose proof (owed_visits_length (count e) (buffer e) rest). lia. }
  induction rest as [|p rest IH]; intros steps k e d Hinv Hpo Hk HF Hsteps.
  - destruct (pull_segment k e d [] Hinv Hpo Hk) as [Hl|(rid & u & Haw & _)].
    + apply Hdone; [done|cbn in *; lia|done].
    + destruct Haw as (_ & _ & _ & _ & _ & _ & _ & Hch & _).
      by apply chain_nonempty in Hch.
  - destruct (pull_segment k e d (p :: rest) Hinv Hpo Hk)
      as [Hl|(rid & u & Haw & Hph & Hpo' & Hv & Hc)].
    + apply Hdone; [done|cbn in *; lia|done].
    + destruct (pull k v rels e d) as [e' d']. cbn [fst snd] in *.
      destruct steps as [|steps]; [cbn in Hsteps; lia|].
      cbn [run_lazy fst snd]. rewrite Hph.
      pose proof Haw as (_ & _ & Hbe & _ & Hlt & _ & _ & _ & _ & _ & Ho & _).
      rewrite (url_of_single rid u e' Ho).
      destruct (arrival_resumes F p rest e' d' rid u Haw Hph Hpo')
        as (x & b' & e2 & d2 & -> & Hs & Hinv2 & Hb2 & Hc2 & Hpo2 & Hv2).
      rewrite Hs.
      pose proof Hinv as (_ & _ & Hsome & _).
      assert (Hlen : length (seen d2)
                = (length (seen d) + length (buffer e) + 1)%nat).
      { rewrite Hv2, Hv, !length_app, resources_full by done. cbn. lia. }
      unfold available in HF, Hsteps. cbn in HF, Hsteps.
      rewrite length_app in HF, Hsteps. cbn in HF, Hsteps.
      destruct (IH steps F e2 d2 Hinv2 Hpo2) as [Hvis Hver];
        [rewrite Hb2; lia|unfold available; lia
        |rewrite Hlen, Hb2; unfold available; lia|].
      rewrite Hvis, Hver, Hv2, Hv, Hb2, Hc2, Hc.
      rewrite (owed_visits_through (count e) (buffer e)) by (done || lia).
      rewrite (owed_verdict_through (count e) (buffer e)).
      rewrite owed_visits_page, owed_verdict_page.
      rewrite owed_visits_cons, owed_verdict_cons by lia.
      rewrite <- !app_assoc. done.
Qed.
End Cap.

Lemma available_is_Some pages :
  Forall full_page pages -> Forall is_Some (available pages).
Proof.
  induction 1 as [|p pages [_ Hp] _ IH]; [constructor|].
  unfold available. cbn. apply Forall_app. done.
Qed.

Lemma lazy_inv_paginate docs n url pages :
  (0 <= n)%Z -> chain docs url pages -> Forall full_page pages ->
  lazy_inv docs n pages (paginate url n)
  /\ buffer (paginate url n) = [] /\ count (paginate url n) = 0%Z.
Proof.
  intros Hn Hch Hfull. pose proof (chain_truthy _ _ _ Hch) as Hu.
  destruct (Z.eq_dec n 0%Z) as [->|Hne].
  - assert (Hp : paginate url 0
             = {| buffer := []; total := 0%Z; inFlight := ∅; link := Some url;
                  limit := 0%Z; count := 0%Z; collectionRequests := [];
                  finished := false; promises := []; outstanding := [];
                  issued := [] |}).
    { unfold paginate, may_request. cbn. rewrite andb_false_r. reflexivity. }
    rewrite Hp. cbn. split; [|done].
    unfold lazy_inv. cbn. repeat (split; [done|]). left. eauto 10.
  - rewrite (paginate_requests url n Hu) by lia. cbn. split; [|done].
    unfold lazy_inv. cbn. repeat (split; [done|]). right.
    exists url, 0%nat. repeat split; try done. apply union_empty_r_L.
Qed.

(** C4, amended: for every cap [n >= 0] and every page chain whose pages
    each hold at least one resource and no [null], served by a transport
    that answers each page when the driver waits for it, and with a
    visitor that does not throw (nor, in the ordered mode, returns a
    promise that rejects), [consume] calls the visitor on exactly the
    first [min n totalAvailable] resources of the chain, in order, and
    resolves to [false] exactly when [totalAvailable <= n], otherwise to
    [addMore]. *)
Theorem cap_is_respected docs v rels n po url pages fuel steps :
  (0 <= n)%Z ->
  (forall r m, v r m <> VThrow) ->
  (po = true -> forall r m, v r m <> VPromise false) ->
  chain docs url pages ->
  Forall full_page pages ->
  (length (available pages) + 2 <= fuel)%nat ->
  (length pages + length (available pages) <= steps)%nat ->
  let s := run_lazy steps fuel v rels docs
             (consume fuel v po rels (paginate url n)) in
  visited (vlog (snd s)) = resources (firstn (Z.to_nat n) (available pages))
  /\ Z.of_nat (length (visited (vlog (snd s)))) = Z.min n (totalAvailable pages)
  /\ phase (snd s)
     = DResolved (if (totalAvailable pages <=? n)%Z then NoMore else AddMore).
Proof.
  intros Hn Hv Hr Hch Hfull Hfuel Hsteps. cbn zeta.
  destruct (lazy_inv_paginate docs n url pages Hn Hch Hfull) as (Hinv & Hb & Hc).
  unfold consume.
  match goal with
  | |- context [pull fuel v rels ?e ?d] =>
      destruct (lazy_run docs v rels n po Hn Hv Hr fuel pages steps fuel e d Hinv)
        as [Hvis Hph]
  end; [split; [reflexivity|destruct po; reflexivity]
       |rewrite Hb; cbn; lia|done|rewrite Hb; cbn; lia|].
  rewrite Hb, Hc in Hvis, Hph. cbn [seen vlog queue map app visited] in Hvis.
  unfold owed_visits in Hvis. unfold owed_verdict in Hph.
  rewrite Z.sub_0_r in Hvis. cbn [app] in Hvis, Hph. rewrite Z.add_0_l in Hph.
  split; [exact Hvis|]. split; [|exact Hph].
  rewrite Hvis, resources_full.
  - rewrite length_firstn. unfold totalAvailable. lia.
  - apply Forall_take. by apply available_is_Some.
Qed.

Lemma chain_three :
  chain docs_three "p1"
    [[Some (res "a"); Some (res "b")]; [Some (res "c"); Some (res "d")];
     [Some (res "e"); Some (res "f")]].
Proof.
  apply (chain_next docs_three "p1" (page [res "a"; res "b"] (Some "p2"))
           (DataMany [Some (res "a"); Some (res "b")]) "p2"); try reflexivity.
  apply (chain_next docs_three "p2" (page [res "c"; res "d"] (Some "p3"))
           (DataMany [Some (res "c"); Some (res "d")]) "p3"); try reflexivity.
  apply (chain_last docs_three "p3" (page [res "e"; res "f"] None)
           (DataMany [Some (res "e"); Some (res "f")]) None); reflexivity.
Qed.

Lemma chain_trailing_empty :
  chain docs_trailing_empty "p1" [[Some (res "a"); Some (res "b")]; []].
Proof.
  apply (chain_next docs_trailing_empty "p1" (page [res "a"; res "b"] (Some "p2"))
           (DataMany [Some (res "a"); Some (res "b")]) "p2"); try reflexivity.
  apply (chain_last docs_trailing_empty "p2" (page [] None) (DataMany []) None);
    reflexivity.
Qed.

Lemma cap_is_respected_witness :
  let s := run_lazy 9 8 plain_visitor None docs_three
             (consume 8 plain_visitor false None (paginate "p1" 4)) in
  visited (vlog (snd s)) = [res "a"; res "b"; res "c"; res "d"]
  /\ phase (snd s) = DResolved AddMore.
Proof.
  destruct (cap_is_respected docs_three plain_visitor None 4 false "p1"
              [[Some (res "a"); Some (res "b")]; [Some (res "c"); Some (res "d")];
               [Some (res "e"); Some (res "f")]] 8 9) as (Hv & _ & Hp).
  - lia.
  - intros r m. discriminate.
  - discriminate.
  - exact chain_three.
  - repeat constructor; try discriminate; eauto.
  - cbn. lia.
  - cbn. lia.
  - split; [exact Hv|exact Hp].
Defined.

(** C4, as stated, fails: when the last page of the chain is empty, a
    cap equal to the number of resources is reached while the link of
    that page is still known, and [consume] resolves to [addMore]
    although [totalAvailable <= n]. *)
Lemma trailing_empty_page_reports_more :
  let pages := [[Some (res "a"); Some (res "b")]; []] in
  let s := run_lazy 4 8 plain_visitor None docs_trailing_empty
             (consume 8 plain_visitor false None (paginate "p1" 2)) in
  chain docs_trailing_empty "p1" pages
  /\ visited (vlog (snd s)) = [res "a"; res "b"]
  /\ ~ (phase (snd s) = DResolved NoMore <-> (totalAvailable pages <= 2)%Z).
Proof.
  cbn zeta. split; [exact chain_trailing_empty|]. split; [reflexivity|].
  intros [_ H].
  assert (Hp : phase (snd (run_lazy 4 8 plain_visitor None docs_trailing_empty
                 (consume 8 plain_visitor false None (paginate "p1" 2))))
               = DResolved AddMore) by reflexivity.
  rewrite Hp in H. assert (Hf : DResolved AddMore = DResolved NoMore).
  { apply H. vm_compute. discriminate. }
  discriminate.
Qed.

(** A page that arrives before [consume] is called leaves its settled
    request in [collectionRequests]; the pull that finds the buffer empty
    waits on that request, resolves with nothing, and is counted: with
    cap 4 only three resources reach the visitor. *)
Lemma early_page_costs_a_pull :
  let e := arrive 0 (serve docs_three "p1") (paginate "p1" 4) in
  let s := run_lazy 3 8 plain_visitor None docs_three
             (consume 8 plain_visitor false None e) in
  collectionRequests e = [0%nat] /\ promises e = [Done]
  /\ visited (vlog (snd s)) = [res "a"; res "b"; res "c"]
  /\ count (fst s) = 4%Z
  /\ phase (snd s) = DResolved AddMore.
Proof. vm_compute. repeat split; reflexivity. Qed.

(** ** Ordered consumption *)

Section Ordered.
Variable v : visitor.
Variable rels : option relspec.

Lemma ordered_log_queue q x :
  ordered_log (q ++ [x]) [] [] = ordered_log q [] [] ++ [EvQueued (fst x)].
Proof.
  unfold ordered_log. cbn. rewrite !app_nil_r, map_app. reflexivity.
Qed.

Lemma ordered_log_start ran r m q :
  ordered_log (ran ++ (r, m) :: q) ran [] ++ [EvStart r m]
  = ordered_log (ran ++ [(r, m)] ++ q) ran [(r, m)].
Proof.
  unfold ordered_log. cbn. rewrite app_nil_r, <- !app_assoc. reflexivity.
Qed.

Lemma ordered_log_end ran r m q :
  ordered_log (ran ++ [(r, m)] ++ q) ran [(r, m)] ++ [EvEnd r]
  = ordered_log ((ran ++ [(r, m)]) ++ q) (ran ++ [(r, m)]) [].
Proof.
  unfold ordered_log. cbn. rewrite flat_map_app. cbn.
  rewrite !app_nil_r, <- !app_assoc. reflexivity.
Qed.

(** A promise that the drain awaits settles: [reject] is called when it
    rejects, and the loop goes on with the rest of the queue. *)
Lemma settle_awaited F e d r ok next rest :
  running d = (r, ok, Some next) :: rest ->
  sys_step F v rels (Settles 0) (e, d)
  = (e, drain v next (queue d)
          (if ok then log (EvEnd r) (set_running rest d)
           else reject visitor_error (log (EvEnd r) (set_running rest d)))).
Proof.
  intros H. cbn [sys_step]. rewrite H. cbn [lookup list_lookup delete list_delete].
  destruct ok; [reflexivity|]. unfold reject. cbn.
  destruct (rejection d); reflexivity.
Qed.

Lemma drain_draining next q d ran :
  running d = [] ->
  vlog d = ordered_log (ran ++ q) ran [] ->
  Forall (fun x => x = decorated rels (fst x)) (ran ++ q) ->
  draining rels (drain v next q d).
Proof.
  revert d ran. induction q as [|[r m] rest IH]; intros d ran Hr Hl Hf.
  - exists ran, []. cbn. split; [exact Hl|]. split; [exact Hf|]. left.
    split; [done|]. split; [done|]. destruct (rejection d); done.
  - cbn [drain]. destruct (v r m) as [|ok|].
    + apply (IH _ (ran ++ [(r, m)])); [done| |by rewrite <- app_assoc].
      cbn. rewrite Hl. rewrite (ordered_log_start ran r m rest).
      apply (ordered_log_end ran r m rest).
    + exists ran, [(r, m)]. cbn. split.
      * rewrite Hl. apply (ordered_log_start ran r m rest).
      * split; [exact Hf|]. right. exists r, m, ok, next.
        split; [done|]. split; [done|]. destruct (rejection d); done.
    + exists (ran ++ [(r, m)]), []. cbn. split.
      * rewrite Hl. rewrite (ordered_log_start ran r m rest).
        apply (ordered_log_end ran r m rest).
      * split; [by rewrite <- app_assoc|]. left.
        split; [done|]. split; [done|]. destruct (rejection d); done.
Qed.

(** In the ordered mode [filteringConsumer] queues a resource and drops
    [null]; it does not call the visitor. *)
Lemma ordered_visit x d :
  preserveOrder d = true ->
  exists d', filteringConsumer v rels x d = (d', None)
             /\ queued rels [x] d d' /\ phase d' = phase d.
Proof.
  intros Hpo. destruct x as [r|]; cbn.
  - destruct rels as [rs|]; cbn; unfold queuedConsumer; rewrite Hpo;
      (eexists; split; [reflexivity|]); (split; [|reflexivity]);
      unfold queued; done.
  - exists d. unfold queued. cbn. rewrite !app_nil_r. done.
Qed.

Lemma queued_pulling r d :
  pulling rels d ->
  exists d', filteringConsumer v rels r d = (d', None)
             /\ pulling rels d' /\ phase d' = phase d.
Proof.
  intros (Hpo & Hr & Hl & Hf & Hp).
  destruct (ordered_visit r d Hpo) as (d' & Hv & (Hpo' & Hr' & _ & Hq' & Hl') & Hp').
  exists d'. split; [exact Hv|]. split; [|exact Hp'].
  unfold pulling. rewrite Hp', Hr', Hq', Hl', Hl.
  split; [exact Hpo'|]. split; [exact Hr|]. split; [|split; [|exact Hp]].
  - unfold ordered_log. cbn. rewrite !app_nil_r, map_app, map_map. reflexivity.
  - apply Forall_app. split; [exact Hf|]. apply Forall_forall.
    intros x Hx. apply list_elem_of_fmap in Hx as (r0 & -> & _).
    unfold decorated. reflexivity.
Qed.

Lemma pulling_phase d p :
  pulling rels d ->
  match p with DWaiting _ | DSpinning | DRejected _ => True | _ => False end ->
  pulling rels (set_phase p d).
Proof. intros (Hpo & Hr & Hl & Hf & _) Hp. done. Qed.

Lemma pulling_reject d err : pulling rels d -> pulling rels (reject err d).
Proof. intros H. unfold reject. destruct (rejection d); exact H. Qed.

Lemma finish_draining e d : pulling rels d -> draining rels (finish v e d).
Proof.
  intros (Hpo & Hr & Hl & Hf & _). unfold finish. rewrite Hpo.
  apply (drain_draining _ _ _ []); done.
Qed.

Lemma pull_ordered fuel e d :
  pulling rels d ->
  pulling rels (snd (pull fuel v rels e d))
  \/ draining rels (snd (pull fuel v rels e d)).
Proof.
  revert e d. induction fuel as [|k IH]; intros e d Hd.
  - left. by apply pulling_phase.
  - cbn [pull]. destruct (cursor_next e) as [e1 y].
    assert (Hres :
      pulling rels (snd (let '(e2, r) := cursor_then e1 in
                    match filteringConsumer v rels r d with
                    | (d', Some err) => (e2, set_phase (DRejected err) (reject err d'))
                    | (d', None) => pull k v rels e2 d'
                    end))
      \/ draining rels (snd (let '(e2, r) := cursor_then e1 in
                    match filteringConsumer v rels r d with
                    | (d', Some err) => (e2, set_phase (DRejected err) (reject err d'))
                    | (d', None) => pull k v rels e2 d'
                    end))).
    { destruct (cursor_then e1) as [e2 r].
      destruct (queued_pulling r d Hd) as (d' & -> & Hd' & _). by apply IH. }
    destruct y as [[rid|]| |].
    + destruct (promises e1 !! rid) as [[| |err]|]; cbn.
      * left. by apply pulling_phase.
      * exact Hres.
      * left. apply pulling_phase; [by apply pulling_reject|done].
      * left. by apply pulling_phase.
    + exact Hres.
    + right. by apply finish_draining.
    + right. by apply finish_draining.
Qed.

Lemma sys_step_ordered fuel ev e d :
  pulling rels d \/ draining rels d ->
  pulling rels (snd (sys_step fuel v rels ev (e, d)))
  \/ draining rels (snd (sys_step fuel v rels ev (e, d))).
Proof.
  intros Hd. destruct ev as [rid r|k]; cbn [sys_step].
  - destruct (phase d) as [rid'| | | | |] eqn:Hp; try exact Hd.
    destruct Hd as [Hd|(ran & cur & _ & _ & [(_ & _ & Hq)|(? & ? & ? & ? & _ & _ & Hq)])];
      [|rewrite Hp in Hq; done..].
    destruct (bool_decide (rid' = rid)); [|by left].
    destruct (promises (arrive rid r e) !! rid) as [[| |err]|]; try by left.
    + destruct (cursor_then (arrive rid r e)) as [e2 x].
      destruct (queued_pulling x d Hd) as (d' & -> & Hd' & _).
      by apply pull_ordered.
    + left. apply pulling_phase; [by apply pulling_reject|done].
  - destruct Hd as [Hd|(ran & cur & Hl & Hf
                        & [(Hc & Hr & Hq)|(r & m & ok & next & -> & Hr & Hp)])].
    + pose proof Hd as (_ & Hr & _). rewrite Hr, lookup_nil. cbn. by left.
    + rewrite Hr, lookup_nil. cbn. right. exists ran, cur.
      split; [done|]. split; [done|]. left. done.
    + destruct k as [|k].
      2:{ rewrite Hr. cbn. rewrite ?lookup_nil. cbn. right. exists ran, [(r, m)].
          split; [done|]. split; [done|]. right. exists r, m, ok, next. done. }
      right.
      change (draining rels (snd (sys_step fuel v rels (Settles 0) (e, d)))).
      rewrite (settle_awaited fuel e d r ok next [] Hr). cbn [snd].
      assert (Hq : forall d2, queue d2 = queue d -> running d2 = [] ->
                vlog d2 = vlog d ++ [EvEnd r] ->
                draining rels (drain v next (queue d) d2)).
      { intros d2 Hq2 Hr2 Hl2.
        apply (drain_draining _ _ _ (ran ++ [(r, m)])); [done| |].
        - rewrite Hl2, Hl. apply (ordered_log_end ran r m (queue d)).
        - by rewrite <- app_assoc. }
      destruct ok.
      * exact (Hq (log (EvEnd r) (set_running [] d)) eq_refl eq_refl eq_refl).
      * unfold reject. cbn. destruct (rejection d).
        -- exact (Hq (log (EvEnd r) (set_running [] d)) eq_refl eq_refl eq_refl).
        -- exact (Hq (set_rejection (Some visitor_error)
                        (log (EvEnd r) (set_running [] d)))
                    eq_refl eq_refl eq_refl).
Qed.

Lemma sys_run_ordered fuel evs s :
  pulling rels (snd s) \/ draining rels (snd s) ->
  pulling rels (snd (sys_run fuel v rels evs s))
  \/ draining rels (snd (sys_run fuel v rels evs s)).
Proof.
  revert s. induction evs as [|ev evs IH]; intros [e d] Hs; [exact Hs|].
  change (sys_run fuel v rels (ev :: evs) (e, d))
    with (sys_run fuel v rels evs (sys_step fuel v rels ev (e, d))).
  apply IH. apply sys_step_ordered. exact Hs.
Qed.
End Ordered.


(** ** An ordered [consume], served lazily *)

Lemma owed_pulls_nil n c : owed_pulls n c [] [] = [].
Proof. unfold owed_pulls. destruct (n =? -1)%Z; [reflexivity|apply firstn_nil]. Qed.

Lemma owed_pulls_cap n c b rest : room n c = false -> owed_pulls n c b rest = [].
Proof.
  unfold room, owed_pulls. intros H. apply orb_false_iff in H as [-> H].
  replace (Z.to_nat (n - c)) with 0%nat by lia. reflexivity.
Qed.

Lemma owed_pulls_cons n c x b rest :
  room n c = true ->
  owed_pulls n c (x :: b) rest = x :: owed_pulls n (c + 1) b rest.
Proof.
  unfold room, owed_pulls. intros H.
  destruct (n =? -1)%Z; [reflexivity|]. cbn in H.
  replace (Z.to_nat (n - c)) with (S (Z.to_nat (n - (c + 1)))) by lia.
  reflexivity.
Qed.

Lemma owed_pulls_page n c p rest :
  owed_pulls n c [] (p :: rest) = owed_pulls n c (page_pulls p) rest.
Proof. reflexivity. Qed.

Lemma page_pulls_length p : (length p <= length (page_pulls p))%nat.
Proof. destruct p; cbn; lia. Qed.

Lemma queued_refl rels d : preserveOrder d = true -> queued rels [] d d.
Proof. intros H. unfold queued. cbn. rewrite !app_nil_r. done. Qed.

Lemma queued_trans rels l1 l2 d d1 d2 :
  queued rels l1 d d1 -> queued rels l2 d1 d2 -> queued rels (l1 ++ l2) d d2.
Proof.
  intros (_ & H2 & H3 & H4 & H5) (I1 & I2 & I3 & I4 & I5). unfold queued.
  unfold resources. rewrite omap_app, !map_app, !app_assoc.
  rewrite I2, I3, I4, I5, H2, H3, H4, H5. done.
Qed.

Lemma queued_phase rels l d d' p :
  queued rels l d d' -> queued rels l d (set_phase p d').
Proof. intros H. exact H. Qed.

Section OrderedRun.
Variable docs : gmap string Doc.
Variable v : visitor.
Variable rels : option relspec.
Variable n : Z.

Lemma room_under e c : limit e = n -> under_limit c e = room n c.
Proof. intros <-. reflexivity. Qed.

Lemma advance_filled_any rest e :
  lazy_any docs n rest e -> buffer e <> [] ->
  exists e1, advance e = (e1, Immediate)
             /\ lazy_any docs n rest e1
             /\ buffer e1 = buffer e /\ count e1 = count e.
Proof.
  intros (Hlim & Hfin & Htot & Hst) Hb.
  destruct Hst as [(Hi & Hq & Ho & [[Hl Hr]|(u & Hl & Hch)])|(u & rid & Hl & Hch & Hi & Hq & Ho & Hp)].
  - exists e. rewrite (advance_quiet e (may_request_nolink e Hl)).
    split; [destruct (buffer e); [done|reflexivity]|].
    split; [|done]. unfold lazy_any. repeat (split; [done|]). left. eauto 10.
  - pose proof (chain_truthy _ _ _ Hch) as Hu.
    destruct (under_limit (total e) e) eqn:Hul.
    + rewrite (advance_request e u Hl) by
        (try done; by rewrite (may_request_idle e u Hl Hu Hi)).
      eexists. split; [destruct (buffer e); [done|reflexivity]|].
      split; [|done]. unfold lazy_any. cbn. repeat (split; [done|]).
      right. exists u, (length (promises e)). rewrite Hi, Ho.
      repeat split; try done.
      * apply union_empty_r_L.
      * apply list_lookup_middle. reflexivity.
    + exists e. rewrite (advance_quiet e) by
        (by rewrite (may_request_idle e u Hl Hu Hi)).
      split; [destruct (buffer e); [done|reflexivity]|].
      split; [|done]. unfold lazy_any. repeat (split; [done|]). left. eauto 10.
  - exists e. rewrite (advance_quiet e (may_request_flying e u Hl Hi)).
    split; [destruct (buffer e); [done|reflexivity]|].
    split; [|done]. unfold lazy_any. repeat (split; [done|]). right. eauto 10.
Qed.

Lemma lazy_any_then rest e x b' :
  lazy_any docs n rest e -> buffer e = x :: b' ->
  cursor_then e = (set_buffer b' (set_count (count e + 1) e), x)
  /\ lazy_any docs n rest (set_buffer b' (set_count (count e + 1) e)).
Proof.
  intros (Hlim & Hfin & Htot & Hst) Hb.
  split; [unfold cursor_then; cbn; rewrite Hb; reflexivity|].
  unfold lazy_any. cbn. rewrite Hb in Htot. cbn [length] in Htot.
  split; [done|]. split; [done|]. split; [lia|exact Hst].
Qed.

(** One run of [pull] in the ordered mode, from the state between two
    pulls up to the end of the pull phase or to the wait for the next
    page: what the cursor hands over is queued, and nothing else
    happens to the driver. *)
Lemma ordered_segment k : forall e d rest,
  lazy_any docs n rest e -> preserveOrder d = true ->
  (length (buffer e) + 2 <= k)%nat ->
  (exists e' d',
      pull k v rels e d = (e', finish v e' d')
      /\ queued rels (owed_pulls n (count e) (buffer e) rest) d d')
  \/ (exists rid u e1 d1,
        pull k v rels e d = (e1, d1)
        /\ phase d1 = DWaiting rid
        /\ queued rels (buffer e) d d1
        /\ waiting_any docs n rest e1 rid u
        /\ owed_pulls n (count e) (buffer e) rest
           = buffer e ++ owed_pulls n (count e1) [] rest).
Proof.
  induction k as [|k IH]; intros e d rest Hinv Hpo Hk; [lia|].
  pose proof Hinv as (Hlim & Hfin & Htot & Hst).
  assert (Hul : forall x, under_limit x e = room n x)
    by (intros x; by apply room_under).
  assert (Hcap : canContinue e = true -> room n (count e) = false ->
            exists e' d',
              pull (S k) v rels e d = (e', finish v e' d')
              /\ queued rels (owed_pulls n (count e) (buffer e) rest) d d').
  { intros Hcan Hroom. exists e, d. cbn [pull].
    rewrite (cursor_next_cap e Hfin Hcan) by (by rewrite Hul).
    split; [reflexivity|]. rewrite owed_pulls_cap by done. by apply queued_refl. }
  destruct (buffer e) as [|x b'] eqn:Hb.
  - cbn [length] in Htot.
    assert (Hwait : forall u rid e1,
              cursor_next e = (e1, YPromise (AwaitRequest rid)) ->
              promises e1 !! rid = Some Pending ->
              waiting_any docs n rest e1 rid u -> count e1 = count e ->
              exists rid u e1 d1,
                pull (S k) v rels e d = (e1, d1)
                /\ phase d1 = DWaiting rid
                /\ queued rels [] d d1
                /\ waiting_any docs n rest e1 rid u
                /\ owed_pulls n (count e) [] rest
                   = [] ++ owed_pulls n (count e1) [] rest).
    { intros u rid e1 Hn Hp Ha Hc. exists rid, u, e1, (set_phase (DWaiting rid) d).
      cbn [pull]. rewrite Hn, Hp. split; [reflexivity|]. split; [reflexivity|].
      split; [by apply queued_phase, queued_refl|]. split; [exact Ha|].
      by rewrite Hc. }
    destruct Hst as [(Hi & Hq & Ho & [[Hl Hr]|(u & Hl & Hch)])|(u & rid & Hl & Hch & Hi & Hq & Ho & Hp)].
    + left. exists (set_finished true e), d. cbn [pull].
      rewrite (cursor_next_end e Hfin (canContinue_nothing e Hb Hi Hl)).
      split; [reflexivity|]. subst rest. rewrite owed_pulls_nil.
      by apply queued_refl.
    + pose proof (chain_truthy _ _ _ Hch) as Hu.
      destruct (room n (count e)) eqn:Hroom.
      * assert (Hreq : under_limit (total e) e = true).
        { rewrite Hul. unfold room in *.
          destruct (n =? -1)%Z; [reflexivity|]. cbn in *. lia. }
        right. apply (Hwait u (length (promises e))
                        (set_collectionRequests [] (fst (doRequest u e)))).
        -- rewrite (cursor_next_advance e Hfin (canContinue_link e u Hl Hu))
             by (by rewrite Hul).
           rewrite (advance_request e u Hl) by
             (try done; by rewrite (may_request_idle e u Hl Hu Hi)).
           rewrite Hb. reflexivity.
        -- cbn. apply list_lookup_middle. reflexivity.
        -- unfold waiting_any. cbn. rewrite Hi, Ho, Hb in *.
           repeat split; try done; try lia.
           ++ apply union_empty_r_L.
           ++ apply list_lookup_middle. reflexivity.
        -- reflexivity.
      * left. apply Hcap; [by apply (canContinue_link e u)|done].
    + pose proof (chain_truthy _ _ _ Hch) as Hu.
      destruct (room n (count e)) eqn:Hroom.
      * right. apply (Hwait u rid (set_collectionRequests [] e)).
        -- rewrite (cursor_next_advance e Hfin (canContinue_link e u Hl Hu))
             by (by rewrite Hul).
           rewrite (advance_quiet e (may_request_flying e u Hl Hi)), Hb, Hq.
           reflexivity.
        -- exact Hp.
        -- unfold waiting_any. cbn. rewrite Hb in *.
           repeat split; try done; try lia.
        -- reflexivity.
      * left. apply Hcap; [by apply (canContinue_link e u)|done].
  - assert (Hcan : canContinue e = true) by (apply canContinue_buffer; by rewrite Hb).
    destruct (room n (count e)) eqn:Hroom; [|left; by apply Hcap].
    destruct (advance_filled_any rest e Hinv) as (e1 & Ha & Hinv1 & Hb1 & Hc1);
      [by rewrite Hb|].
    rewrite Hb in Hb1.
    destruct (lazy_any_then rest e1 x b' Hinv1 Hb1) as [Ht Hinv2].
    destruct (ordered_visit v rels x d Hpo) as (d1 & Hv & Hq1 & _).
    assert (Hpull : pull (S k) v rels e d
                    = pull k v rels (set_buffer b' (set_count (count e1 + 1) e1)) d1).
    { cbn [pull].
      rewrite (cursor_next_advance e Hfin Hcan) by (by rewrite Hul).
      rewrite Ha. cbn [fst snd]. rewrite Ht, Hv. reflexivity. }
    rewrite Hpull. cbn [length] in Hk.
    pose proof Hq1 as (Hpo1 & _).
    destruct (IH (set_buffer b' (set_count (count e1 + 1) e1)) d1 rest Hinv2 Hpo1)
      as [(e' & d' & Hp' & Hq')|(rid & u & e2 & d2 & Hp' & Hph & Hq' & Hw & Ho)];
      [cbn; lia| |]; cbn [buffer count set_buffer set_count] in *.
    + left. exists e', d'. split; [exact Hp'|].
      rewrite owed_pulls_cons by done. rewrite <- Hc1.
      apply (queued_trans rels [x] _ d d1 d'); done.
    + right. exists rid, u, e2, d2. split; [exact Hp'|]. split; [exact Hph|].
      split; [apply (queued_trans rels [x] b' d d1 d2); done|].
      split; [exact Hw|].
      rewrite owed_pulls_cons by done. rewrite <- Hc1, Ho. reflexivity.
Qed.

#[local] Arguments filteringConsumer : simpl never.

(** The answer for the awaited page: its elements enter the buffer, the
    first of them (or [null], when the page is empty) is handed over,
    and the pull loop starts again. *)
Lemma ordered_arrival F p rest e d rid u :
  waiting_any docs n (p :: rest) e rid u ->
  phase d = DWaiting rid -> preserveOrder d = true ->
  exists x b' e2 d2,
    page_pulls p = x :: b'
    /\ sys_step F v rels (Arrives rid (serve docs u)) (e, d) = pull F v rels e2 d2
    /\ queued rels [x] d d2
    /\ lazy_any docs n rest e2 /\ buffer e2 = b'
    /\ count e2 = (count e + 1)%Z.
Proof.
  intros (Hlim & Hfin & Hb & Htot & Hroom & Hl & Hch & Hi & Hq & Ho & Hp) Hph Hpo.
  assert (Hrid : (rid < length (promises e))%nat) by (by eapply lookup_lt_Some).
  assert (Hstep : forall doc data nxt,
            docs !! u = Some doc -> doc_data doc = Some data ->
            doc_links doc = Some nxt -> resources_of data = p ->
            exists x b' e2 d2,
              page_pulls p = x :: b'
              /\ sys_step F v rels (Arrives rid (serve docs u)) (e, d)
                 = pull F v rels e2 d2
              /\ queued rels [x] d d2
              /\ limit e2 = n /\ finished e2 = false
              /\ (total e2 <= count e2 + Z.of_nat (length (buffer e2)))%Z
              /\ inFlight e2 = ∅ /\ collectionRequests e2 = []
              /\ outstanding e2 = [] /\ link e2 = or_false nxt
              /\ buffer e2 = b' /\ count e2 = (count e + 1)%Z).
  { intros doc data nxt Hdoc Hdata Hlinks Hres.
    assert (Hthen : doRequest_then rid u (RespOk doc) (set_outstanding [] e)
               = set_promises (<[rid := Done]> (promises e))
                   (set_buffer p
                      (set_total (total e + Z.of_nat (length p))%Z
                         (set_link (or_false nxt)
                            (set_inFlight (inFlight e ∖ {[u]})
                               (set_outstanding [] e)))))).
    { rewrite (doRequest_then_page rid u doc data nxt _ Hdata Hlinks).
      cbn. rewrite Hb, Hres. reflexivity. }
    assert (Hsys : forall x d2,
              filteringConsumer v rels x d = (d2, None) ->
              snd (cursor_then
                     (doRequest_then rid u (RespOk doc) (set_outstanding [] e))) = x ->
              sys_step F v rels (Arrives rid (serve docs u)) (e, d)
              = pull F v rels
                  (fst (cursor_then
                          (doRequest_then rid u (RespOk doc) (set_outstanding [] e))))
                  d2).
    { intros x d2 Hv Hx. unfold sys_step, serve.
      rewrite Hdoc, Hph, (arrive_single rid u _ e Ho).
      rewrite bool_decide_eq_true_2 by reflexivity.
      replace (promises (doRequest_then rid u (RespOk doc) (set_outstanding [] e))
                 !! rid) with (Some Done)
        by (rewrite Hthen; cbn; by rewrite list_lookup_insert_eq).
      destruct (cursor_then _) as [e2 x']. cbn [fst snd] in *. subst x'.
      rewrite Hv. reflexivity. }
    rewrite Hthen in Hsys.
    destruct p as [|r b''].
    - destruct (ordered_visit v rels None d Hpo) as (d2 & Hv & Hq2 & _).
      exists None, []. eexists. exists d2. split; [reflexivity|].
      split; [apply (Hsys None d2 Hv); reflexivity|]. split; [exact Hq2|].
      cbn. rewrite Hi. repeat split; try done; try lia.
      apply difference_diag_L.
    - destruct (ordered_visit v rels r d Hpo) as (d2 & Hv & Hq2 & _).
      exists r, b''. eexists. exists d2. split; [reflexivity|].
      split; [apply (Hsys r d2 Hv); reflexivity|]. split; [exact Hq2|].
      cbn. rewrite Hi. repeat split; try done; try lia.
      apply difference_diag_L. }
  inversion Hch as [u0 doc data nxt Hu Hdoc Hdata Hlinks Hnxt Heq
                   |u0 doc data u' rest0 Hu Hdoc Hdata Hlinks Hu' Hrest Heq];
    subst.
  - destruct (Hstep doc data nxt Hdoc Hdata Hlinks eq_refl)
      as (x & b' & e2 & d2 & H1 & H2 & H3 & H4 & H5 & H6 & H7 & H8 & H9 & H10
          & H11 & H12).
    exists x, b', e2, d2. repeat (split; [done|]). split; [|done].
    unfold lazy_any. repeat (split; [done|]). left.
    repeat (split; [done|]). left. rewrite H10, Hnxt. done.
  - destruct (Hstep doc data (Some u') Hdoc Hdata Hlinks eq_refl)
      as (x & b' & e2 & d2 & H1 & H2 & H3 & H4 & H5 & H6 & H7 & H8 & H9 & H10
          & H11 & H12).
    exists x, b', e2, d2. repeat (split; [done|]). split; [|done].
    unfold lazy_any. repeat (split; [done|]). left.
    repeat (split; [done|]). right. exists u'. split; [|done].
    rewrite H10. unfold or_false. by rewrite Hu'.
Qed.

(** The pull phase of a lazily served ordered [consume]: everything the
    cursor hands over is queued, and then the drain begins. *)
Lemma ordered_pull_phase F : forall rest steps k e d,
  lazy_any docs n rest e -> preserveOrder d = true ->
  (length (buffer e) + 2 <= k)%nat ->
  (length (flat_map page_pulls rest) + 2 <= F)%nat ->
  (length rest <= steps)%nat ->
  exists e' d' j,
    (j <= length rest)%nat
    /\ run_lazy steps F v rels docs (pull k v rels e d)
       = run_lazy (steps - j) F v rels docs (e', finish v e' d')
    /\ queued rels (owed_pulls n (count e) (buffer e) rest) d d'.
Proof.
  induction rest as [|p rest IH]; intros steps k e d Hinv Hpo Hk HF Hsteps.
  - destruct (ordered_segment k e d [] Hinv Hpo Hk)
      as [(e' & d' & Hp & Hq)|(rid & u & e1 & d1 & _ & _ & _ & Hw & _)].
    + exists e', d', 0%nat. rewrite Hp, Nat.sub_0_r. done.
    + destruct Hw as (_ & _ & _ & _ & _ & _ & Hch & _).
      by apply chain_nonempty in Hch.
  - destruct (ordered_segment k e d (p :: rest) Hinv Hpo Hk)
      as [(e' & d' & Hp & Hq)|(rid & u & e1 & d1 & Hp & Hph & Hq1 & Hw & Ho)].
    + exists e', d', 0%nat. rewrite Hp, Nat.sub_0_r. split; [lia|done].
    + rewrite Hp. destruct steps as [|steps]; [cbn in Hsteps; lia|].
      cbn [run_lazy fst snd]. rewrite Hph.
      pose proof Hw as (_ & _ & _ & _ & _ & _ & _ & _ & _ & Hout & _).
      rewrite (url_of_single rid u e1 Hout).
      pose proof Hq1 as (Hpo1 & _).
      destruct (ordered_arrival F p rest e1 d1 rid u Hw Hph Hpo1)
        as (x & b' & e2 & d2 & Hpp & Hs & Hq2 & Hinv2 & Hb2 & Hc2).
      rewrite Hs. pose proof Hq2 as (Hpo2 & _).
      cbn [flat_map length] in HF, Hsteps. rewrite length_app, Hpp in HF.
      cbn [length] in HF.
      destruct (IH steps F e2 d2 Hinv2 Hpo2) as (e' & d' & j & Hj & Hrun & Hq3);
        [rewrite Hb2; lia|lia|lia|].
      exists e', d', (S j). split; [cbn [length]; lia|]. split; [exact Hrun|].
      rewrite Ho, owed_pulls_page, Hpp.
      pose proof Hw as (_ & _ & _ & _ & Hroom & _).
      rewrite owed_pulls_cons by done. rewrite <- Hc2, <- Hb2.
      apply (queued_trans rels (buffer e) _ d d1 d'); [exact Hq1|].
      apply (queued_trans rels [x] _ d1 d2 d'); done.
Qed.

(** The drain under the lazy schedule, for any visitor: the thunks run
    one after the other up to the first that throws, each to its end
    before the next starts. *)
Lemma drain_log F e next : forall q d steps,
  (length q <= steps)%nat -> running d = [] ->
  fst (run_lazy steps F v rels docs (e, drain v next q d)) = e
  /\ vlog (snd (run_lazy steps F v rels docs (e, drain v next q d)))
     = vlog d ++ flat_map invocation (thunks_run v q)
  /\ queue (snd (run_lazy steps F v rels docs (e, drain v next q d)))
     = drop (length (thunks_run v q)) q
  /\ phase (snd (run_lazy steps F v rels docs (e, drain v next q d)))
     = match (match rejection d with
              | Some err => Some err
              | None => if existsb (rejects v) (thunks_run v q)
                        then Some visitor_error else None
              end) with
       | Some err => DRejected err
       | None => if existsb (throws v) q then DHung else DResolved next
       end.
Proof.
  induction q as [|[r m] q IH]; intros d steps Hlen Hrun.
  - cbn [drain thunks_run existsb flat_map length drop].
    assert (Hstop : run_lazy steps F v rels docs
                      (e, set_phase (match rejection d with
                                     | Some err => DRejected err
                                     | None => DResolved next
                                     end) (set_queue [] d))
                    = (e, set_phase (match rejection d with
                                     | Some err => DRejected err
                                     | None => DResolved next
                                     end) (set_queue [] d))).
    { destruct steps; [reflexivity|]. cbn [run_lazy snd phase set_phase].
      unfold drain_awaits. cbn [running set_phase set_queue]. rewrite Hrun.
      destruct (rejection d); reflexivity. }
    rewrite Hstop. cbn [fst snd vlog queue phase set_phase set_queue].
    rewrite app_nil_r. destruct (rejection d); done.
  - assert (Ht : throws v (r, m)
                 = match v r m with VThrow => true | _ => false end)
      by reflexivity.
    assert (Hj : rejects v (r, m)
                 = match v r m with VPromise false => true | _ => false end)
      by reflexivity.
    cbn [drain thunks_run length existsb] in *. rewrite Ht.
    destruct (v r m) as [|ok|] eqn:Hvr.
    + destruct (IH (log (EvEnd r) (log (EvStart r m) (set_queue q d))) steps)
        as (He & Hl & Hq & Hph); [lia|exact Hrun|].
      cbn [existsb flat_map invocation length drop fst snd orb]. rewrite Hj.
      cbn [orb].
      split; [exact He|]. split; [rewrite Hl; cbn; by rewrite <- !app_assoc|].
      split; [exact Hq|exact Hph].
    + destruct steps as [|steps]; [lia|].
      set (p := match rejection d with
                | Some err => DRejected err
                | None => DDraining next
                end).
      set (d1 := set_phase p (set_running [(r, ok, Some next)]
                                (log (EvStart r m) (set_queue q d)))).
      set (d2 := if ok
                 then log (EvEnd r) (set_running [] d1)
                 else reject visitor_error (log (EvEnd r) (set_running [] d1))).
      assert (Hstep : run_lazy (S steps) F v rels docs (e, d1)
                      = run_lazy steps F v rels docs (e, drain v next q d2)).
      { cbn [run_lazy snd]. change (phase d1) with p.
        change (drain_awaits d1) with true.
        rewrite (settle_awaited v rels F e d1 r ok next []) by reflexivity.
        unfold p. destruct (rejection d); reflexivity. }
      assert (Hrun2 : running d2 = []).
      { unfold d2, reject. destruct ok; [reflexivity|]. cbn.
        destruct (rejection d); reflexivity. }
      assert (Hv2 : vlog d2 = vlog d ++ [EvStart r m; EvEnd r]).
      { unfold d2, reject. destruct ok; cbn; [|destruct (rejection d); cbn];
          by rewrite <- app_assoc. }
      assert (Hr2 : rejection d2
                    = match rejection d with
                      | Some err => Some err
                      | None => if ok then None else Some visitor_error
                      end).
      { unfold d2, reject. destruct ok; cbn; destruct (rejection d) eqn:Hrd; cbn;
          rewrite ?Hrd; reflexivity. }
      rewrite Hstep.
      destruct (IH d2 steps) as (He & Hl & Hq & Hph); [lia|exact Hrun2|].
      cbn [existsb flat_map invocation length drop fst snd orb]. rewrite Hj.
      split; [exact He|]. split; [rewrite Hl, Hv2; by rewrite <- app_assoc|].
      split; [exact Hq|]. rewrite Hph, Hr2.
      destruct (rejection d); [reflexivity|]. destruct ok; reflexivity.
    + assert (Hstop : forall p,
                match p with DRejected _ | DHung => True | _ => False end ->
                run_lazy steps F v rels docs
                  (e, set_phase p (log (EvEnd r) (log (EvStart r m) (set_queue q d))))
                = (e, set_phase p (log (EvEnd r) (log (EvStart r m) (set_queue q d))))).
      { intros p Hp. destruct steps; [reflexivity|]. cbn [run_lazy snd phase set_phase].
        unfold drain_awaits. cbn [running set_phase set_queue log]. rewrite Hrun.
        destruct p; done. }
      rewrite Hstop by (destruct (rejection d); done).
      cbn [fst snd vlog queue phase set_phase set_queue log existsb flat_map
           invocation length drop app orb]. rewrite Hj. cbn [orb].
      split; [reflexivity|]. split; [by rewrite <- app_assoc|].
      split; [reflexivity|]. destruct (rejection d); reflexivity.
Qed.

Lemma lazy_any_paginate url pages :
  chain docs url pages ->
  lazy_any docs n pages (paginate url n)
  /\ buffer (paginate url n) = [] /\ count (paginate url n) = 0%Z.
Proof.
  intros Hch. pose proof (chain_truthy _ _ _ Hch) as Hu.
  destruct (decide (n = -1 \/ 0 < n)%Z) as [Hn|Hn].
  - rewrite (paginate_requests url n Hu Hn). cbn. split; [|done].
    unfold lazy_any. cbn. repeat (split; [done|]). right.
    exists url, 0%nat. repeat split; try done. apply union_empty_r_L.
  - assert (Hp : paginate url n
             = {| buffer := []; total := 0%Z; inFlight := ∅; link := Some url;
                  limit := n; count := 0%Z; collectionRequests := [];
                  finished := false; promises := []; outstanding := [];
                  issued := [] |}).
    { unfold paginate, may_request, under_limit. cbn.
      replace ((n =? -1)%Z || (0 <? n)%Z) with false; [by rewrite andb_false_r|].
      symmetry. apply orb_false_iff. split; lia. }
    rewrite Hp. cbn. split; [|done].
    unfold lazy_any. cbn. repeat (split; [done|]). left. eauto 10.
Qed.
End OrderedRun.

(** C6: in the ordered mode the visitor is not called while elements
    arrive: each element is queued, in arrival order, with the
    arguments the visitor is to get; once the pulls are over the queued
    invocations run in that order, each to its end before the next
    starts.  Under every schedule of transport answers and settling
    promises, from any engine: the log is the queueing of the arrived
    elements, then the complete invocations of a prefix of them in
    arrival order, then at most one invocation that has started and not
    ended, which is the one whose promise the drain awaits; while the
    call waits for a page nothing has started, and once it has resolved
    every queued invocation has run.  And for a chain of pages that a
    transport serves as the driver waits for them, with promises that
    settle when awaited: every element the cursor hands over is queued
    in page order, and all the queued invocations are run in that same
    order, up to the first that throws, if one does. *)
Theorem ordered_consume_is_serialized fuel v rels :
  (forall e evs,
     let d := snd (sys_run fuel v rels evs (consume fuel v true rels e)) in
     exists ran cur,
       vlog d = ordered_log (ran ++ cur ++ queue d) ran cur
       /\ Forall (fun x => x = decorated rels (fst x)) (ran ++ cur ++ queue d)
       /\ map (fun p => fst (fst p)) (running d) = map fst cur
       /\ (length cur <= 1)%nat
       /\ (forall rid, phase d = DWaiting rid -> ran = [] /\ cur = [])
       /\ (forall next, phase d = DResolved next -> cur = [] /\ queue d = []))
  /\ (forall docs n url pages steps,
        chain docs url pages ->
        (length (flat_map page_pulls pages) + 2 <= fuel)%nat ->
        (length pages + length (flat_map page_pulls pages) <= steps)%nat ->
        let s := run_lazy steps fuel v rels docs
                   (consume fuel v true rels (paginate url n)) in
        let xs := map (decorated rels) (resources (pulled n pages)) in
        vlog (snd s) = ordered_log xs (thunks_run v xs) []
        /\ queue (snd s) = drop (length (thunks_run v xs)) xs
        /\ exists next,
            phase (snd s)
            = if existsb (rejects v) (thunks_run v xs) then DRejected visitor_error
              else if existsb (throws v) xs then DHung
              else DResolved next).
Proof.
  split.
  - intros e evs. cbn zeta.
    assert (H0 : pulling rels (snd (consume fuel v true rels e))
                 \/ draining rels (snd (consume fuel v true rels e))).
    { unfold consume. apply pull_ordered. unfold pulling. cbn.
      repeat split; try done. }
    destruct (sys_run_ordered v rels fuel evs _ H0)
      as [(Hpo & Hr & Hl & Hf & Hp)
         |(ran & cur & Hl & Hf
           & [(-> & Hr & Hq)|(r & m & ok & next & -> & Hr & Hp)])].
    + exists [], []. cbn. split; [exact Hl|]. split; [exact Hf|].
      split; [by rewrite Hr|]. split; [lia|].
      split; [done|]. intros next Hn. rewrite Hn in Hp. done.
    + exists ran, []. split; [exact Hl|]. split; [exact Hf|]. cbn.
      split; [by rewrite Hr|]. split; [lia|].
      split; intros x Hx; rewrite Hx in Hq; done.
    + exists ran, [(r, m)]. split; [exact Hl|]. split; [exact Hf|]. cbn.
      split; [by rewrite Hr|]. split; [lia|].
      split; intros x Hx; rewrite Hx in Hp; done.
  - intros docs n url pages steps Hch Hfuel Hsteps. cbn zeta.
    destruct (lazy_any_paginate docs n url pages Hch) as (Hinv & Hb & Hc).
    unfold consume.
    match goal with
    | |- context [pull fuel v rels ?e ?d] =>
        destruct (ordered_pull_phase docs v rels n fuel pages steps fuel e d Hinv)
          as (e' & d' & j & Hj & Hrun & (Hpo & Hr & Hrej & Hq & Hl))
    end; [reflexivity|rewrite Hb; cbn; lia|lia|lia|].
    rewrite Hb, Hc in Hq, Hl. cbn [queue vlog running rejection app] in *.
    assert (Hpulled : owed_pulls n 0 [] pages = pulled n pages).
    { unfold owed_pulls, pulled. by rewrite Z.sub_0_r. }
    rewrite Hpulled in Hq, Hl.
    rewrite Hrun. unfold finish. rewrite Hpo.
    assert (Hlen : (length (queue d') <= steps - j)%nat).
    { rewrite Hq, length_map.
      pose proof (resources_length (pulled n pages)).
      assert (length (pulled n pages) <= length (flat_map page_pulls pages))%nat.
      { unfold pulled. destruct (n =? -1)%Z; [lia|]. rewrite length_firstn. lia. }
      lia. }
    destruct (drain_log docs v rels fuel e'
                (if canContinue e' then AddMore else NoMore)
                (queue d') d' (steps - j) Hlen Hr) as (_ & Hvl & Hqu & Hph).
    rewrite Hvl, Hqu, Hph, Hrej, Hl, Hq.
    split; [|split; [reflexivity|]].
    + unfold ordered_log. cbn. rewrite app_nil_r, map_map. reflexivity.
    + exists (if canContinue e' then AddMore else NoMore).
      repeat case_match; simplify_eq; reflexivity.
Qed.

(** ** Every [consume] is a sequence of primitive steps *)

Lemma op_run_app ops1 ops2 e : op_run (ops1 ++ ops2) e = op_run ops2 (op_run ops1 e).
Proof. apply fold_left_app. Qed.

Lemma pull_ops fuel v rels e d :
  exists ops, fst (pull fuel v rels e d) = op_run ops e.
Proof.
  revert e d. induction fuel as [|k IH]; intros e d; [by exists []|].
  cbn [pull].
  assert (Hres : forall e1, e1 = fst (cursor_next e) ->
    exists ops,
      fst (let '(e2, r) := cursor_then e1 in
           match filteringConsumer v rels r d with
           | (d', Some err) => (e2, set_phase (DRejected err) (reject err d'))
           | (d', None) => pull k v rels e2 d'
           end) = op_run ops e).
  { intros e1 ->. destruct (cursor_then (fst (cursor_next e))) as [e2 r] eqn:Ht.
    assert (He2 : e2 = op_run [OpNext; OpThen] e) by (cbn; by rewrite Ht).
    destruct (filteringConsumer v rels r d) as [d' [err|]].
    - exists [OpNext; OpThen]. exact He2.
    - destruct (IH e2 d') as [ops Hops].
      exists ([OpNext; OpThen] ++ ops). rewrite op_run_app, <- He2. exact Hops. }
  destruct (cursor_next e) as [e1 y] eqn:Hn.
  assert (He1 : e1 = op_run [OpNext] e) by (cbn; by rewrite Hn).
  destruct y as [[rid|]| |]; try (exists [OpNext]; exact He1).
  - destruct (promises e1 !! rid) as [[| |err]|]; try (exists [OpNext]; exact He1).
    by apply Hres.
  - by apply Hres.
Qed.

Lemma sys_step_ops fuel v rels ev e d :
  exists ops, fst (sys_step fuel v rels ev (e, d)) = op_run ops e.
Proof.
  destruct ev as [rid r|k]; cbn [sys_step].
  - assert (Ha : arrive rid r e = op_run [OpArrive rid r] e) by reflexivity.
    destruct (phase d); try (exists [OpArrive rid r]; exact Ha).
    destruct (bool_decide _); [|exists [OpArrive rid r]; exact Ha].
    destruct (promises (arrive rid r e) !! rid) as [[| |err]|];
      try (exists [OpArrive rid r]; exact Ha).
    destruct (cursor_then (arrive rid r e)) as [e2 x] eqn:Ht.
    assert (He2 : e2 = op_run [OpArrive rid r; OpThen] e) by (cbn; by rewrite Ht).
    destruct (filteringConsumer v rels x d) as [d' [err|]].
    + exists [OpArrive rid r; OpThen]. exact He2.
    + destruct (pull_ops fuel v rels e2 d') as [ops Hops].
      exists ([OpArrive rid r; OpThen] ++ ops). rewrite op_run_app, <- He2. exact Hops.
  - exists []. destruct (running d !! k) as [[[r ok] [next|]]|]; reflexivity.
Qed.

Lemma sys_run_ops fuel v rels evs s :
  exists ops, fst (sys_run fuel v rels evs s) = op_run ops (fst s).
Proof.
  revert s. induction evs as [|ev evs IH]; intros [e d]; [by exists []|].
  change (sys_run fuel v rels (ev :: evs) (e, d))
    with (sys_run fuel v rels evs (sys_step fuel v rels ev (e, d))).
  destruct (IH (sys_step fuel v rels ev (e, d))) as [ops2 H2].
  destruct (sys_step_ops fuel v rels ev e d) as [ops1 H1].
  exists (ops1 ++ ops2). rewrite op_run_app, H2, H1. reflexivity.
Qed.

(** The engine of a running [consume] never has two fetches in the air. *)
Corollary consume_single_flight fuel v po rels evs link0 limit0 :
  single_flight
    (fst (sys_run fuel v rels evs (consume fuel v po rels (paginate link0 limit0)))).
Proof.
  destruct (sys_run_ops fuel v rels evs
              (consume fuel v po rels (paginate link0 limit0))) as [ops2 H2].
  destruct (pull_ops fuel v rels (paginate link0 limit0)
              {| preserveOrder := po; queue := []; running := []; rejection := None;
                 vlog := []; phase := DSpinning |}) as [ops1 H1].
  rewrite H2. unfold consume. rewrite H1, <- op_run_app.
  apply single_flight_op_run, single_flight_paginate.
Qed.

(** ** Sample runs *)

Lemma ordered_consume_is_serialized_witness :
  let s := run_lazy 6 8 promise_visitor None docs_trailing_empty
             (consume 8 promise_visitor true None (paginate "p1" (-1))) in
  vlog (snd s)
  = [EvQueued (res "a"); EvQueued (res "b");
     EvStart (res "a") None; EvEnd (res "a");
     EvStart (res "b") None; EvEnd (res "b")]
  /\ queue (snd s) = []
  /\ exists next, phase (snd s) = DResolved next.
Proof.
  destruct (ordered_consume_is_serialized 8 promise_visitor None) as [_ H].
  destruct (H docs_trailing_empty (-1)%Z "p1"
              [[Some (res "a"); Some (res "b")]; []] 6%nat)
    as (Hv & Hq & next & Hp).
  - exact chain_trailing_empty.
  - cbn. lia.
  - cbn. lia.
  - cbn zeta. rewrite Hv, Hq, Hp. split; [reflexivity|]. split; [reflexivity|].
    exists next. reflexivity.
Defined.

(** The log of that run, event by event: nothing starts before both
    pages are in, and ["b"] starts only after ["a"] has ended. *)
Lemma ordered_run_log :
  let run evs := snd (sys_run 8 promise_visitor None evs
                        (consume 8 promise_visitor true None (paginate "p1" (-1)))) in
  let p1 := Arrives 0 (serve docs_trailing_empty "p1") in
  let p2 := Arrives 1 (serve docs_trailing_empty "p2") in
  vlog (run [p1]) = [EvQueued (res "a"); EvQueued (res "b")]
  /\ phase (run [p1]) = DWaiting 1
  /\ vlog (run [p1; p2])
     = [EvQueued (res "a"); EvQueued (res "b"); EvStart (res "a") None]
  /\ vlog (run [p1; p2; Settles 0])
     = [EvQueued (res "a"); EvQueued (res "b"); EvStart (res "a") None;
        EvEnd (res "a"); EvStart (res "b") None]
  /\ vlog (run [p1; p2; Settles 0; Settles 0])
     = [EvQueued (res "a"); EvQueued (res "b"); EvStart (res "a") None;
        EvEnd (res "a"); EvStart (res "b") None; EvEnd (res "b")]
  /\ phase (run [p1; p2; Settles 0; Settles 0]) = DResolved NoMore.
Proof. vm_compute. repeat split; reflexivity. Qed.

Lemma one_fetch_per_url_witness :
  let e := op_run [OpNext; OpArrive 0 (serve docs_three "p1"); OpThen; OpNext]
             (paginate "p1" (-1)) in
  NoDup (snd <$> outstanding e)
  /\ NoDup (elements (inFlight e))
  /\ (forall rid u, (rid, u) ∈ outstanding e -> u ∈ inFlight e)
  /\ (forall u, issued (fst (cursor_next e)) = issued e ++ [u] ->
                u ∉ (snd <$> outstanding e)).
Proof.
  exact (one_fetch_per_url "p1" (-1)
           [OpNext; OpArrive 0 (serve docs_three "p1"); OpThen; OpNext]).
Defined.

(** The unordered mode calls the visitor as the elements arrive. *)
Lemma unordered_run_log :
  let s := sys_run 8 plain_visitor None [Arrives 0 (serve docs_trailing_empty "p1")]
             (consume 8 plain_visitor false None (paginate "p1" (-1))) in
  vlog (snd s)
  = [EvStart (res "a") None; EvEnd (res "a"); EvStart (res "b") None; EvEnd (res "b")]
  /\ phase (snd s) = DWaiting 1.
Proof. vm_compute. split; reflexivity. Qed.

(** A resource that carries the requested relationship gets a nested
    sequence over its related link; one that lacks it gets the rejected
    placeholder. *)
Lemma mirror_of_sample :
  let author := [("author", RelObj (Some "author") None None)] in
  let r := {| res_id := "a"; res_related := {[ "author" := "https://example.org/a/author" ]} |} in
  expandRelationships (Some [("author", RelName "author")]) = inr author
  /\ mirror_of author r = [("author", MSeq "https://example.org/a/author" (-1) None)]
  /\ mirror_of author (res "b") = [("author", MRejected)].
Proof. vm_compute. repeat split; reflexivity. Qed.

(** The ordered mode on three pages with cap 4 and a visitor that returns
    promises: the four invocations run one after the other once the
    pulls are over. *)
Lemma ordered_capped_run :
  let s := run_lazy 9 8 promise_visitor None docs_three
             (consume 8 promise_visitor true None (paginate "p1" 4)) in
  vlog (snd s)
  = map EvQueued [res "a"; res "b"; res "c"; res "d"]
    ++ flat_map (fun r => [EvStart r None; EvEnd r])
         [res "a"; res "b"; res "c"; res "d"]
  /\ phase (snd s) = DResolved AddMore
  /\ issued (fst s) = ["p1"; "p2"].
Proof. vm_compute. repeat split; reflexivity. Qed.

(** * Further properties *)

(** ** The constructor and [get] *)

(** X1: when the root document cannot be resolved (transport failure,
    non-ok status, or a [null] body), the constructor logs one line and
    every later request is rejected with that same error: [getLink],
    [all] whatever its options, and [get], which fetches nothing. *)
Theorem root_failure_rejects_every_request base r type id lim sort filter rels
    transport :
  (forall ls, r <> RootOk ls) ->
  snd (constructor base r) = [links_failure]
  /\ exists err,
      links (fst (constructor base r)) = Rejected err
      /\ getLink (fst (constructor base r)) type = (Rejected err, [])
      /\ all (fst (constructor base r)) type lim sort filter rels = (Rejected err, [])
      /\ get (fst (constructor base r)) type id transport = (Rejected err, [], []).
Proof.
  intros Hr. destruct r as [ls| | |]; [by destruct (Hr ls)| | |];
    (split; [reflexivity|]); eexists; repeat split; reflexivity.
Qed.

Lemma root_failure_rejects_every_request_witness :
  all (fst (constructor "https://example.org" (RootNotOk "Forbidden")))
    "node--article" 4 "" "" (Some [])
  = (Rejected (ReferenceError "reject is not defined"), []).
Proof.
  destruct (root_failure_rejects_every_request "https://example.org"
              (RootNotOk "Forbidden") "node--article" "1" 4 "" "" (Some [])
              (fun _ => RespNotOk "Forbidden"))
    as (_ & err & Hl & _ & Ha & _).
  - discriminate.
  - rewrite Ha. cbn in Hl. injection Hl as <-. reflexivity.
Defined.


(** ** [debugger] *)

(** X3: the logger of [debugger()] writes one line per error, in order,
    for the errors up to the first one without a [links] member; that
    error makes it throw, and the errors after it are not logged.  It
    returns normally exactly when every error has [links]. *)
Theorem debugger_logs_until_missing_links es :
  exists pre post,
    es = pre ++ post
    /\ Forall (fun er => is_Some (err_links er)) pre
    /\ map fst (fst (debugger (Some es)))
       = map (fun er => text_of (err_title er) +:+ ": "
                        +:+ text_of (err_detail er) +:+ ". %s") pre
    /\ match snd (debugger (Some es)) with
       | None => post = []
       | Some _ => exists er rest, post = er :: rest /\ err_links er = None
       end.
Proof.
  cbn [debugger]. induction es as [|er es (pre & post & -> & Hpre & Hl & Hx)].
  - exists [], []. cbn. repeat split. constructor.
  - cbn [logErrors]. destruct (err_links er) as [info|] eqn:Hi.
    + exists (er :: pre), post.
      destruct (logErrors (pre ++ post)) as [lines x]. cbn in *.
      split; [done|]. split; [constructor; [by rewrite Hi|done]|].
      split; [by rewrite Hl|done].
    + exists [], (er :: pre ++ post). cbn. repeat split; [constructor|eauto].
Qed.

(** ** [collectionLink] *)

Lemma string_app_assoc (a b c : string) : (a +:+ b) +:+ c = a +:+ b +:+ c.
Proof.
  induction a as [|x a IH]; [reflexivity|].
  change (String x ((a +:+ b) +:+ c) = String x (a +:+ b +:+ c)). by rewrite IH.
Qed.

Lemma string_app_nil_r (a : string) : a +:+ "" = a.
Proof.
  induction a as [|x a IH]; [reflexivity|].
  change (String x (a +:+ "") = String x a). by rewrite IH.
Qed.

Lemma truthy_app a b : truthy (a +:+ b) = truthy a || truthy b.
Proof. destruct a; [reflexivity|reflexivity]. Qed.

(** X4: when the link table resolved and can be asked, the URL
    [collectionLink] builds is what [links[type]] prints as (the entry of
    the table, the text of an inherited member, or ["undefined"]),
    followed by the query made of the non-empty parts among the filter,
    [sort=<sort>] and the page, in that order, with ["?"] before the
    first part and ["&"] before each other one; with no part, nothing is
    appended. *)
Theorem collectionLink_joins_parts c ls type sort filter page :
  links c = Fulfilled ls -> ls !! "hasOwnProperty" = None ->
  fst (collectionLink c type sort filter page)
  = Fulfilled (link_text (read_link ls type)
               +:+ join_query (query_parts sort filter page)).
Proof.
  intros Hl Hh. unfold collectionLink, getLink, query_parts. rewrite Hl, Hh.
  cbn [fst]. f_equal. f_equal.
  destruct (truthy filter) eqn:Hf, (truthy sort) eqn:Hs, (truthy page) eqn:Hp;
    cbn [app join_query fold_right];
    rewrite ?truthy_app, ?Hf, ?Hs, ?Hp; cbn [truthy orb];
    rewrite ?string_app_assoc, ?string_app_nil_r; reflexivity.
Qed.

Lemma collectionLink_joins_parts_witness :
  fst (collectionLink article_client "node--article" "title" "filter[a]=1"
         "page[limit]=50")
  = Fulfilled
      "https://example.org/jsonapi/node/article?filter[a]=1&sort=title&page[limit]=50".
Proof.
  rewrite (collectionLink_joins_parts article_client
             {[ "node--article" := "https://example.org/jsonapi/node/article" ]}).
  - reflexivity.
  - reflexivity.
  - reflexivity.
Defined.

(** A type named like a member of [Object.prototype] reads that member:
    the link is the source text of a function. *)
Lemma inherited_type_sample :
  fst (getLink article_client "constructor") = Fulfilled (Some (LFunction "constructor"))
  /\ fst (collectionLink article_client "constructor" "" "" "page[limit]=50")
     = Fulfilled "function Object() { [native code] }?page[limit]=50"
  /\ fst (collectionLink article_client "__proto__" "" "" "")
     = Fulfilled "[object Object]".
Proof. repeat split; reflexivity. Qed.

(** ** Relationship specs *)

Lemma relnode_nested_ind (P : relnode -> Prop) :
  (forall s, P (RelName s)) ->
  (forall f l, P (RelObj f l None)) ->
  (forall f l rs, Forall (fun pc => P (snd pc)) rs -> P (RelObj f l (Some rs))) ->
  forall node, P node.
Proof.
  intros Hname Hleaf Hobj. fix IH 1. intros [s|f l [rs|]].
  - apply Hname.
  - apply Hobj. induction rs as [|pc rs IHrs]; constructor; [apply IH|exact IHrs].
  - apply Hleaf.
Qed.

Lemma objectMapper_node_expanded node : is_expanded (objectMapper_node node) = true.
Proof.
  induction node as [s|f l|f l rs IH] using relnode_nested_ind; [done..|].
  cbn. rewrite forallb_forall. intros pc Hin.
  apply in_map_iff in Hin as (pc0 & <- & Hin). cbn.
  rewrite Forall_forall in IH. apply IH. by apply list_elem_of_In.
Qed.

Lemma objectMapper_node_fixed node :
  is_expanded node = true -> objectMapper_node node = node.
Proof.
  induction node as [s|f l|f l rs IH] using relnode_nested_ind; [done..|].
  cbn. intros He. f_equal. f_equal.
  induction rs as [|[name child] rs IHrs]; [reflexivity|].
  cbn in He. apply andb_prop in He as [Hc Hrs].
  apply Forall_cons in IH as [IHc IH]. cbn in *.
  rewrite (IHc Hc), (IHrs IH Hrs). reflexivity.
Qed.

(** X5: [expandRelationships] on a spec keeps the relationship names and
    their order, leaves no bare name at any depth (every node is an
    object), changes nothing in a spec that is already in that shape, and
    so gives the same result when applied twice. *)
Theorem expandRelationships_normalises rs :
  exists out,
    expandRelationships (Some rs) = inr out
    /\ map fst out = map fst rs
    /\ forallb (fun pc => is_expanded (snd pc)) out = true
    /\ (forallb (fun pc => is_expanded (snd pc)) rs = true -> out = rs)
    /\ expandRelationships (Some out) = inr out.
Proof.
  exists (objectMapper rs). split; [reflexivity|].
  assert (Hfix : forall l, forallb (fun pc => is_expanded (snd pc)) l = true ->
                           objectMapper l = l).
  { induction l as [|[name child] l IHl]; [done|]. cbn. intros He.
    apply andb_prop in He as [Hc Hl].
    rewrite (objectMapper_node_fixed child Hc). unfold objectMapper in IHl.
    by rewrite (IHl Hl). }
  assert (Hexp : forallb (fun pc => is_expanded (snd pc)) (objectMapper rs) = true).
  { rewrite forallb_forall. intros pc Hin.
    apply in_map_iff in Hin as (pc0 & <- & _). apply objectMapper_node_expanded. }
  split; [|split; [exact Hexp|split; [apply Hfix|]]].
  - unfold objectMapper. rewrite map_map. reflexivity.
  - cbn. by rewrite (Hfix _ Hexp).
Qed.

(** ** The mirror handed to the visitor *)













(** ** Counters of the engine *)

Lemma counted_paginate link0 limit0 : counted (paginate link0 limit0).
Proof.
  unfold paginate. destruct (may_request _); unfold counted, delivered; cbn;
    repeat split; try lia; repeat constructor.
Qed.

Lemma counted_doRequest l e :
  counted e ->
  counted (set_collectionRequests
             (collectionRequests e ++ [length (promises e)]) (fst (doRequest l e))).
Proof.
  intros (Hc & Hb & Hd & Hp & Hq & Ho). unfold counted, delivered in *. cbn.
  rewrite !length_app. cbn. repeat split; try lia.
  - apply Forall_app. split; [|repeat constructor; lia].
    eapply Forall_impl; [exact Hq|]. cbn. intros; lia.
  - apply Forall_app. split; [|repeat constructor; cbn; lia].
    eapply Forall_impl; [exact Ho|]. cbn. intros; lia.
Qed.

Lemma counted_advance e : counted e -> counted (fst (advance e)).
Proof.
  intros He. unfold advance.
  assert (Hshift : forall e1, counted e1 ->
            counted (fst match buffer e1, collectionRequests e1 with
                         | [], rid :: rest =>
                             (set_collectionRequests rest e1, AwaitRequest rid)
                         | _, _ => (e1, Immediate)
                         end)).
  { intros e1 H1. destruct (buffer e1) eqn:Hb, (collectionRequests e1) eqn:Hq;
      try exact H1.
    destruct H1 as (Hc & Hbl & Hd & Hp & Hcr & Ho).
    unfold counted, delivered in *. cbn. rewrite Hb in *. rewrite Hq in Hcr.
    apply Forall_cons in Hcr as [_ Hcr]. done. }
  destruct (link e) as [l|]; [|by apply Hshift].
  destruct (may_request e); [|by apply Hshift].
  apply (Hshift _ (counted_doRequest l e He)).
Qed.

Lemma counted_cursor_next e : counted e -> counted (fst (cursor_next e)).
Proof.
  intros He. unfold cursor_next. destruct (finished e); [exact He|].
  destruct (canContinue e); [|exact He].
  destruct (under_limit (count e) e); [|exact He].
  pose proof (counted_advance e He) as Ha. destruct (advance e). exact Ha.
Qed.

Lemma counted_cursor_then e : counted e -> counted (fst (cursor_then e)).
Proof.
  intros (Hc & Hb & Hd & Hp & Hq & Ho). unfold cursor_then.
  unfold counted, delivered in *. cbn -[Z.of_nat].
  destruct (buffer e) as [|r b] eqn:Hbuf; cbn -[Z.of_nat] in *;
    rewrite ?Hbuf; cbn -[Z.of_nat]; repeat split; try done; lia.
Qed.

Lemma counted_arrive rid r e : counted e -> counted (arrive rid r e).
Proof.
  intros (Hc & Hb & Hd & Hp & Hq & Ho). unfold arrive. unfold delivered in Hd.
  destruct (list_find _ (outstanding e)) as [[i [rid' u]]|]; [|done].
  assert (Ho' : Forall (fun p => (fst p < length (promises e))%nat)
                  (delete i (outstanding e))).
  { rewrite Forall_forall in Ho |- *. intros p Hin. apply Ho.
    by apply list_elem_of_delete_inv in Hin. }
  unfold doRequest_then.
  destruct (fetchDocument r) as [doc|err].
  - destruct (doc_links doc) as [nxt|].
    + cbn. destruct (documentData doc) as [err|data]; unfold counted, delivered;
        cbn -[Z.of_nat]; rewrite ?length_insert, ?length_app;
        repeat split; try done; lia.
    + unfold counted, delivered; cbn -[Z.of_nat]; rewrite ?length_insert;
        repeat split; done.
  - unfold counted, delivered; cbn -[Z.of_nat]; rewrite ?length_insert;
      repeat split; done.
Qed.

(** X7: in every state an engine reaches, the pull counter is not
    negative, the buffer never holds more than was received, the elements
    shifted out of the buffer never outnumber the pulls counted, every
    fetch issued has its own promise, and the queued and outstanding
    requests all refer to promises that exist. *)
Theorem engine_counters_agree link0 limit0 ops :
  let e := op_run ops (paginate link0 limit0) in
  (0 <= delivered e <= count e)%Z
  /\ (Z.of_nat (length (buffer e)) <= total e)%Z
  /\ length (promises e) = length (issued e)
  /\ (forall rid, rid ∈ collectionRequests e -> is_Some (promises e !! rid))
  /\ (forall rid u, (rid, u) ∈ outstanding e -> is_Some (promises e !! rid)).
Proof.
  cbn zeta.
  assert (H : counted (op_run ops (paginate link0 limit0))).
  { generalize (counted_paginate link0 limit0). generalize (paginate link0 limit0).
    induction ops as [|o ops IH]; intros e He; [exact He|].
    cbn. apply IH. destruct o; cbn.
    - by apply counted_cursor_next.
    - by apply counted_cursor_then.
    - unfold addMore. destruct (many =? -1)%Z; exact He.
    - by apply counted_arrive. }
  destruct H as (Hc & Hb & Hd & Hp & Hq & Ho). unfold delivered in *.
  repeat split; try done; try lia.
  - intros rid Hin. apply lookup_lt_is_Some. rewrite Forall_forall in Hq. by apply Hq.
  - intros rid u Hin. apply lookup_lt_is_Some. rewrite Forall_forall in Ho.
    by apply (Ho (rid, u)).
Qed.

(** ** Exhaustion *)

Lemma canContinue_false e :
  canContinue e = false ->
  buffer e = [] /\ inFlight e = ∅ /\ link_truthy (link e) = false.
Proof.
  unfold canContinue. intros H.
  apply orb_false_elim in H as [H Hl]. apply orb_false_elim in H as [Hb Hi].
  apply negb_false_iff, bool_decide_eq_true_1 in Hb.
  apply negb_false_iff, bool_decide_eq_true_1 in Hi.
  apply size_empty_iff in Hi. apply leibniz_equiv in Hi. done.
Qed.

Lemma exhausted_step e o :
  canContinue e = false -> outstanding e = [] ->
  canContinue (op_step e o) = false /\ outstanding (op_step e o) = []
  /\ issued (op_step e o) = issued e.
Proof.
  intros Hc Ho. pose proof (canContinue_false e Hc) as (Hb & _ & _).
  destruct o as [| |many|rid r]; cbn.
  - unfold cursor_next. rewrite Hc. destruct (finished e); done.
  - unfold cursor_then. cbn. rewrite Hb. done.
  - unfold addMore. destruct (many =? -1)%Z; done.
  - unfold arrive. rewrite Ho. done.
Qed.

Lemma exhausted_run ops e :
  canContinue e = false -> outstanding e = [] ->
  canContinue (op_run ops e) = false /\ issued (op_run ops e) = issued e.
Proof.
  revert e. induction ops as [|o ops IH]; intros e Hc Ho; [done|].
  destruct (exhausted_step e o Hc Ho) as (Hc' & Ho' & Hi').
  cbn. destruct (IH _ Hc' Ho') as [H1 H2]. unfold op_run in *.
  rewrite H1, H2. done.
Qed.

(** X8: exhaustion is final.  Once [canContinue] is false for an engine,
    no pull, callback, [addMore] call or transport answer makes it true
    again or issues a fetch, and every [consume] on it resolves to
    [false] at once, in either mode, without calling the visitor. *)
Theorem exhausted_is_final link0 limit0 ops1 :
  let e := op_run ops1 (paginate link0 limit0) in
  canContinue e = false ->
  (forall ops, canContinue (op_run ops e) = false
               /\ issued (op_run ops e) = issued e)
  /\ (forall fuel v po rels,
        phase (snd (consume (S fuel) v po rels e)) = DResolved NoMore
        /\ vlog (snd (consume (S fuel) v po rels e)) = []
        /\ issued (fst (consume (S fuel) v po rels e)) = issued e).
Proof.
  cbn zeta. intros Hc.
  pose proof (single_flight_op_run ops1 _ (single_flight_paginate link0 limit0)) as Hs.
  set (e := op_run ops1 (paginate link0 limit0)) in *.
  pose proof (canContinue_false e Hc) as (Hb & Hi & Hl).
  assert (Ho : outstanding e = []).
  { destruct Hs as [[_ Ho]|(u & _ & Hu & _)]; [done|].
    rewrite Hi in Hu. exfalso. apply (not_elem_of_empty (C := gset string) u).
    rewrite Hu. by apply elem_of_singleton. }
  split; [intros ops; by apply exhausted_run|].
  intros fuel v po rels. unfold consume. cbn [pull]. unfold cursor_next.
  rewrite Hc. unfold finish.
  destruct (finished e), po; cbn; rewrite ?Hc; try done;
    change (canContinue (set_finished true e)) with (canContinue e);
    rewrite Hc; done.
Qed.

Lemma exhausted_is_final_witness :
  phase (snd (consume 1 plain_visitor false None
                (op_run [OpNext; OpArrive 0 (serve docs_trailing_empty "p2"); OpThen]
                   (paginate "p2" (-1))))) = DResolved NoMore.
Proof.
  apply (exhausted_is_final "p2" (-1)
           [OpNext; OpArrive 0 (serve docs_trailing_empty "p2"); OpThen]).
  reflexivity.
Defined.

(** ** A cap of zero *)

(** X9: with a cap of 0 over a non-empty link nothing is fetched at
    construction, and [consume] resolves at once to [addMore], in either
    mode, without fetching or calling the visitor, whatever the server
    holds; the first page is requested by the first pull after an
    [addMore] with a positive argument. *)
Theorem cap_zero_fetches_nothing link0 :
  truthy link0 = true ->
  issued (paginate link0 0) = []
  /\ (forall fuel v po rels,
        phase (snd (consume (S fuel) v po rels (paginate link0 0)))
        = DResolved AddMore
        /\ vlog (snd (consume (S fuel) v po rels (paginate link0 0))) = []
        /\ issued (fst (consume (S fuel) v po rels (paginate link0 0))) = [])
  /\ (forall k, (0 < k)%Z ->
        issued (fst (cursor_next (addMore k (paginate link0 0)))) = [link0]).
Proof.
  intros Hl.
  assert (Hp : paginate link0 0
             = {| buffer := []; total := 0%Z; inFlight := ∅; link := Some link0;
                  limit := 0%Z; count := 0%Z; collectionRequests := [];
                  finished := false; promises := []; outstanding := [];
                  issued := [] |}).
  { unfold paginate, may_request. cbn. rewrite andb_false_r. reflexivity. }
  rewrite Hp. split; [reflexivity|]. split.
  - intros fuel v po rels. unfold consume. cbn [pull].
    match goal with
    | |- context [cursor_next ?e0] =>
        assert (Hcan : canContinue e0 = true)
          by (by apply (canContinue_link e0 link0));
        rewrite (cursor_next_cap e0 eq_refl Hcan eq_refl)
    end.
    unfold finish. rewrite Hcan. destruct po; done.
  - intros k Hk. unfold addMore. destruct (Z.eqb_spec k (-1)); [lia|].
    unfold cursor_next, canContinue, under_limit, advance, may_request, under_limit.
    cbn. rewrite Hl.
    assert (Hk1 : (0 + k =? -1)%Z = false) by lia.
    assert (Hk2 : (0 <? 0 + k)%Z = true) by lia.
    rewrite Hk1, Hk2, orb_true_r. cbn.
    rewrite bool_decide_eq_false_2 by apply not_elem_of_empty. cbn. reflexivity.
Qed.

Lemma cap_zero_fetches_nothing_witness :
  phase (snd (consume 1 plain_visitor false None (paginate "p1" 0)))
  = DResolved AddMore
  /\ issued (fst (cursor_next (addMore 2 (paginate "p1" 0)))) = ["p1"].
Proof.
  destruct (cap_zero_fetches_nothing "p1") as (_ & Hc & Ha); [reflexivity|].
  split; [apply Hc|apply Ha; lia].
Defined.

(** ** Pages that cannot be unwrapped *)

Lemma cursor_next_requests e u :
  finished e = false -> link e = Some u -> truthy u = true -> u ∉ inFlight e ->
  under_limit (count e) e = true -> under_limit (total e) e = true ->
  issued (fst (cursor_next e)) = issued e ++ [u].
Proof.
  intros Hf Hl Ht Hin Hc Htot.
  rewrite (cursor_next_advance e Hf (canContinue_link e u Hl Ht) Hc). cbn [fst].
  unfold advance. rewrite Hl.
  assert (Hm : may_request e = true).
  { unfold may_request. rewrite Hl, Ht, Htot.
    by rewrite (bool_decide_eq_false_2 _ Hin). }
  rewrite Hm. cbn. destruct (buffer e), (collectionRequests e); reflexivity.
Qed.

(** X10: a page that arrives without [data] is lost: nothing enters the
    buffer and no counter moves, but its URL has left the in-flight set
    and the link has already moved to its [next], so on an unlimited
    engine the next pull asks for the page after it.  When the document
    has no [links] member either, the link stays, and the same URL can be
    requested again. *)
Theorem page_without_data_is_skipped e rid u doc :
  single_flight e -> url_of rid e = Some u -> doc_data doc = None ->
  let e' := arrive rid (RespOk doc) e in
  buffer e' = buffer e /\ total e' = total e /\ count e' = count e
  /\ inFlight e' = ∅
  /\ match doc_links doc with
     | Some nxt =>
         link e' = or_false nxt
         /\ forall u', nxt = Some u' -> truthy u' = true ->
                       finished e = false -> limit e = (-1)%Z ->
                       issued (fst (cursor_next e')) = issued e ++ [u']
     | None => link e' = link e
     end.
Proof.
  intros Hs Hu Hd. cbn zeta.
  assert (Hin : inFlight e = {[u]}).
  { unfold url_of in Hu.
    destruct (list_find _ (outstanding e)) as [[i [rid' u0]]|] eqn:Hf; [|done].
    injection Hu as ->. apply list_find_Some in Hf as (Hi & _).
    destruct Hs as [[_ Ho]|(u1 & _ & Hin & [Ho|[rid1 Ho]])];
      rewrite Ho in Hi; try done.
    destruct i; [|done]. by injection Hi as -> ->. }
  destruct (arrive_found rid (RespOk doc) e u Hu) as [i ->].
  unfold doRequest_then, documentData. cbn. rewrite Hd.
  assert (He : inFlight e ∖ {[u]} = ∅) by (rewrite Hin; apply difference_diag_L).
  destruct (doc_links doc) as [nxt|]; [|cbn; done].
  destruct (doc_errors doc); cbn; (repeat (split; [done|]));
    intros u' -> Ht Hf Hl;
    (rewrite (cursor_next_requests _ u'); [reflexivity|exact Hf|cbn; by rewrite Ht
      |exact Ht|cbn; rewrite He; apply not_elem_of_empty
      |unfold under_limit; cbn; by rewrite Hl..]).
Qed.

Lemma page_without_data_is_skipped_witness :
  let doc := {| doc_data := None; doc_errors := Some ["Forbidden"];
                doc_links := Some (Some "p2") |} in
  link (arrive 0 (RespOk doc) (paginate "p1" (-1))) = Some "p2"
  /\ issued (fst (cursor_next (arrive 0 (RespOk doc) (paginate "p1" (-1)))))
     = ["p1"; "p2"].
Proof.
  cbn zeta.
  destruct (page_without_data_is_skipped (paginate "p1" (-1)) 0 "p1"
              {| doc_data := None; doc_errors := Some ["Forbidden"];
                 doc_links := Some (Some "p2") |})
    as (_ & _ & _ & _ & Hl & Hn).
  - apply single_flight_paginate.
  - reflexivity.
  - reflexivity.
  - split; [exact Hl|]. apply (Hn "p2"); reflexivity.
Defined.

(** ** After a [consume] has settled *)

Lemma no_await_delete k d ev :
  no_await d -> no_await (log ev (set_running (delete k (running d)) d)).
Proof.
  unfold no_await. cbn. intros H. rewrite Forall_forall in *.
  intros p Hp. apply H. eapply list_elem_of_delete_inv. exact Hp.
Qed.

Lemma settled_step fuel v rels ev e d :
  settled_phase (phase d) = true -> no_await d ->
  let s := sys_step fuel v rels ev (e, d) in
  phase (snd s) = phase d /\ visited (vlog (snd s)) = visited (vlog d)
  /\ queue (snd s) = queue d /\ issued (fst s) = issued e
  /\ no_await (snd s).
Proof.
  intros Hp Hn. destruct ev as [rid r|k]; cbn [sys_step].
  - destruct (phase d) eqn:Hph; try discriminate; cbn; rewrite ?Hph;
      repeat split; try done; apply issued_arrive.
  - destruct (running d !! k) as [[[r ok] aw]|] eqn:Hk; [|done].
    assert (aw = None) as ->.
    { unfold no_await in Hn. rewrite Forall_forall in Hn.
      apply (Hn (r, ok, aw)). by eapply list_elem_of_lookup_2. }
    cbn. rewrite visited_app. cbn. rewrite app_nil_r.
    repeat split; try done. by apply no_await_delete.
Qed.

Lemma settled_run fuel v rels evs e d :
  settled_phase (phase d) = true -> no_await d ->
  let s := sys_run fuel v rels evs (e, d) in
  phase (snd s) = phase d /\ visited (vlog (snd s)) = visited (vlog d)
  /\ queue (snd s) = queue d /\ issued (fst s) = issued e.
Proof.
  revert e d. induction evs as [|ev evs IH]; intros e d Hp Hn; [done|].
  cbn zeta.
  change (sys_run fuel v rels (ev :: evs) (e, d))
    with (sys_run fuel v rels evs (sys_step fuel v rels ev (e, d))).
  destruct (settled_step fuel v rels ev e d Hp Hn) as (H1 & H2 & H3 & H4 & H5).
  destruct (sys_step fuel v rels ev (e, d)) as [e1 d1]. cbn [fst snd] in *.
  destruct (IH e1 d1) as (I1 & I2 & I3 & I4); [by rewrite H1|done|].
  cbn zeta in *. rewrite I1, I2, I3, I4. done.
Qed.

(** Wherever the drain stops, a call that [reject] was called for is
    rejected, with the first error. *)
Lemma drain_rejected v next err : forall q d,
  rejection d = Some err ->
  phase (drain v next q d) = DRejected err
  /\ rejection (drain v next q d) = Some err.
Proof.
  induction q as [|[r m] q IH]; intros d Hr; cbn [drain].
  - rewrite Hr. done.
  - destruct (v r m); [apply IH; exact Hr|rewrite Hr; done..].
Qed.

Lemma drain_coherent v next : forall q d,
  coherent (drain v next q d).
Proof.
  induction q as [|[r m] q IH]; intros d; cbn [drain].
  - unfold coherent. cbn. destruct (rejection d); done.
  - destruct (v r m); [apply IH|unfold coherent; cbn; destruct (rejection d); done..].
Qed.

Lemma coherent_visit v rels x d :
  rejection (fst (filteringConsumer v rels x d)) = rejection d.
Proof.
  destruct x as [r|]; [|reflexivity].
  unfold filteringConsumer, decorateWithRelationships, queuedConsumer.
  destruct rels as [rs|]; destruct (preserveOrder d); cbn;
    try match goal with |- context [v ?a ?b] => destruct (v a b) end; reflexivity.
Qed.

Lemma coherent_rejected err d :
  rejection d = None -> coherent (set_phase (DRejected err) (reject err d)).
Proof. intros Hr. unfold coherent, reject. rewrite Hr. reflexivity. Qed.

Lemma coherent_pull fuel v rels : forall e d,
  rejection d = None -> coherent (snd (pull fuel v rels e d)).
Proof.
  induction fuel as [|k IH]; intros e d Hr.
  - unfold coherent. cbn. rewrite Hr. done.
  - cbn [pull]. destruct (cursor_next e) as [e1 y].
    assert (Hres : coherent
              (snd (let '(e2, r) := cursor_then e1 in
                    match filteringConsumer v rels r d with
                    | (d', Some err) => (e2, set_phase (DRejected err) (reject err d'))
                    | (d', None) => pull k v rels e2 d'
                    end))).
    { destruct (cursor_then e1) as [e2 r].
      pose proof (coherent_visit v rels r d) as Hv.
      destruct (filteringConsumer v rels r d) as [d' [err|]]; cbn [fst snd] in *.
      - apply coherent_rejected. congruence.
      - apply IH. congruence. }
    assert (Hfin : coherent (finish v e1 d)).
    { unfold finish. destruct (preserveOrder d); [apply drain_coherent|].
      unfold coherent. cbn. rewrite Hr. done. }
    destruct y as [[rid|]| |]; try done.
    destruct (promises e1 !! rid) as [[| |err]|]; try done;
      try (unfold coherent; cbn; rewrite Hr; done).
    by apply coherent_rejected.
Qed.

Lemma coherent_step fuel v rels ev e d :
  coherent d -> coherent (snd (sys_step fuel v rels ev (e, d))).
Proof.
  intros Hc. destruct ev as [rid r|k]; cbn [sys_step].
  - destruct (phase d) as [rid'| | | | |] eqn:Hp; try exact Hc.
    assert (Hr : rejection d = None).
    { unfold coherent in Hc. destruct (rejection d); [congruence|done]. }
    destruct (bool_decide (rid' = rid)); [|exact Hc].
    destruct (promises (arrive rid r e) !! rid) as [[| |err]|]; try exact Hc.
    + destruct (cursor_then (arrive rid r e)) as [e2 x].
      pose proof (coherent_visit v rels x d) as Hv.
      destruct (filteringConsumer v rels x d) as [d' [err|]]; cbn [fst snd] in *.
      * apply coherent_rejected. congruence.
      * apply coherent_pull. congruence.
    + by apply coherent_rejected.
  - destruct (running d !! k) as [[[r ok] [next|]]|]; [| |exact Hc].
    + apply drain_coherent.
    + exact Hc.
Qed.

Lemma coherent_run fuel v rels evs s :
  coherent (snd s) -> coherent (snd (sys_run fuel v rels evs s)).
Proof.
  revert s. induction evs as [|ev evs IH]; intros [e d] Hc; [exact Hc|].
  change (sys_run fuel v rels (ev :: evs) (e, d))
    with (sys_run fuel v rels evs (sys_step fuel v rels ev (e, d))).
  apply IH. by apply coherent_step.
Qed.

Lemma rejected_step fuel v rels ev e d err :
  phase d = DRejected err -> rejection d = Some err ->
  phase (snd (sys_step fuel v rels ev (e, d))) = DRejected err
  /\ rejection (snd (sys_step fuel v rels ev (e, d))) = Some err.
Proof.
  intros Hp Hr. destruct ev as [rid r|k]; cbn [sys_step].
  - rewrite Hp. done.
  - destruct (running d !! k) as [[[r ok] [next|]]|]; [| |done].
    + apply drain_rejected. unfold reject. destruct ok; cbn; by rewrite ?Hr.
    + done.
Qed.

(** X11: once the promise of [consume] has settled, its outcome stands.
    A call that has resolved, has been rejected, or hangs, and whose
    drain is not suspended on a promise of the visitor, is inert:
    whatever the transport answers and whichever visitor promises settle
    afterwards, its outcome does not change, the visitor is not called
    again, the queue is left as it is, and no fetch is issued.  A call
    that a rejecting visitor promise has rejected in the middle of its
    drain stays rejected with the same error while the drain goes on:
    in every state that a [consume] reaches, a rejection is final. *)
Theorem settled_consume_is_inert fuel v rels :
  (forall evs e d,
     settled_phase (phase d) = true -> no_await d ->
     phase (snd (sys_run fuel v rels evs (e, d))) = phase d
     /\ visited (vlog (snd (sys_run fuel v rels evs (e, d)))) = visited (vlog d)
     /\ queue (snd (sys_run fuel v rels evs (e, d))) = queue d
     /\ issued (fst (sys_run fuel v rels evs (e, d))) = issued e)
  /\ (forall po e evs evs' err,
        let s := sys_run fuel v rels evs (consume fuel v po rels e) in
        phase (snd s) = DRejected err ->
        phase (snd (sys_run fuel v rels evs' s)) = DRejected err).
Proof.
  split; [intros evs e d; apply settled_run|].
  intros po e evs evs' err s Hp.
  assert (Hc : coherent (snd s)).
  { apply coherent_run. apply coherent_pull. reflexivity. }
  assert (Hr : rejection (snd s) = Some err).
  { unfold coherent in Hc. destruct (rejection (snd s)) as [err'|].
    - congruence.
    - by destruct (Hc err). }
  clear Hc. clearbody s. revert s Hp Hr.
  induction evs' as [|ev evs' IH]; intros [e1 d1] Hp Hr; [exact Hp|].
  change (sys_run fuel v rels (ev :: evs') (e1, d1))
    with (sys_run fuel v rels evs' (sys_step fuel v rels ev (e1, d1))).
  cbn [snd] in *.
  destruct (rejected_step fuel v rels ev e1 d1 err Hp Hr) as [Hp' Hr'].
  destruct (sys_step fuel v rels ev (e1, d1)) as [e2 d2]. cbn [snd] in *.
  by apply IH.
Qed.

Lemma settled_consume_is_inert_witness :
  phase (snd (sys_run 8 plain_visitor None [Arrives 3 (serve docs_sparse "p4")]
                sparse_capped)) = DResolved AddMore
  /\ (let v : visitor := fun r _ => if bool_decide (res_id r = "a")
                                    then VPromise false else VPromise true in
      let s := sys_run 8 v None [Arrives 0 (serve docs_six "p1"); Settles 0]
                 (consume 8 v true None (paginate "p1" 3)) in
      phase (snd s) = DRejected visitor_error
      /\ visited (vlog (snd s)) = [res "a"; res "b"]
      /\ visited (vlog (snd (sys_run 8 v None [Settles 0] s)))
         = [res "a"; res "b"; res "c"]
      /\ phase (snd (sys_run 8 v None [Settles 0; Settles 0] s))
         = DRejected visitor_error).
Proof.
  destruct (settled_consume_is_inert 8 plain_visitor None) as [H1 _].
  destruct (H1 [Arrives 3 (serve docs_sparse "p4")]
              (fst sparse_capped) (snd sparse_capped)) as [Hp _].
  - reflexivity.
  - vm_compute. constructor.
  - split; [rewrite <- surjective_pairing in Hp; rewrite Hp; reflexivity|].
    cbn zeta.
    destruct (settled_consume_is_inert 8
                (fun r _ => if bool_decide (res_id r = "a")
                            then VPromise false else VPromise true) None)
      as [_ H2].
    split; [reflexivity|]. split; [reflexivity|]. split; [reflexivity|].
    apply (H2 true (paginate "p1" 3) [Arrives 0 (serve docs_six "p1"); Settles 0]
             [Settles 0; Settles 0] visitor_error).
    reflexivity.
Defined.

(** ** The drain of the ordered mode *)

Section Drain.
Variable docs : gmap string Doc.
Variable v : visitor.
Variable rels : option relspec.

Lemma run_lazy_settled steps F s :
  settled_phase (phase (snd s)) = true -> drain_awaits (snd s) = false ->
  run_lazy steps F v rels docs s = s.
Proof.
  intros Hp Ha. destruct steps; [reflexivity|]. cbn.
  destruct (phase (snd s)); try discriminate; rewrite ?Ha; reflexivity.
Qed.

(** A call that is rejected and has an empty queue: what is left of the
    lazy run settles the promises still awaited and changes nothing
    else. *)
Lemma run_lazy_rejected F e err : forall steps d,
  phase d = DRejected err -> rejection d = Some err -> queue d = [] ->
  run_lazy steps F v rels docs (e, d)
  = (e, snd (run_lazy steps F v rels docs (e, d)))
  /\ visited (vlog (snd (run_lazy steps F v rels docs (e, d)))) = visited (vlog d)
  /\ phase (snd (run_lazy steps F v rels docs (e, d))) = DRejected err.
Proof.
  induction steps as [|steps IH]; intros d Hp Hr Hq; [done|].
  cbn [run_lazy snd]. rewrite Hp. unfold drain_awaits.
  destruct (running d) as [|[[r ok] [next|]] rest] eqn:Hrun; [done| |done].
  rewrite (settle_awaited v rels F e d r ok next rest Hrun).
  set (d2 := if ok then log (EvEnd r) (set_running rest d)
             else reject visitor_error (log (EvEnd r) (set_running rest d))).
  assert (Hq2 : queue d2 = []).
  { unfold d2, reject. destruct ok; cbn; rewrite ?Hr; cbn; exact Hq. }
  assert (Hr2 : rejection d2 = Some err).
  { unfold d2, reject. destruct ok; cbn; rewrite ?Hr; cbn; rewrite ?Hr; done. }
  assert (Hv2 : visited (vlog d2) = visited (vlog d)).
  { unfold d2, reject. destruct ok; cbn; rewrite ?Hr; cbn;
      rewrite visited_app; cbn; by rewrite app_nil_r. }
  rewrite Hq. cbn [drain]. rewrite Hr2.
  destruct (IH (set_phase (DRejected err) (set_queue [] d2))) as (I1 & I2 & I3);
    [done|done|done|].
  split; [exact I1|]. split; [rewrite I2; exact Hv2|exact I3].
Qed.

Lemma drain_lazy F e next : forall q d steps,
  Forall (fun x => v (fst x) (snd x) <> VThrow) q ->
  (length q <= steps)%nat ->
  run_lazy steps F v rels docs (e, drain v next q d)
  = (e, snd (run_lazy steps F v rels docs (e, drain v next q d)))
  /\ visited (vlog (snd (run_lazy steps F v rels docs (e, drain v next q d))))
     = visited (vlog d) ++ map fst q
  /\ phase (snd (run_lazy steps F v rels docs (e, drain v next q d)))
     = match rejection d with
       | Some err => DRejected err
       | None => if existsb (rejects v) q then DRejected visitor_error
                 else DResolved next
       end.
Proof.
  induction q as [|[r m] q IH]; intros d steps Hq Hlen.
  - cbn [drain existsb map]. rewrite app_nil_r.
    destruct (rejection d) as [err|] eqn:Hrd.
    + apply (run_lazy_rejected F e err steps
               (set_phase (DRejected err) (set_queue [] d))); done.
    + rewrite (run_lazy_resolved docs v rels steps F next) by reflexivity. done.
  - apply Forall_cons in Hq as [Hv Hq]. cbn [fst snd] in Hv.
    cbn [drain length existsb map] in *. unfold rejects at 1. cbn [fst snd].
    destruct (v r m) as [|ok|] eqn:Hvr; [| |done].
    + destruct (IH (log (EvEnd r) (log (EvStart r m) (set_queue q d))) steps Hq)
        as (He & Hvis & Hph); [lia|].
      split; [exact He|]. rewrite Hvis, Hph. cbn. rewrite !visited_app. cbn.
      rewrite <- !app_assoc. done.
    + destruct steps as [|steps]; [lia|].
      set (p := match rejection d with
                | Some err => DRejected err
                | None => DDraining next
                end).
      set (d1 := set_phase p (set_running [(r, ok, Some next)]
                                (log (EvStart r m) (set_queue q d)))).
      set (d2 := if ok
                 then log (EvEnd r) (set_running [] d1)
                 else reject visitor_error (log (EvEnd r) (set_running [] d1))).
      assert (Hstep : run_lazy (S steps) F v rels docs (e, d1)
                      = run_lazy steps F v rels docs (e, drain v next q d2)).
      { cbn [run_lazy snd]. change (phase d1) with p.
        change (drain_awaits d1) with true.
        rewrite (settle_awaited v rels F e d1 r ok next []) by reflexivity.
        unfold p. destruct (rejection d); reflexivity. }
      assert (Hq2 : queue d2 = q).
      { unfold d2, reject. destruct ok; [reflexivity|]. cbn.
        destruct (rejection d); reflexivity. }
      assert (Hv2 : visited (vlog d2) = visited (vlog d) ++ [r]).
      { unfold d2, reject. destruct ok; cbn; [|destruct (rejection d); cbn];
          rewrite !visited_app; cbn; by rewrite app_nil_r. }
      assert (Hr2 : rejection d2
                    = match rejection d with
                      | Some err => Some err
                      | None => if ok then None else Some visitor_error
                      end).
      { unfold d2, reject. destruct ok; cbn; destruct (rejection d) eqn:Hrd; cbn;
          rewrite ?Hrd; reflexivity. }
      rewrite Hstep.
      destruct (IH d2 steps Hq) as (He & Hvis & Hph); [lia|].
      split; [exact He|]. rewrite Hvis, Hph, Hv2, Hr2, <- app_assoc.
      split; [reflexivity|].
      destruct (rejection d); [reflexivity|]. destruct ok; reflexivity.
Qed.

(** X12: the drain of the ordered mode runs every queued thunk, in queue
    order, as long as none throws: a promise that rejects does not stop
    it.  The call then resolves to what the pull phase decided when no
    promise rejected and nothing had been rejected before, and is
    rejected otherwise; the engine is not touched. *)
Theorem drain_runs_every_thunk F e next q d steps :
  Forall (fun x => v (fst x) (snd x) <> VThrow) q ->
  (length q <= steps)%nat ->
  let s := run_lazy steps F v rels docs (e, drain v next q d) in
  fst s = e
  /\ visited (vlog (snd s)) = visited (vlog d) ++ map fst q
  /\ phase (snd s)
     = match rejection d with
       | Some err => DRejected err
       | None => if existsb (rejects v) q then DRejected visitor_error
                 else DResolved next
       end.
Proof.
  intros Hq Hlen. cbn zeta.
  destruct (drain_lazy F e next q d steps Hq Hlen) as (He & Hvis & Hph).
  split; [by rewrite He|]. done.
Qed.
End Drain.

Lemma drain_runs_every_thunk_witness :
  let v : visitor := fun r _ => if bool_decide (res_id r = "a") then VPromise false
                                else VReturn in
  let d := {| preserveOrder := true; queue := []; running := []; rejection := None;
              vlog := []; phase := DSpinning |} in
  let s := run_lazy 2 8 v None docs_six
             (paginate "p1" 2, drain v AddMore [(res "a", None); (res "b", None)] d) in
  visited (vlog (snd s)) = [res "a"; res "b"]
  /\ phase (snd s) = DRejected visitor_error.
Proof.
  cbn zeta.
  destruct (drain_runs_every_thunk docs_six
              (fun r _ => if bool_decide (res_id r = "a") then VPromise false
                          else VReturn)
              None 8 (paginate "p1" 2) AddMore [(res "a", None); (res "b", None)]
              {| preserveOrder := true; queue := []; running := [];
                 rejection := None; vlog := []; phase := DSpinning |} 2)
    as (_ & Hv & Hp).
  - repeat constructor; cbn; discriminate.
  - cbn. lia.
  - split; [exact Hv|exact Hp].
Defined.

(** X13: in the ordered mode a thunk whose visitor throws ends the
    drain for good: the thunks behind it stay in the queue, and no later
    event runs them or changes the outcome of the call.  The call hangs,
    settled neither way, unless a promise of the visitor had rejected
    before; then it was rejected at that moment, and stays so. *)
Theorem ordered_throw_hangs v next r m q d :
  v r m = VThrow -> no_await d ->
  let d' := drain v next ((r, m) :: q) d in
  phase d' = match rejection d with
             | Some err => DRejected err
             | None => DHung
             end
  /\ queue d' = q
  /\ visited (vlog d') = visited (vlog d) ++ [r]
  /\ forall fuel rels evs e,
      phase (snd (sys_run fuel v rels evs (e, d'))) = phase d'
      /\ queue (snd (sys_run fuel v rels evs (e, d'))) = q
      /\ visited (vlog (snd (sys_run fuel v rels evs (e, d'))))
         = visited (vlog d) ++ [r].
Proof.
  intros Hv Hn. cbn zeta. cbn [drain]. rewrite Hv.
  set (p := match rejection d with Some err => DRejected err | None => DHung end).
  assert (Hvis : visited (vlog (set_phase p (log (EvEnd r)
                    (log (EvStart r m) (set_queue q d)))))
                 = visited (vlog d) ++ [r]).
  { cbn. rewrite !visited_app. cbn. by rewrite app_nil_r. }
  split; [reflexivity|]. split; [reflexivity|]. split; [exact Hvis|].
  intros fuel rels evs e.
  destruct (settled_run fuel v rels evs e
              (set_phase p (log (EvEnd r) (log (EvStart r m) (set_queue q d)))))
    as (H1 & H2 & H3 & _).
  - unfold p. cbn. destruct (rejection d); reflexivity.
  - exact Hn.
  - cbn zeta in *. rewrite H1, H2, H3. done.
Qed.

Lemma ordered_throw_hangs_witness :
  let v : visitor := fun _ _ => VThrow in
  let d := {| preserveOrder := true;
              queue := [(res "a", None); (res "b", None)];
              running := []; rejection := None;
              vlog := [EvQueued (res "a"); EvQueued (res "b")];
              phase := DWaiting 0 |} in
  let d' := {| preserveOrder := true;
               queue := [(res "b", None); (res "c", None)];
               running := []; rejection := Some visitor_error;
               vlog := [EvQueued (res "a"); EvQueued (res "b"); EvQueued (res "c");
                        EvStart (res "a") None; EvEnd (res "a")];
               phase := DRejected visitor_error |} in
  (phase (drain v AddMore (queue d) d) = DHung
   /\ queue (drain v AddMore (queue d) d) = [(res "b", None)])
  /\ (phase (drain v AddMore (queue d') d') = DRejected visitor_error
      /\ queue (drain v AddMore (queue d') d') = [(res "c", None)]).
Proof.
  cbn zeta. split.
  - destruct (ordered_throw_hangs (fun _ _ => VThrow) AddMore (res "a") None
                [(res "b", None)]
                {| preserveOrder := true;
                   queue := [(res "a", None); (res "b", None)];
                   running := []; rejection := None;
                   vlog := [EvQueued (res "a"); EvQueued (res "b")];
                   phase := DWaiting 0 |} eq_refl) as (Hp & Hq & _).
    + constructor.
    + split; [exact Hp|exact Hq].
  - destruct (ordered_throw_hangs (fun _ _ => VThrow) AddMore (res "b") None
                [(res "c", None)]
                {| preserveOrder := true;
                   queue := [(res "b", None); (res "c", None)];
                   running := []; rejection := Some visitor_error;
                   vlog := [EvQueued (res "a"); EvQueued (res "b");
                            EvQueued (res "c");
                            EvStart (res "a") None; EvEnd (res "a")];
                   phase := DRejected visitor_error |} eq_refl) as (Hp & Hq & _).
    + constructor.
    + split; [exact Hp|exact Hq].
Defined.

(** The promise of ["a"] rejects, then the thunk of ["b"] throws: the
    call is rejected when the promise settles, and ["c"] never runs. *)
Lemma rejected_then_throw_run :
  let v : visitor := fun r _ => if bool_decide (res_id r = "a") then VPromise false
                                else VThrow in
  let s := sys_run 8 v None [Arrives 0 (serve docs_six "p1")]
             (consume 8 v true None (paginate "p1" 3)) in
  let s' := sys_run 8 v None [Settles 0] s in
  phase (snd s) = DDraining AddMore
  /\ phase (snd s') = DRejected visitor_error
  /\ queue (snd s') = [(res "c", None)]
  /\ visited (vlog (snd s')) = [res "a"; res "b"].
Proof. vm_compute. repeat split; reflexivity. Qed.

(** ** The unordered mode does not wait for the visitor *)

Lemma unordered_visit v rels r d :
  preserveOrder d = false -> queue d = [] -> no_await d ->
  preserveOrder (fst (filteringConsumer v rels r d)) = false
  /\ queue (fst (filteringConsumer v rels r d)) = []
  /\ no_await (fst (filteringConsumer v rels r d)).
Proof.
  intros Hpo Hq Hn. destruct r as [x|]; [|done].
  unfold filteringConsumer, decorateWithRelationships, queuedConsumer.
  destruct rels as [rs|]; rewrite Hpo;
    match goal with |- context [v ?a ?b] => destruct (v a b) end;
    repeat split; try done;
    unfold no_await; cbn; apply Forall_app; split; try done;
    by repeat constructor.
Qed.

Lemma unordered_rejected err d :
  preserveOrder d = false -> queue d = [] -> no_await d ->
  unordered (set_phase (DRejected err) (reject err d)).
Proof.
  intros Hpo Hq Hn. unfold unordered, reject. destruct (rejection d); done.
Qed.

Lemma unordered_pull fuel v rels e d :
  preserveOrder d = false -> queue d = [] -> no_await d ->
  unordered (snd (pull fuel v rels e d)).
Proof.
  revert e d. induction fuel as [|k IH]; intros e d Hpo Hq Hn; [done|].
  cbn [pull]. destruct (cursor_next e) as [e1 y].
  assert (Hres : unordered
            (snd (let '(e2, r) := cursor_then e1 in
                  match filteringConsumer v rels r d with
                  | (d', Some err) => (e2, set_phase (DRejected err) (reject err d'))
                  | (d', None) => pull k v rels e2 d'
                  end))).
  { destruct (cursor_then e1) as [e2 r].
    destruct (unordered_visit v rels r d Hpo Hq Hn) as (Hpo' & Hq' & Hn').
    destruct (filteringConsumer v rels r d) as [d' [err|]]; cbn [fst snd] in *.
    - by apply unordered_rejected.
    - by apply IH. }
  destruct y as [[rid|]| |]; try exact Hres.
  - destruct (promises e1 !! rid) as [[| |err]|]; try done.
    by apply unordered_rejected.
  - unfold finish. rewrite Hpo. done.
  - unfold finish. rewrite Hpo. done.
Qed.

Lemma unordered_step fuel v rels ev e d :
  unordered d -> unordered (snd (sys_step fuel v rels ev (e, d))).
Proof.
  intros H. pose proof H as (Hpo & Hq & Hn & Hp).
  destruct ev as [rid r|k]; cbn [sys_step].
  - destruct (phase d) eqn:Hph; try exact H.
    destruct (bool_decide _); [|exact H].
    destruct (promises (arrive rid r e) !! rid) as [[| |err]|]; try exact H.
    + destruct (cursor_then (arrive rid r e)) as [e2 x].
      destruct (unordered_visit v rels x d Hpo Hq Hn) as (Hpo' & Hq' & Hn').
      destruct (filteringConsumer v rels x d) as [d' [err|]]; cbn [fst snd] in *.
      * by apply unordered_rejected.
      * by apply unordered_pull.
    + by apply unordered_rejected.
  - destruct (running d !! k) as [[[r ok] aw]|] eqn:Hk; [|exact H].
    assert (aw = None) as ->.
    { unfold no_await in Hn. rewrite Forall_forall in Hn.
      apply (Hn (r, ok, aw)). by eapply list_elem_of_lookup_2. }
    cbn [snd]. unfold unordered.
    split; [exact Hpo|]. split; [exact Hq|]. split; [by apply no_await_delete|].
    exact Hp.
Qed.

(** X14: in the default mode [consume] never waits for the visitor.  In
    every state it reaches, a visitor promise that settles leaves the
    engine, the phase of the call and the list of invocations as they
    are; the queue of thunks stays empty throughout. *)
Theorem unordered_consume_ignores_settling fuel v rels e evs k :
  let s := sys_run fuel v rels evs (consume fuel v false rels e) in
  let s' := sys_step fuel v rels (Settles k) s in
  fst s' = fst s /\ phase (snd s') = phase (snd s)
  /\ visited (vlog (snd s')) = visited (vlog (snd s))
  /\ queue (snd s) = [].
Proof.
  cbn zeta.
  assert (H : unordered (snd (sys_run fuel v rels evs (consume fuel v false rels e)))).
  { generalize (unordered_pull fuel v rels e
                  {| preserveOrder := false; queue := []; running := [];
                     rejection := None; vlog := []; phase := DSpinning |}
                  eq_refl eq_refl (Forall_nil_2 _)).
    change (pull fuel v rels e _) with (consume fuel v false rels e).
    generalize (consume fuel v false rels e).
    induction evs as [|ev evs IH]; intros [e0 d0] H0; [exact H0|].
    change (sys_run fuel v rels (ev :: evs) (e0, d0))
      with (sys_run fuel v rels evs (sys_step fuel v rels ev (e0, d0))).
    apply IH. by apply unordered_step. }
  destruct (sys_run fuel v rels evs (consume fuel v false rels e)) as [e1 d1].
  destruct H as (Hpo & Hq & Hn & Hp). cbn [fst snd sys_step] in *.
  destruct (running d1 !! k) as [[[r ok] aw]|] eqn:Hk; [|done].
  assert (aw = None) as ->.
  { unfold no_await in Hn. rewrite Forall_forall in Hn.
    apply (Hn (r, ok, aw)). by eapply list_elem_of_lookup_2. }
  cbn. rewrite visited_app. cbn. rewrite app_nil_r. done.
Qed.

(** ** The cap under any schedule *)

Lemma count_advance e :
  count (fst (advance e)) = count e /\ limit (fst (advance e)) = limit e.
Proof.
  unfold advance. destruct (link e) as [l|].
  - destruct (may_request e); cbn;
      destruct (buffer e), (collectionRequests e); done.
  - destruct (buffer e), (collectionRequests e); done.
Qed.

Lemma count_cursor_next e :
  count (fst (cursor_next e)) = count e /\ limit (fst (cursor_next e)) = limit e
  /\ forall a, snd (cursor_next e) = YPromise a -> under_limit (count e) e = true.
Proof.
  unfold cursor_next. destruct (finished e); [done|].
  destruct (canContinue e); [|done].
  destruct (under_limit (count e) e); [|done].
  pose proof (count_advance e) as [Hc Hl]. destruct (advance e). done.
Qed.

Lemma count_arrive rid r e :
  count (arrive rid r e) = count e /\ limit (arrive rid r e) = limit e.
Proof.
  unfold arrive. destruct (list_find _ (outstanding e)) as [[i [rid' u]]|]; [|done].
  unfold doRequest_then. destruct (fetchDocument r) as [doc|err]; [|done].
  destruct (doc_links doc); [|done]. cbn. destruct (documentData doc); done.
Qed.

Lemma count_cursor_then e :
  count (fst (cursor_then e)) = (count e + 1)%Z
  /\ limit (fst (cursor_then e)) = limit e.
Proof. unfold cursor_then. cbn. destruct (buffer e); done. Qed.

Lemma handed_visit v rels r d :
  (length (visited (vlog (fst (filteringConsumer v rels r d))))
   + length (queue (fst (filteringConsumer v rels r d)))
   <= length (visited (vlog d)) + length (queue d) + 1)%nat.
Proof.
  destruct r as [x|]; [|cbn; lia].
  unfold filteringConsumer, decorateWithRelationships, queuedConsumer.
  destruct rels as [rs|]; destruct (preserveOrder d); cbn;
    try match goal with |- context [v ?a ?b] => destruct (v a b) end; cbn;
    rewrite ?visited_app, ?length_app; cbn; lia.
Qed.

Lemma handed_drain v next : forall q d,
  (length (visited (vlog (drain v next q d))) + length (queue (drain v next q d))
   <= length (visited (vlog d)) + length q)%nat
  /\ forall rid, phase (drain v next q d) <> DWaiting rid.
Proof.
  induction q as [|[r m] q IH]; intros d.
  - cbn. split; [lia|]. destruct (rejection d); done.
  - cbn [drain]. destruct (v r m) as [|ok|].
    + destruct (IH (log (EvEnd r) (log (EvStart r m) (set_queue q d)))) as [H1 H2].
      split; [|exact H2]. cbn in H1. rewrite !visited_app in H1.
      rewrite !length_app in H1. cbn in *. lia.
    + cbn. rewrite visited_app, length_app. cbn.
      split; [lia|destruct (rejection d); done].
    + cbn. rewrite !visited_app, !length_app. cbn.
      split; [lia|destruct (rejection d); done].
Qed.

Lemma capped_finish n v e d :
  limit e = n -> (count e <= n)%Z ->
  (Z.of_nat (length (visited (vlog d)) + length (queue d)) <= count e)%Z ->
  capped n (e, finish v e d).
Proof.
  intros Hl Hc Hv. unfold capped, finish. cbn [fst snd].
  destruct (preserveOrder d).
  - destruct (handed_drain v (if canContinue e then AddMore else NoMore)
                (queue d) d) as [H1 H2].
    repeat split; try done; [|lia]. intros rid Hp. by apply H2 in Hp.
  - done.
Qed.

Lemma capped_rejected n e d err :
  limit e = n -> (count e <= n)%Z ->
  (Z.of_nat (length (visited (vlog d)) + length (queue d)) <= count e)%Z ->
  capped n (e, set_phase (DRejected err) (reject err d)).
Proof.
  intros Hl Hc Hv. unfold capped, reject. destruct (rejection d); done.
Qed.

Lemma capped_pull n fuel v rels : forall e d,
  (0 <= n)%Z -> limit e = n -> (count e <= n)%Z ->
  (Z.of_nat (length (visited (vlog d)) + length (queue d)) <= count e)%Z ->
  capped n (pull fuel v rels e d).
Proof.
  induction fuel as [|k IH]; intros e d Hn Hl Hc Hv; [done|].
  cbn [pull]. pose proof (count_cursor_next e) as (Hc1 & Hl1 & Hy).
  destruct (cursor_next e) as [e1 y]. cbn [fst snd] in *.
  assert (Hres : (count e < n)%Z ->
            capped n (let '(e2, r) := cursor_then e1 in
                      match filteringConsumer v rels r d with
                      | (d', Some err) => (e2, set_phase (DRejected err) (reject err d'))
                      | (d', None) => pull k v rels e2 d'
                      end)).
  { intros Hlt. pose proof (count_cursor_then e1) as [Hc2 Hl2].
    destruct (cursor_then e1) as [e2 r]. cbn [fst] in *.
    pose proof (handed_visit v rels r d) as Hh.
    destruct (filteringConsumer v rels r d) as [d' [err|]]; cbn [fst] in Hh.
    - apply capped_rejected; lia.
    - apply IH; lia. }
  assert (Hlt : forall a, y = YPromise a -> (count e < n)%Z).
  { intros a Ha. specialize (Hy a Ha). rewrite under_limit_cap in Hy by lia. lia. }
  destruct y as [[rid|]| |].
  - destruct (promises e1 !! rid) as [[| |err]|].
    + unfold capped. cbn. repeat split; try lia. intros _ _.
      specialize (Hlt _ eq_refl). lia.
    + apply Hres. by apply (Hlt (AwaitRequest rid)).
    + apply capped_rejected; lia.
    + unfold capped. cbn. repeat split; try lia. intros _ _.
      specialize (Hlt _ eq_refl). lia.
  - apply Hres. by apply (Hlt Immediate).
  - apply capped_finish; lia.
  - apply capped_finish; lia.
Qed.

Lemma capped_step n fuel v rels ev s :
  (0 <= n)%Z -> capped n s -> capped n (sys_step fuel v rels ev s).
Proof.
  intros Hn (Hl & Hc & Hw & Hv). destruct s as [e d]. cbn [fst snd] in *.
  destruct ev as [rid r|k]; cbn [sys_step].
  - pose proof (count_arrive rid r e) as [Hc1 Hl1].
    assert (Hsame : capped n (arrive rid r e, d)).
    { unfold capped. cbn [fst snd]. rewrite Hc1, Hl1. done. }
    destruct (phase d) as [rid'| | | | |] eqn:Hp; try exact Hsame.
    destruct (bool_decide (rid' = rid)); [|exact Hsame].
    destruct (promises (arrive rid r e) !! rid) as [[| |err]|]; try exact Hsame.
    + pose proof (count_cursor_then (arrive rid r e)) as [Hc2 Hl2].
      destruct (cursor_then (arrive rid r e)) as [e2 x]. cbn [fst] in *.
      pose proof (handed_visit v rels x d) as Hh.
      specialize (Hw rid' eq_refl).
      destruct (filteringConsumer v rels x d) as [d' [err|]]; cbn [fst] in Hh.
      * apply capped_rejected; lia.
      * apply capped_pull; lia.
    + apply capped_rejected; lia.
  - destruct (running d !! k) as [[[r ok] [next|]]|]; [| |done].
    2:{ unfold capped. cbn. rewrite visited_app. cbn. rewrite app_nil_r. done. }
    assert (Hd1 : forall d1, queue d1 = queue d ->
              visited (vlog d1) = visited (vlog d) ->
              capped n (e, drain v next (queue d1) d1)).
    { intros d1 Hq1 Hv1. destruct (handed_drain v next (queue d1) d1) as [H1 H2].
      unfold capped. cbn [fst snd]. rewrite <- Hq1, <- Hv1 in Hv.
      repeat split; try done; [|lia]. intros rid Hp. by apply H2 in Hp. }
    destruct ok.
    + apply Hd1; cbn; [done|]. rewrite visited_app. cbn. by rewrite app_nil_r.
    + apply Hd1; unfold reject; cbn; destruct (rejection d); cbn;
        rewrite ?visited_app; cbn; rewrite ?app_nil_r; done.
Qed.

(** X15: the cap is an upper bound under every schedule.  During one
    [consume] on a fresh sequence with cap [n >= 0], whatever the
    transport answers and in whatever order the answers and the visitor
    promises arrive, the visitor is called at most [n] times and the pull
    counter never passes [n]. *)
Theorem cap_is_never_exceeded fuel v po rels evs url n :
  (0 <= n)%Z ->
  let s := sys_run fuel v rels evs (consume fuel v po rels (paginate url n)) in
  (Z.of_nat (length (visited (vlog (snd s)))) <= n)%Z
  /\ (count (fst s) <= n)%Z.
Proof.
  intros Hn. cbn zeta.
  assert (H0 : capped n (consume fuel v po rels (paginate url n))).
  { unfold consume. apply capped_pull; [done| | |];
      unfold paginate; destruct (may_request _); cbn; lia. }
  assert (H : capped n (sys_run fuel v rels evs
                          (consume fuel v po rels (paginate url n)))).
  { revert H0. generalize (consume fuel v po rels (paginate url n)).
    induction evs as [|ev evs IH]; intros s H0; [exact H0|].
    change (sys_run fuel v rels (ev :: evs) s)
      with (sys_run fuel v rels evs (sys_step fuel v rels ev s)).
    apply IH. by apply capped_step. }
  destruct H as (_ & Hc & _ & Hv). split; lia.
Qed.

Lemma cap_is_never_exceeded_witness :
  let s := sys_run 8 plain_visitor None [Arrives 0 (serve docs_six "p1")]
             (consume 8 plain_visitor false None (paginate "p1" 2)) in
  (Z.of_nat (length (visited (vlog (snd s)))) <= 2)%Z.
Proof.
  apply (cap_is_never_exceeded 8 plain_visitor false None
           [Arrives 0 (serve docs_six "p1")] "p1" 2).
  lia.
Defined.

(** ** Resuming after the cap *)

Lemma settle_engine F v rels k e d :
  (forall rid, phase d <> DWaiting rid) ->
  fst (sys_step F v rels (Settles k) (e, d)) = e
  /\ forall rid, phase (snd (sys_step F v rels (Settles k) (e, d))) <> DWaiting rid.
Proof.
  intros Hp. cbn [sys_step].
  destruct (running d !! k) as [[[r ok] [next|]]|]; cbn [fst snd]; [|done..].
  split; [reflexivity|]. intros rid. apply handed_drain.
Qed.

Lemma run_lazy_engine docs v rels F : forall steps s,
  (forall rid, phase (snd s) <> DWaiting rid) ->
  fst (run_lazy steps F v rels docs s) = fst s.
Proof.
  induction steps as [|k IH]; intros [e d] Hp; [reflexivity|].
  cbn [run_lazy fst snd] in *.
  destruct (settle_engine F v rels 0 e d Hp) as [He Hp'].
  destruct (phase d) as [rid| | | | |] eqn:Hph; try reflexivity.
  - by destruct (Hp rid).
  - rewrite IH; [exact He|exact Hp'].
  - destruct (drain_awaits d); [|reflexivity].
    rewrite IH; [exact He|exact Hp'].
Qed.

Lemma finish_not_waiting v e d rid : phase (finish v e d) <> DWaiting rid.
Proof.
  unfold finish. destruct (preserveOrder d); [apply handed_drain|done].
Qed.

Lemma lazy_inv_addMore docs n m rest e :
  (0 <= m)%Z -> lazy_inv docs n rest e -> lazy_inv docs (n + m) rest (addMore m e).
Proof.
  intros Hm (Hlim & Hfin & Hsome & Htot & Hcnt & Hfull & Hst).
  unfold addMore. destruct (Z.eqb_spec m (-1)); [lia|].
  unfold lazy_inv. cbn. rewrite Hlim. repeat (split; [first [done|lia]|]).
  exact Hst.
Qed.

Section Resume.
Variable docs : gmap string Doc.
Variable v : visitor.
Variable rels : option relspec.
Variable n : Z.
Variable po : bool.
Hypothesis cap_nonneg : (0 <= n)%Z.
Hypothesis no_throw : forall r m, v r m <> VThrow.
Hypothesis no_reject : po = true -> forall r m, v r m <> VPromise false.

(** One [cursor.next()] of the driver between two pulls: the pull phase
    ends there, or the driver starts to wait for the next page, or one
    buffered resource is handed over and the loop goes on. *)
Lemma pull_step k e d rest :
  lazy_inv docs n rest e -> tidy po d ->
  (exists e',
      pull (S k) v rels e d = (e', finish v e' d)
      /\ ((e' = e /\ count e = n /\ canContinue e = true)
          \/ canContinue e' = false))
  \/ (exists rid, phase (snd (pull (S k) v rels e d)) = DWaiting rid)
  \/ (exists x b' e2 d2,
        buffer e = Some x :: b'
        /\ pull (S k) v rels e d = pull k v rels e2 d2
        /\ lazy_inv docs n rest e2 /\ buffer e2 = b'
        /\ count e2 = (count e + 1)%Z /\ (count e < n)%Z
        /\ tidy po d2).
Proof.
  intros Hinv Hpo.
  pose proof Hinv as (Hlim & Hfin & Hsome & Htot & Hcnt & Hfull & Hst).
  assert (Hul : forall x, under_limit x e = (x <? n)%Z).
  { intros x. rewrite under_limit_cap; rewrite Hlim; done. }
  assert (Hcap : canContinue e = true -> count e = n ->
            exists e',
              pull (S k) v rels e d = (e', finish v e' d)
              /\ ((e' = e /\ count e = n /\ canContinue e = true)
                  \/ canContinue e' = false)).
  { intros Hcan Hc. exists e. cbn [pull].
    rewrite (cursor_next_cap e Hfin Hcan) by (rewrite Hul; lia). eauto. }
  assert (Hwait : forall rid e1,
            cursor_next e = (e1, YPromise (AwaitRequest rid)) ->
            promises e1 !! rid = Some Pending ->
            exists rid, phase (snd (pull (S k) v rels e d)) = DWaiting rid).
  { intros rid e1 Hn Hp. exists rid. cbn [pull]. rewrite Hn, Hp. reflexivity. }
  destruct (buffer e) as [|r b'] eqn:Hb.
  - cbn in Htot.
    destruct Hst as [(Hi & Hq & Ho & [[Hl Hr]|(u & Hl & Hch)])|(u & rid & Hl & Hch & Hi & Hq & Ho & Hp)].
    + left. exists (set_finished true e). cbn [pull].
      rewrite (cursor_next_end e Hfin (canContinue_nothing e Hb Hi Hl)).
      split; [reflexivity|]. right. by apply canContinue_nothing.
    + pose proof (chain_truthy _ _ _ Hch) as Hu.
      destruct (Z.ltb_spec (count e) n) as [Hc|Hc].
      * right. left.
        apply (Hwait (length (promises e))
                 (set_collectionRequests [] (fst (doRequest u e)))).
        -- rewrite (cursor_next_advance e Hfin (canContinue_link e u Hl Hu))
             by (rewrite Hul; lia).
           rewrite (advance_request e u Hl) by
             (try done; rewrite (may_request_idle e u Hl Hu Hi), Hul; lia).
           rewrite Hb. reflexivity.
        -- cbn. apply list_lookup_middle. reflexivity.
      * left. apply Hcap; [by apply (canContinue_link e u)|lia].
    + pose proof (chain_truthy _ _ _ Hch) as Hu.
      destruct (Z.ltb_spec (count e) n) as [Hc|Hc].
      * right. left. apply (Hwait rid (set_collectionRequests [] e)).
        -- rewrite (cursor_next_advance e Hfin (canContinue_link e u Hl Hu))
             by (rewrite Hul; lia).
           rewrite (advance_quiet e (may_request_flying e u Hl Hi)), Hb, Hq.
           reflexivity.
        -- exact Hp.
      * left. apply Hcap; [by apply (canContinue_link e u)|lia].
  - assert (Hcan : canContinue e = true) by (apply canContinue_buffer; by rewrite Hb).
    destruct (Z.ltb_spec (count e) n) as [Hc|Hc].
    + right. right.
      destruct (advance_filled docs n rest e Hinv) as (e1 & Ha & Hinv1 & Hb1 & Hc1);
        [by rewrite Hb|done|].
      apply Forall_cons in Hsome as [[x ->] Hsome].
      rewrite Hb in Hb1.
      destruct (lazy_inv_then docs n rest e1 x b' Hinv1 Hb1) as [Ht Hinv2]; [lia|].
      destruct (visit_any v rels po no_throw no_reject x d Hpo)
        as (d' & Hv & Hpo' & _).
      exists x, b', (set_buffer b' (set_count (count e1 + 1) e1)), d'.
      split; [reflexivity|]. split.
      * cbn [pull].
        rewrite (cursor_next_advance e Hfin Hcan) by (rewrite Hul; lia).
        rewrite Ha. cbn [fst snd]. rewrite Ht, Hv. reflexivity.
      * split; [exact Hinv2|]. cbn. split; [done|]. split; [lia|]. done.
    + left. apply Hcap; [done|lia].
Qed.

(** The engine at the end of a pull phase that stopped at the cap. *)
Lemma pull_engine k : forall e d rest,
  lazy_inv docs n rest e -> tidy po d ->
  (length (buffer e) + 2 <= k)%nat ->
  (forall rid, phase (snd (pull k v rels e d)) <> DWaiting rid) ->
  canContinue (fst (pull k v rels e d)) = true ->
  lazy_inv docs n rest (fst (pull k v rels e d))
  /\ count (fst (pull k v rels e d)) = n
  /\ buffer (fst (pull k v rels e d)) ++ available rest
     = drop (Z.to_nat (n - count e)) (buffer e ++ available rest).
Proof.
  induction k as [|k IH]; intros e d rest Hinv Hpo Hk Hnw Hcan; [lia|].
  destruct (pull_step k e d rest Hinv Hpo)
    as [(e' & Hp & [(-> & Hc & _)|Hno])
       |[[rid Hw]
        |(x & b' & e2 & d2 & Hb & Hp & Hinv2 & Hb2 & Hc2 & Hlt & Hpo2)]].
  - rewrite Hp. cbn [fst]. split; [exact Hinv|]. split; [exact Hc|].
    rewrite Hc, Z.sub_diag. reflexivity.
  - rewrite Hp in Hcan. cbn [fst] in Hcan. congruence.
  - by destruct (Hnw rid).
  - rewrite Hp in *. rewrite Hb in Hk. cbn [length] in Hk.
    destruct (IH e2 d2 rest Hinv2 Hpo2) as (H1 & H2 & H3);
      [rewrite Hb2; lia|done|done|].
    split; [exact H1|]. split; [exact H2|].
    rewrite H3, Hb2, Hc2, Hb.
    replace (Z.to_nat (n - count e)) with (S (Z.to_nat (n - (count e + 1)))) by lia.
    reflexivity.
Qed.

(** The engine when a lazily served [consume] has resolved to [addMore]. *)
Lemma lazy_run_engine F : forall rest steps k e d,
  lazy_inv docs n rest e -> tidy po d ->
  (length (buffer e) + 2 <= k)%nat ->
  (length (available rest) + 2 <= F)%nat ->
  (length rest <= steps)%nat ->
  owed_verdict n (count e) (buffer e) rest = AddMore ->
  exists rest',
    lazy_inv docs n rest' (fst (run_lazy steps F v rels docs (pull k v rels e d)))
    /\ count (fst (run_lazy steps F v rels docs (pull k v rels e d))) = n
    /\ buffer (fst (run_lazy steps F v rels docs (pull k v rels e d)))
       ++ available rest'
       = drop (Z.to_nat (n - count e)) (buffer e ++ available rest)
    /\ (length rest' <= length rest)%nat.
Proof.
  assert (Hdone : forall rest steps k e d,
            lazy_inv docs n rest e -> tidy po d ->
            (length (buffer e) + 2 <= k)%nat ->
            owed_verdict n (count e) (buffer e) rest = AddMore ->
            (exists e' d',
                pull k v rels e d = (e', finish v e' d')
                /\ tidy po d'
                /\ seen d' = seen d ++ owed_visits n (count e) (buffer e) rest
                /\ (if canContinue e' then AddMore else NoMore)
                   = owed_verdict n (count e) (buffer e) rest) ->
            exists rest',
              lazy_inv docs n rest'
                (fst (run_lazy steps F v rels docs (pull k v rels e d)))
              /\ count (fst (run_lazy steps F v rels docs (pull k v rels e d))) = n
              /\ buffer (fst (run_lazy steps F v rels docs (pull k v rels e d)))
                 ++ available rest'
                 = drop (Z.to_nat (n - count e)) (buffer e ++ available rest)
              /\ (length rest' <= length rest)%nat).
  { intros rest steps k e d Hinv Hpo Hk Hadd (e' & d' & Hpull & _ & _ & Hver).
    assert (Hnw : forall rid, phase (snd (pull k v rels e d)) <> DWaiting rid).
    { intros rid. rewrite Hpull. apply finish_not_waiting. }
    assert (Hcan : canContinue (fst (pull k v rels e d)) = true).
    { rewrite Hpull. cbn [fst]. rewrite Hadd in Hver.
      destruct (canContinue e'); [done|discriminate]. }
    rewrite (run_lazy_engine docs v rels F steps _ Hnw).
    exists rest. split; [|split; [|split; [|lia]]];
      by apply (pull_engine k e d rest Hinv Hpo Hk Hnw Hcan). }
  induction rest as [|p rest IH]; intros steps k e d Hinv Hpo Hk HF Hsteps Hadd.
  - destruct (pull_segment docs v rels n po cap_nonneg no_throw no_reject
                k e d [] Hinv Hpo Hk) as [Hl|(rid & u & Haw & _)].
    + by apply Hdone.
    + destruct Haw as (_ & _ & _ & _ & _ & _ & _ & Hch & _).
      by apply chain_nonempty in Hch.
  - destruct (pull_segment docs v rels n po cap_nonneg no_throw no_reject
                k e d (p :: rest) Hinv Hpo Hk)
      as [Hl|(rid & u & Haw & Hph & Hpo' & Hv & Hc)].
    + by apply Hdone.
    + destruct (pull k v rels e d) as [e' d']. cbn [fst snd] in *.
      destruct steps as [|steps]; [cbn in Hsteps; lia|].
      cbn [run_lazy fst snd]. rewrite Hph.
      pose proof Haw as (_ & _ & Hbe & _ & Hlt & _ & _ & _ & _ & _ & Ho & _).
      rewrite (url_of_single rid u e' Ho).
      destruct (arrival_resumes docs v rels n po cap_nonneg no_throw no_reject
                  F p rest e' d' rid u Haw Hph Hpo')
        as (x & b' & e2 & d2 & -> & Hs & Hinv2 & Hb2 & Hc2 & Hpo2 & Hv2).
      rewrite Hs.
      pose proof Hinv as (_ & _ & Hsome & _).
      unfold available in HF. cbn in HF, Hsteps.
      rewrite length_app in HF. cbn in HF.
      assert (Hadd2 : owed_verdict n (count e2) (buffer e2) rest = AddMore).
      { rewrite <- Hadd, Hb2, Hc2, Hc.
        rewrite (owed_verdict_through n (count e) (buffer e)).
        rewrite owed_verdict_page, owed_verdict_cons. reflexivity. }
      destruct (IH steps F e2 d2 Hinv2 Hpo2) as (rest' & H1 & H2 & H3 & H4);
        [rewrite Hb2; lia|unfold available; lia|lia|exact Hadd2|].
      exists rest'. split; [exact H1|]. split; [exact H2|]. split; [|cbn [length]; lia].
      rewrite H3, Hb2, Hc2, Hc.
      change (available ((Some x :: b') :: rest))
        with ((Some x :: b') ++ available rest).
      rewrite (drop_app_ge (buffer e)) by lia.
      replace (Z.to_nat (n - count e) - length (buffer e))%nat
        with (S (Z.to_nat (n - (count e + Z.of_nat (length (buffer e)) + 1))))
        by lia.
      reflexivity.
Qed.
End Resume.

(** The first [consume] of a lazily served collection. *)
Lemma lazy_consume docs v rels n po url pages fuel steps :
  (0 <= n)%Z ->
  (forall r m, v r m <> VThrow) ->
  (po = true -> forall r m, v r m <> VPromise false) ->
  chain docs url pages ->
  Forall full_page pages ->
  (length (available pages) + 2 <= fuel)%nat ->
  (length pages + length (available pages) <= steps)%nat ->
  visited (vlog (snd (run_lazy steps fuel v rels docs
                        (consume fuel v po rels (paginate url n)))))
  = resources (firstn (Z.to_nat n) (available pages))
  /\ phase (snd (run_lazy steps fuel v rels docs
                   (consume fuel v po rels (paginate url n))))
     = DResolved (if (totalAvailable pages <=? n)%Z then NoMore else AddMore).
Proof.
  intros Hn Hv Hr Hch Hfull Hfuel Hsteps.
  destruct (lazy_inv_paginate docs n url pages Hn Hch Hfull) as (Hinv & Hb & Hc).
  unfold consume.
  match goal with
  | |- context [pull fuel v rels ?e ?d] =>
      destruct (lazy_run docs v rels n po Hn Hv Hr fuel pages steps fuel e d Hinv)
        as [Hvis Hph]
  end; [split; [reflexivity|destruct po; reflexivity]
       |rewrite Hb; cbn; lia|done|rewrite Hb; cbn; lia|].
  rewrite Hb, Hc in Hvis, Hph. cbn [seen vlog queue map app visited] in Hvis.
  unfold owed_visits in Hvis. unfold owed_verdict in Hph.
  rewrite Z.sub_0_r in Hvis. cbn [app] in Hvis, Hph. rewrite Z.add_0_l in Hph.
  split; [exact Hvis|exact Hph].
Qed.

(** X16: [addMore] resumes where the cap stopped.  For a chain of pages
    that each hold at least one resource and no [null], served by a
    transport that answers each page when the driver waits for it, a
    [consume] with cap [n] smaller than the number of resources resolves
    to [addMore]; after [addMore(m)] with [m >= 0] the next [consume]
    hands the visitor exactly the next [m] resources (or what is left of
    them), so that the two calls together deliver the first [n + m], and
    it resolves to [false] exactly when [totalAvailable <= n + m]. *)
Theorem addMore_resumes docs v rels po n m url pages fuel steps :
  (0 <= n)%Z -> (0 <= m)%Z ->
  (forall r x, v r x <> VThrow) ->
  (po = true -> forall r x, v r x <> VPromise false) ->
  chain docs url pages ->
  Forall full_page pages ->
  (n < totalAvailable pages)%Z ->
  (length (available pages) + 2 <= fuel)%nat ->
  (length pages + length (available pages) <= steps)%nat ->
  let s1 := run_lazy steps fuel v rels docs
              (consume fuel v po rels (paginate url n)) in
  let s2 := run_lazy steps fuel v rels docs
              (consume fuel v po rels (addMore m (fst s1))) in
  phase (snd s1) = DResolved AddMore
  /\ visited (vlog (snd s2))
     = resources (firstn (Z.to_nat m) (drop (Z.to_nat n) (available pages)))
  /\ visited (vlog (snd s1)) ++ visited (vlog (snd s2))
     = resources (firstn (Z.to_nat (n + m)) (available pages))
  /\ phase (snd s2)
     = DResolved (if (totalAvailable pages <=? n + m)%Z then NoMore else AddMore).
Proof.
  intros Hn Hm Hv Hr Hch Hfull Hlt Hfuel Hsteps. cbn zeta.
  destruct (lazy_consume docs v rels n po url pages fuel steps Hn Hv Hr Hch Hfull
              Hfuel Hsteps) as (Hvis1 & Hph1).
  destruct (lazy_inv_paginate docs n url pages Hn Hch Hfull) as (Hinv & Hb & Hc).
  assert (Hadd : owed_verdict n (count (paginate url n)) (buffer (paginate url n))
                   pages = AddMore).
  { rewrite Hb, Hc. unfold owed_verdict. cbn [app]. unfold totalAvailable in Hlt.
    destruct (Z.leb_spec (0 + Z.of_nat (length (available pages))) n); [lia|done]. }
  destruct (lazy_run_engine docs v rels n po Hn Hv Hr fuel pages steps fuel
              (paginate url n)
              {| preserveOrder := po; queue := []; running := []; rejection := None;
                 vlog := []; phase := DSpinning |} Hinv)
    as (rest' & Hinv1 & Hc1 & Hb1 & Hlen); try done.
  { split; [reflexivity|destruct po; reflexivity]. }
  { rewrite Hb. cbn. lia. }
  { lia. }
  change (pull fuel v rels (paginate url n) _)
    with (consume fuel v po rels (paginate url n)) in *.
  set (e1 := fst (run_lazy steps fuel v rels docs
                    (consume fuel v po rels (paginate url n)))) in *.
  rewrite Hb, Hc, Z.sub_0_r in Hb1. cbn [app] in Hb1.
  assert (Hdl : length (buffer e1) + length (available rest')
                = (length (available pages) - Z.to_nat n)%nat).
  { rewrite <- length_app, Hb1, length_drop. reflexivity. }
  pose proof (lazy_inv_addMore docs n m rest' e1 Hm Hinv1) as Hinv2.
  assert (Hn2 : (0 <= n + m)%Z) by lia.
  destruct (lazy_run docs v rels (n + m) po Hn2 Hv Hr fuel rest' steps fuel
              (addMore m e1)
              {| preserveOrder := po; queue := []; running := []; rejection := None;
                 vlog := []; phase := DSpinning |} Hinv2)
    as [Hvis2 Hph2].
  { split; [reflexivity|destruct po; reflexivity]. }
  { destruct (addMore_only_limit m e1) as (-> & _). lia. }
  { lia. }
  { destruct (addMore_only_limit m e1) as (-> & _). cbn. lia. }
  change (pull fuel v rels (addMore m e1) _)
    with (consume fuel v po rels (addMore m e1)) in *.
  destruct (addMore_only_limit m e1) as (Hbm & _ & _ & _ & _ & Hcm).
  rewrite Hbm, Hcm, Hc1 in Hvis2, Hph2.
  unfold owed_visits in Hvis2. unfold owed_verdict in Hph2.
  rewrite Hb1 in Hvis2, Hph2. cbn [seen vlog queue map app visited] in Hvis2.
  replace (n + m - n)%Z with m in Hvis2 by lia.
  split; [|split; [exact Hvis2|split]].
  - rewrite Hph1. unfold totalAvailable in *.
    destruct (Z.leb_spec (Z.of_nat (length (available pages))) n); [lia|done].
  - rewrite Hvis1, Hvis2. unfold resources. rewrite <- omap_app.
    rewrite take_take_drop. f_equal. f_equal. lia.
  - rewrite Hph2, length_drop. unfold totalAvailable in *. f_equal.
    destruct (Z.leb_spec (n + Z.of_nat (length (available pages) - Z.to_nat n))
                (n + m)),
             (Z.leb_spec (Z.of_nat (length (available pages))) (n + m));
      (done || lia).
Qed.

Lemma addMore_resumes_witness :
  let s1 := run_lazy 9 8 plain_visitor None docs_three
              (consume 8 plain_visitor true None (paginate "p1" 1)) in
  let s2 := run_lazy 9 8 plain_visitor None docs_three
              (consume 8 plain_visitor true None (addMore 3 (fst s1))) in
  phase (snd s1) = DResolved AddMore
  /\ visited (vlog (snd s2)) = [res "b"; res "c"; res "d"]
  /\ phase (snd s2) = DResolved AddMore.
Proof.
  destruct (addMore_resumes docs_three plain_visitor None true 1 3 "p1"
              [[Some (res "a"); Some (res "b")]; [Some (res "c"); Some (res "d")];
               [Some (res "e"); Some (res "f")]] 8 9) as (H1 & H2 & _ & H4).
  - lia.
  - lia.
  - intros r m. discriminate.
  - intros _ r m. discriminate.
  - exact chain_three.
  - repeat constructor; try discriminate; eauto.
  - vm_compute. reflexivity.
  - cbn. lia.
  - cbn. lia.
  - split; [exact H1|]. split; [exact H2|exact H4].
Defined.
